(** * F1 telemetry: tire degradation filter and pit-stop strategy

    A shallow embedding of the numeric core of the repository:

    - the scalar Kalman filter of [kalman_addon.cpp] ([UpdateState]) and of the
      stand-alone C++ program ([TireDegradationFilter], [main]);
    - [tire_strategy.js] (class [TireStrategy]), [pit_stop_analyzer.js]
      (class [PitStopAnalyzer]), [weather_analyzer.js], [fuel_strategy.js];
    - the synchronous part of the dashboard's [handleAiDecision].

    The C++ code computes on binary64 doubles.  It is embedded twice:

    - [IEEE]: on Rocq's primitive binary64 floats, operation by operation in
      the order of the source (no fused multiply-add).  This model runs, and
      it shows what the machine returns, NaN and infinities included.
      [std::exp] belongs to the C library, so it is a parameter there.  The
      laws of this model that hold for every input rest on the order laws of
      binary64 arithmetic proved below from the specification of the
      primitive operations ([Binary64]).
    - [Exact]: the same equations over the real numbers, for the laws that
      hold of the algebra.  Rounding and overflow are outside this reading,
      and it says nothing where the code divides by zero: every law below
      carries the hypothesis that keeps the denominator away from zero.

    JavaScript numbers are embedded as rationals ([Q]), so NaN and the
    infinities are left out; [Math.round], [Math.ceil] and [Math.floor]
    return integers ([Z]).  Where the code divides by a value that can be
    zero, the laws carry the hypothesis that it is not.  The scorer
    [analyzePitStrategy] is embedded on doubles as well ([PitStopAnalyzer64],
    with [Math] on doubles in [JS64]): its fuel score depends on the
    rounding of a quotient, and its law is stated there. *)

From Stdlib Require Import ZArith QArith Qround Qminmax Qabs.
From Stdlib Require Import List Bool Lia Psatz Reals Floats String.
Import ListNotations.

Set Warnings "-inexact-float".

(* ================================================================== *)
(** * The filter on binary64 floats *)
(* ================================================================== *)

Module IEEE.
Local Open Scope float_scope.

(** [class TireDegradationFilter]: the five private members. *)
Record TireDegradationFilter := mkFilter
  { x : float; P : float; Q : float; R : float; wear_rate : float }.

(** [TireDegradationFilter::update]: the object after the call.  The value
    the method returns is the [x] of that object. *)
Definition update (f : TireDegradationFilter) (noisy_measurement : float)
  : TireDegradationFilter :=
  let x_pred := x f + wear_rate f in
  let P_pred := P f + Q f in
  let K := P_pred / (P_pred + R f) in
  {| x := x_pred + K * (noisy_measurement - x_pred);
     P := (1 - K) * P_pred;
     Q := Q f; R := R f; wear_rate := wear_rate f |}.

(** The Kalman gain [K] that [update] computes on the way. *)
Definition gain (f : TireDegradationFilter) : float :=
  (P f + Q f) / ((P f + Q f) + R f).

(** What a call of the method does, as a caller sees it: the C++ method has
    no [throw] and no check, it returns. *)
Inductive filter_error := DegenerateFilterError.

Inductive outcome :=
| Returns (f : TireDegradationFilter)
| Fails (e : filter_error).

Definition predict_and_update (f : TireDegradationFilter) (m : float) : outcome :=
  Returns (update f m).

(** The loop of [main]: one [update] per reading, in order. *)
Definition feed (f : TireDegradationFilter) (readings : list float)
  : TireDegradationFilter :=
  fold_left update readings f.

(** The covariance after each update of the loop. *)
Fixpoint covariances (f : TireDegradationFilter) (readings : list float)
  : list float :=
  match readings with
  | [] => []
  | m :: rest => P (update f m) :: covariances (update f m) rest
  end.

Definition main_filter : TireDegradationFilter := mkFilter 0 1 0.01 0.5 0.05.

Definition noisy_telemetry : list float :=
  [0.04; 0.12; 0.09; 0.25; 0.18; 0.35; 0.30; 0.55; 0.48; 0.70].

(** No step of a run overflows: the combined variance [(P + Q) + R] that
    [update] divides by is finite at every step. *)
Fixpoint no_overflow (f : TireDegradationFilter) (readings : list float) : bool :=
  match readings with
  | [] => true
  | m :: rest => ((P f + Q f) + R f <? infinity) && no_overflow (update f m) rest
  end.

(** Each value of the list is at most the one before it, starting from [p]. *)
Fixpoint non_increasing_from (p : float) (l : list float) : Prop :=
  match l with
  | [] => True
  | q :: rest => (q <=? p) = true /\ non_increasing_from q rest
  end.

Section WithExp.
(** [std::exp], from the C library. *)
Variable cexp : float -> float.

(** [TireDegradationFilter::calculateCliffProbability]. *)
Definition calculateCliffProbability
  (f : TireDegradationFilter) (cliff_threshold steepness : float) : float :=
  1 / (1 + cexp (- steepness * (x f - cliff_threshold))).

(** The rows [main] prints: lap, raw delta, smoothed state, cliff probability. *)
Fixpoint main_rows (f : TireDegradationFilter) (i : nat) (readings : list float)
  : list (nat * float * float * float) :=
  match readings with
  | [] => []
  | m :: rest =>
      let f' := update f m in
      (S i, m, x f', calculateCliffProbability f' 0.60 15.0 * 100)
        :: main_rows f' (S i) rest
  end.

(** [UpdateState] of the Node addon: the object it returns. *)
Record UpdateResult := mkResult
  { res_x : float; res_P : float; res_cliffProb : float }.

Definition UpdateState (x0 P0 Q0 R0 wear_rate0 measurement : float) : UpdateResult :=
  let x_pred := x0 + wear_rate0 in
  let P_pred := P0 + Q0 in
  let K := P_pred / (P_pred + R0) in
  let new_x := x_pred + K * (measurement - x_pred) in
  let new_P := (1.0 - K) * P_pred in
  let cliff_threshold := 0.60 in
  let steepness := 15.0 in
  let cliff_prob := 1.0 / (1.0 + cexp (- steepness * (new_x - cliff_threshold))) in
  {| res_x := new_x; res_P := new_P; res_cliffProb := cliff_prob |}.

End WithExp.

End IEEE.

(* ================================================================== *)
(** * The filter in exact arithmetic *)
(* ================================================================== *)

Module Exact.
Local Open Scope R_scope.

Definition real := Rdefinitions.R.
Bind Scope R_scope with real.

Record TireDegradationFilter := mkFilter
  { x : real; P : real; Q : real; R : real; wear_rate : real }.

(** The locals of [update], named as in the source. *)
Definition x_pred (f : TireDegradationFilter) : real := x f + wear_rate f.
Definition P_pred (f : TireDegradationFilter) : real := P f + Q f.
Definition K (f : TireDegradationFilter) : real := P_pred f / (P_pred f + R f).

(** [TireDegradationFilter::update]. *)
Definition update (f : TireDegradationFilter) (noisy_measurement : real)
  : TireDegradationFilter :=
  {| x := x_pred f + K f * (noisy_measurement - x_pred f);
     P := (1 - K f) * P_pred f;
     Q := Q f; R := R f; wear_rate := wear_rate f |}.

Definition feed (f : TireDegradationFilter) (readings : list real)
  : TireDegradationFilter :=
  fold_left update readings f.

Fixpoint covariances (f : TireDegradationFilter) (readings : list real)
  : list real :=
  match readings with
  | [] => []
  | m :: rest => P (update f m) :: covariances (update f m) rest
  end.

(** A list of reals that never goes up, starting below [p]. *)
Fixpoint non_increasing_from (p : real) (l : list real) : Prop :=
  match l with
  | [] => True
  | q :: rest => q <= p /\ non_increasing_from q rest
  end.

(** The logistic map of [calculateCliffProbability] and of [UpdateState]. *)
Definition cliff_probability (x0 cliff_threshold steepness : real) : real :=
  1 / (1 + exp (- steepness * (x0 - cliff_threshold))).

Definition calculateCliffProbability
  (f : TireDegradationFilter) (cliff_threshold steepness : real) : real :=
  cliff_probability (x f) cliff_threshold steepness.

Definition main_filter : TireDegradationFilter := mkFilter 0 1 0.01 0.5 0.05.

Definition noisy_telemetry : list real :=
  [0.04; 0.12; 0.09; 0.25; 0.18; 0.35; 0.30; 0.55; 0.48; 0.70].

(** [UpdateState] of the Node addon. *)
Record UpdateResult := mkResult
  { res_x : real; res_P : real; res_cliffProb : real }.

Definition UpdateState (x0 P0 Q0 R0 wear_rate0 measurement : real) : UpdateResult :=
  let x_pred := x0 + wear_rate0 in
  let P_pred := P0 + Q0 in
  let K := P_pred / (P_pred + R0) in
  let new_x := x_pred + K * (measurement - x_pred) in
  let new_P := (1.0 - K) * P_pred in
  let cliff_threshold := 0.60 in
  let steepness := 15.0 in
  let cliff_prob := 1.0 / (1.0 + exp (- steepness * (new_x - cliff_threshold))) in
  {| res_x := new_x; res_P := new_P; res_cliffProb := cliff_prob |}.

End Exact.

(* ================================================================== *)
(** * Binary64 numbers and their values *)
(* ================================================================== *)

(** The definitions behind the order laws of binary64 arithmetic below: the
    real number a float stands for, and what it means for a float to be the
    rounded result of an exact number.  The operations themselves are the
    primitive ones, specified by [SpecFloat]. *)
Module Binary64.
Local Open Scope Z_scope.

(** The power of two [2^e], for any integer [e]. *)
Definition bpow (e : Z) : R := powerRZ 2 e.

(** The number [m * 2^e]. *)
Definition F (m e : Z) : R := (IZR m * bpow e)%R.

(** The exponent of the floats below [2^e]: 53 bits of mantissa, and no
    exponent under -1074.  It is [SpecFloat.fexp prec emax]. *)
Definition fexp (e : Z) : Z := Z.max (e - 53) (-1074).

(** The number a finite float stands for; 0 for the others. *)
Definition SF2R (x : spec_float) : R :=
  match x with
  | S754_finite s m e => F (cond_Zopp s (Zpos m)) e
  | _ => 0%R
  end.

(** A zero or a finite float: not a NaN, not an infinity. *)
Definition SFfinite (x : spec_float) : bool :=
  match x with
  | S754_zero _ | S754_finite _ _ _ => true
  | _ => false
  end.

(** The exponent [e] is the one the format gives the mantissa [m]. *)
Definition canonical (m e : Z) : Prop := fexp (Zdigits2 m + e) = e.

(** What a comparison says of two numbers. *)
Definition cmp_prop (c : comparison) (u v : R) : Prop :=
  match c with Lt => (u < v)%R | Eq => u = v | Gt => (v < u)%R end.

(** [located m e l v]: the non-negative number [v] is [m * 2^e] when the
    location [l] is exact, and lies strictly between [m * 2^e] and
    [(m + 1) * 2^e] otherwise. *)
Definition located (m e : Z) (l : location) (v : R) : Prop :=
  0 <= m /\
  match l with
  | loc_Exact => v = F m e
  | loc_Inexact _ => (F m e < v < F (m + 1) e)%R
  end.

(** The float [binary_round_aux] returns for a sign, a mantissa and an
    exponent: a zero, a finite float, or an infinity on overflow. *)
Definition build (s : bool) (m e : Z) : spec_float :=
  match m with
  | Z0 => S754_zero s
  | Zpos p => if e <=? emax - prec then S754_finite s p e else S754_infinity s
  | Zneg _ => S754_nan
  end.

(** A grid point: a mantissa on the exponent [e] that is either canonical or
    zero on the least exponent. *)
Definition on_grid (m e : Z) : Prop :=
  (m = 0 /\ e = -1074) \/ (0 < m /\ canonical m e).

(** A magnitude with its sign bit. *)
Definition sgn (s : bool) (v : R) : R := if s then (- v)%R else v.

(** [sandwiched v r]: the float [r] stands for the number [v] after rounding:
    it is not a NaN, and no finite float separates it from [v]. *)
Definition sandwiched (v : R) (r : spec_float) : Prop :=
  r <> S754_nan /\
  forall b, valid_binary b = true -> SFfinite b = true ->
    ((SF2R b <= v)%R -> SFleb b r = true) /\
    ((v <= SF2R b)%R -> SFleb r b = true).

(** The number a primitive float stands for, and the floats that stand for
    one. *)
Definition val (x : float) : R := SF2R (Prim2SF x).

Definition finite (x : float) : Prop := SFfinite (Prim2SF x) = true.

(** [x] is the rounded result of the exact number [v]. *)
Definition rounds (v : R) (x : float) : Prop := sandwiched v (Prim2SF x).

End Binary64.

(* ================================================================== *)
(** * JavaScript numbers *)
(* ================================================================== *)

Module JS.
Local Open Scope Q_scope.

(** The comparisons of two numbers, as booleans. *)
Definition ltb (a b : Q) : bool := if Qlt_le_dec a b then true else false.
Definition gtb (a b : Q) : bool := ltb b a.
Definition geb (a b : Q) : bool := negb (ltb a b).
Definition leb (a b : Q) : bool := negb (ltb b a).

(** [Math.round]: the nearest integer, a tie going up. *)
Definition Math_round (q : Q) : Z := Qfloor (q + (1 # 2)).
Definition Math_ceil (q : Q) : Z := Qceiling q.
Definition Math_max (a b : Q) : Q := Qmax a b.
Definition Math_min (a b : Q) : Q := Qmin a b.

(** [parseFloat(v.toFixed(2))] for [v >= 0]: [v] to two decimals, a tie
    going up. *)
Definition toFixed2 (v : Q) : Q := inject_Z (Qfloor (v * 100 + (1 # 2))) / 100.

(** A parameter with a default value: [undefined] takes the default. *)
Definition or_default (d : Q) (v : option Q) : Q :=
  match v with Some q => q | None => d end.

End JS.

(* ================================================================== *)
(** * JavaScript numbers as doubles *)
(* ================================================================== *)

(** The functions of [Math] on binary64 doubles, as ECMAScript defines
    them, for the embedding of [analyzePitStrategy] on doubles. *)
Module JS64.
Local Open Scope float_scope.

(** The comparisons of two numbers; each is false when a side is NaN. *)
Definition gtb (a b : float) : bool := b <? a.
Definition geb (a b : float) : bool := b <=? a.

(** The double of an integer, and a zero of a given sign. *)
Definition of_Z (n : Z) : float := SF2Prim (binary_normalize prec emax n 0 false).
Definition signed_zero (negative : bool) : float := if negative then -0 else 0.

(** [Math.round]: the nearest integer, a tie going up.  A double whose
    exponent is not negative is an integer already; a result of zero keeps
    the sign of the argument; NaN, the infinities and the zeros come back
    unchanged. *)
Definition Math_round (x : float) : float :=
  match Prim2SF x with
  | S754_finite s m e =>
      if (0 <=? e)%Z then x
      else
        let n := ((cond_Zopp s (Zpos m) + 2 ^ (- e - 1)) / 2 ^ (- e))%Z in
        if (n =? 0)%Z then signed_zero s else of_Z n
  | _ => x
  end.

(** [Math.ceil]: the least integer that is not below the argument. *)
Definition Math_ceil (x : float) : float :=
  match Prim2SF x with
  | S754_finite s m e =>
      if (0 <=? e)%Z then x
      else
        let n := (- ((- cond_Zopp s (Zpos m)) / 2 ^ (- e)))%Z in
        if (n =? 0)%Z then signed_zero s else of_Z n
  | _ => x
  end.

(** [Math.max] of two numbers: NaN when one is NaN, and [+0] above [-0]. *)
Definition Math_max (a b : float) : float :=
  if is_nan a || is_nan b then nan
  else if a <? b then b
  else if b <? a then a
  else match Prim2SF a with S754_zero true => b | _ => a end.

(** A parameter with a default value: [undefined] takes the default. *)
Definition or_default (d : float) (v : option float) : float :=
  match v with Some q => q | None => d end.

End JS64.

(* ================================================================== *)
(** * tire_strategy.js *)
(* ================================================================== *)

Module TireStrategy.
Import JS.
Local Open Scope Q_scope.

(** The compound names the lifetime table knows; [Unlisted] stands for any
    other value, for which the table lookup is [undefined]. *)
Inductive compound :=
| SOFT | MEDIUM | HARD | WET | INTERMEDIATE | EXTREME_WET | Unlisted.

(** [getMaxLaps]: [maxLapsMap[compound] || 20]. *)
Definition getMaxLaps (c : compound) : Z :=
  match c with
  | SOFT => 18
  | MEDIUM => 28
  | HARD => 40
  | WET => 35
  | INTERMEDIATE => 30
  | EXTREME_WET => 25
  | Unlisted => 20
  end.

(** [getRandomStartingCompound]; [roll] is the value of [Math.random()]. *)
Definition getRandomStartingCompound (roll : Q) : compound :=
  if ltb roll 0.50 then SOFT
  else if ltb roll 0.80 then MEDIUM
  else HARD.

(** [getDegradationCurveMultiplier]. *)
Definition getDegradationCurveMultiplier (currentLap : Q) (c : compound) : Q :=
  let maxLaps := inject_Z (getMaxLaps c) in
  let percentageOfLife := currentLap / maxLaps in
  if ltb percentageOfLife 0.3 then 1.0
  else if ltb percentageOfLife 0.6 then 1.3
  else if ltb percentageOfLife 0.85 then 1.8
  else if ltb percentageOfLife 0.95 then 2.5
  else 4.0.

(** [isPitStopMandatory]. *)
Definition isPitStopMandatory (lapsCompleted : Q) (c : compound) : bool :=
  let maxLaps := inject_Z (getMaxLaps c) in
  let criticalPercent := 0.99 in
  geb lapsCompleted (maxLaps * criticalPercent).

Inductive wear_status := FRESH | NORMAL | WARNING | CRITICAL | MANDATORY.

(** [getTireWearStatus]. *)
Definition getTireWearStatus (lapsCompleted : Q) (c : compound) : wear_status :=
  let maxLaps := inject_Z (getMaxLaps c) in
  let percent := lapsCompleted / maxLaps in
  if ltb percent 0.5 then FRESH
  else if ltb percent 0.75 then NORMAL
  else if ltb percent 0.85 then WARNING
  else if ltb percent 0.95 then CRITICAL
  else MANDATORY.

(** How severe a wear status is, for comparing two of them. *)
Definition wear_rank (s : wear_status) : Z :=
  match s with
  | FRESH => 0 | NORMAL => 1 | WARNING => 2 | CRITICAL => 3 | MANDATORY => 4
  end.

(** A stint object.  A property the code adds later is [None] until then. *)
Record Stint := mkStint
  { stintNumber : Z;
    startLap : Q;
    tireCompound : compound;
    startPosition : Q;
    weatherAtStart : string;
    lapsCompleted : Q;
    maxExpectedLaps : Z;
    degradationAtStart : Q;
    ageRelativeToPeak : option Q;
    currentDegradation : option Q;
    currentPosition : option Q;
    effectiveDegradation : option Q;
    wearStatus : option wear_status;
    endDegradation : option Q;
    endPosition : option Q }.

(** The object: [driverName], the archived [stints], the [currentStint]. *)
Record t := mkT
  { driverName : string; stints : list Stint; currentStint : Stint }.

(** The constructor; [roll] is drawn only when no compound is given. *)
Definition new (driverName0 : string) (startingCompound : option compound)
  (startingPosition : Q) (roll : Q) : t :=
  let startCompound :=
    match startingCompound with
    | Some c => c
    | None => getRandomStartingCompound roll
    end in
  {| driverName := driverName0;
     stints := [];
     currentStint :=
       {| stintNumber := 1;
          startLap := 1;
          tireCompound := startCompound;
          startPosition := startingPosition;
          weatherAtStart := "DRY";
          lapsCompleted := 0;
          maxExpectedLaps := getMaxLaps startCompound;
          degradationAtStart := 0;
          ageRelativeToPeak := Some 0;
          currentDegradation := None;
          currentPosition := None;
          effectiveDegradation := None;
          wearStatus := None;
          endDegradation := None;
          endPosition := None |} |}.

(** [updateCurrentStint]. *)
Definition updateCurrentStint (this : t) (currentLap currentDegradation0
  currentPosition0 : Q) (weatherCondition : string) : t :=
  let cs := currentStint this in
  let lapsInCurrentStint := currentLap - startLap cs + 1 in
  let maxLaps := inject_Z (getMaxLaps (tireCompound cs)) in
  let curveMult := getDegradationCurveMultiplier lapsInCurrentStint (tireCompound cs) in
  {| driverName := driverName this;
     stints := stints this;
     currentStint :=
       {| stintNumber := stintNumber cs;
          startLap := startLap cs;
          tireCompound := tireCompound cs;
          startPosition := startPosition cs;
          weatherAtStart := weatherCondition;
          lapsCompleted := lapsInCurrentStint;
          maxExpectedLaps := maxExpectedLaps cs;
          degradationAtStart := degradationAtStart cs;
          ageRelativeToPeak := Some (Math_min (lapsInCurrentStint / maxLaps) 1.0);
          currentDegradation := Some currentDegradation0;
          currentPosition := Some currentPosition0;
          effectiveDegradation := Some (currentDegradation0 * curveMult);
          wearStatus := Some (getTireWearStatus lapsInCurrentStint (tireCompound cs));
          endDegradation := endDegradation cs;
          endPosition := endPosition cs |} |}.

(** [pitAndChangeCompound]: the object after the call.  The method returns
    its [stints] and [currentStint]. *)
Definition pitAndChangeCompound (this : t) (lap : Q) (newCompound : compound)
  (newPosition currentDegradation0 : Q) (weatherCondition : string) : t :=
  let cs := currentStint this in
  let saved :=
    {| stintNumber := stintNumber cs;
       startLap := startLap cs;
       tireCompound := tireCompound cs;
       startPosition := startPosition cs;
       weatherAtStart := weatherAtStart cs;
       lapsCompleted := lap - startLap cs;
       maxExpectedLaps := maxExpectedLaps cs;
       degradationAtStart := degradationAtStart cs;
       ageRelativeToPeak := ageRelativeToPeak cs;
       currentDegradation := currentDegradation cs;
       currentPosition := currentPosition cs;
       effectiveDegradation := effectiveDegradation cs;
       wearStatus := wearStatus cs;
       endDegradation := Some currentDegradation0;
       endPosition := Some newPosition |} in
  let stints' := stints this ++ [saved] in
  {| driverName := driverName this;
     stints := stints';
     currentStint :=
       {| stintNumber := Z.of_nat (List.length stints') + 1;
          startLap := lap + 1;
          tireCompound := newCompound;
          startPosition := newPosition;
          weatherAtStart := weatherCondition;
          lapsCompleted := 0;
          maxExpectedLaps := getMaxLaps newCompound;
          degradationAtStart := 0;
          ageRelativeToPeak := None;
          currentDegradation := None;
          currentPosition := None;
          effectiveDegradation := None;
          wearStatus := None;
          endDegradation := None;
          endPosition := None |} |}.

(** [assessStrategy]. *)
Definition assessStrategy (this : t) : string :=
  let n := List.length (stints this) in
  if (3 <? n)%nat then "AGGRESSIVE (4+ stops)"
  else if (n =? 0)%nat then "ONE-STOP (or still on first stint)"
  else if (n =? 1)%nat then "TWO-STOP"
  else if (n =? 2)%nat then "THREE-STOP"
  else "BALANCED".

(** [getStrategyAnalysis]: [totalStints] and [stints] of the object returned. *)
Definition totalStints (this : t) : Z := Z.of_nat (List.length (stints this)) + 1.
Definition allStints (this : t) : list Stint := stints this ++ [currentStint this].

(** The summary of a stint; [endPos] is [None] for the text [Active]. *)
Record Summary := mkSummary
  { num : Z; sum_compound : compound; laps : Q; startPos : Q;
    endPos : option Q; weather : string }.

(** [stint.endPosition || 'Active']: a missing or zero position is falsy. *)
Definition endPosition_or_Active (s : Stint) : option Q :=
  match endPosition s with
  | Some p => if Qeq_bool p 0 then None else Some p
  | None => None
  end.

(** [getStintSummary]; [None] as index is the string [current]. *)
Definition getStintSummary (this : t) (indexOrCurrent : option nat) : option Summary :=
  let stint :=
    match indexOrCurrent with
    | None => Some (currentStint this)
    | Some i => nth_error (stints this) i
    end in
  match stint with
  | None => None
  | Some s =>
      Some {| num := stintNumber s; sum_compound := tireCompound s;
              laps := lapsCompleted s; startPos := startPosition s;
              endPos := endPosition_or_Active s; weather := weatherAtStart s |}
  end.

(** [getAllStintsSummary]: here [endPos] is the stint's own [endPosition]. *)
Definition getAllStintsSummary (this : t) : list Summary :=
  map (fun s => {| num := stintNumber s; sum_compound := tireCompound s;
                   laps := lapsCompleted s; startPos := startPosition s;
                   endPos := endPosition s; weather := weatherAtStart s |})
      (stints this).

(** The calls that change the object, and a sequence of them in order. *)
Inductive call :=
| Update (currentLap currentDegradation0 currentPosition0 : Q) (weatherCondition : string)
| Pit (lap : Q) (newCompound : compound) (newPosition currentDegradation0 : Q)
      (weatherCondition : string).

Definition do_call (this : t) (c : call) : t :=
  match c with
  | Update l d p w => updateCurrentStint this l d p w
  | Pit l c' p d w => pitAndChangeCompound this l c' p d w
  end.

Definition do_calls (this : t) (calls : list call) : t := fold_left do_call calls this.

(** The number of pit stops among the calls. *)
Fixpoint pits (calls : list call) : nat :=
  match calls with
  | [] => 0
  | Update _ _ _ _ :: rest => pits rest
  | Pit _ _ _ _ _ :: rest => S (pits rest)
  end.

(** What every reachable object satisfies, with [n] pit stops made. *)
Definition stints_in_order (n : nat) (this : t) : Prop :=
  map stintNumber (stints this) = map Z.of_nat (seq 1 n) /\
  stintNumber (currentStint this) = (Z.of_nat n + 1)%Z /\
  Forall (fun s => endPosition s <> None /\ endDegradation s <> None) (stints this) /\
  endPosition (currentStint this) = None /\
  maxExpectedLaps (currentStint this) = getMaxLaps (tireCompound (currentStint this)).

End TireStrategy.

(* ================================================================== *)
(** * weather_analyzer.js *)
(* ================================================================== *)

Module WeatherAnalyzer.
Import JS.
Local Open Scope Q_scope.

Inductive condition := DRY | WET | INTERMEDIATE | EXTREME_WET.

Inductive risk := BLISTERING_RISK | EXTREME_HEAT | COLD_TIRES.

(** An entry of [weatherFactors]; [aquaplaning] is absent from two of them. *)
Record Factors := mkFactors
  { degradationMultiplier : Q; gripLevel : string;
    blisteringRisk : bool; aquaplaning : option bool }.

(** The object: its one member, the table [weatherFactors].  The entries are
    objects the methods read and write in place, so the table is state. *)
Record t := mkT
  { dry : Factors; wet : Factors; intermediate : Factors; extreme_wet : Factors }.

Definition new : t :=
  {| dry := mkFactors 1.0 "HIGH" false None;
     wet := mkFactors 1.5 "MEDIUM" false (Some true);
     intermediate := mkFactors 1.2 "MEDIUM-HIGH" false None;
     extreme_wet := mkFactors 2.0 "LOW" false (Some true) |}.

(** [this.weatherFactors[condition]]. *)
Definition weatherFactors (this : t) (c : condition) : Factors :=
  match c with
  | DRY => dry this
  | WET => wet this
  | INTERMEDIATE => intermediate this
  | EXTREME_WET => extreme_wet this
  end.

(** [factors.blisteringRisk = true] on the entry of [c]. *)
Definition set_blisteringRisk (this : t) (c : condition) : t :=
  let mark f := mkFactors (degradationMultiplier f) (gripLevel f) true (aquaplaning f) in
  match c with
  | DRY => mkT (mark (dry this)) (wet this) (intermediate this) (extreme_wet this)
  | WET => mkT (dry this) (mark (wet this)) (intermediate this) (extreme_wet this)
  | INTERMEDIATE => mkT (dry this) (wet this) (mark (intermediate this)) (extreme_wet this)
  | EXTREME_WET => mkT (dry this) (wet this) (intermediate this) (mark (extreme_wet this))
  end.

(** The condition [analyzeWeatherImpact] settles on. *)
Definition classify (rainfall : Q) : condition :=
  if gtb rainfall 0.5 then
    (if gtb rainfall 2 then EXTREME_WET else WET)
  else if gtb rainfall 0.1 && leb rainfall 0.5 then INTERMEDIATE
  else DRY.

(** [getTireRecommendation]. *)
Definition getTireRecommendation (c : condition) : string :=
  match c with
  | DRY => "SOFT/MEDIUM"
  | INTERMEDIATE => "INTERMEDIATE"
  | WET => "WET"
  | EXTREME_WET => "EXTREME_WET"
  end.

(** [getGripLevel]. *)
Definition getGripLevel (this : t) (c : condition) : string :=
  gripLevel (weatherFactors this c).

(** The object [analyzeWeatherImpact] returns, without the four readings it
    echoes as formatted text. *)
Record Impact := mkImpact
  { imp_condition : condition;
    imp_degradationMultiplier : Q;
    imp_gripLevel : string;
    imp_blisteringRisk : bool;
    imp_aquaplaning : bool;
    riskFactors : list risk;
    recommendedTireCompound : string }.

(** [analyzeWeatherImpact]: the object returned and the analyzer after the
    call. *)
Definition analyzeWeatherImpact (this : t) (trackTemp airTemp humidity rainfall : Q)
  : Impact * t :=
  let condition0 := classify rainfall in
  let blistering := gtb trackTemp 60 &&
                    match condition0 with DRY => true | _ => false end in
  let this' := if blistering then set_blisteringRisk this condition0 else this in
  let factors := weatherFactors this' condition0 in
  let riskFactors0 :=
    (if blistering then [BLISTERING_RISK] else []) ++
    (if gtb trackTemp 65 then [EXTREME_HEAT] else []) ++
    (if ltb trackTemp 15 then [COLD_TIRES] else []) in
  ({| imp_condition := condition0;
      imp_degradationMultiplier := degradationMultiplier factors;
      imp_gripLevel := gripLevel factors;
      imp_blisteringRisk := blisteringRisk factors;
      imp_aquaplaning := match aquaplaning factors with Some b => b | None => false end;
      riskFactors := riskFactors0;
      recommendedTireCompound := getTireRecommendation condition0 |},
   this').

(** The analyzer after a series of analyses, each given as track
    temperature, air temperature, humidity and rainfall. *)
Fixpoint analyze_all (s : t) (readings : list (Q * Q * Q * Q)) : t :=
  match readings with
  | [] => s
  | (temp, air, hum, rain) :: rest =>
      analyze_all (snd (analyzeWeatherImpact s temp air hum rain)) rest
  end.

End WeatherAnalyzer.

(* ================================================================== *)
(** * fuel_strategy.js *)
(* ================================================================== *)

Module FuelStrategy.
Import JS.
Local Open Scope Q_scope.

Inductive intensity := AGGRESSIVE | NORMAL | FUEL_SAVE | OtherIntensity.

(** An entry of [fuelHistory]. *)
Record Entry := mkEntry
  { e_lap : Q; consumption : Q; remaining : Q; e_intensity : intensity }.

Record t := mkT
  { totalFuel : Q;
    currentFuel : Q;
    fuelConsumptionPerLap : Q;
    raceLength : Q;
    fuelHistory : list Entry;
    consumptionAdjustment : Q }.

(** The constructor, with the defaults 110 and 44 given by the caller. *)
Definition new (totalFuelCapacity raceLength0 : Q) : t :=
  {| totalFuel := totalFuelCapacity;
     currentFuel := totalFuelCapacity;
     fuelConsumptionPerLap := 1.2;
     raceLength := raceLength0;
     fuelHistory := [];
     consumptionAdjustment := 1.0 |}.

(** [intensityMultiplier[drivingIntensity] || 1.0]. *)
Definition intensityMultiplier (i : intensity) : Q :=
  match i with
  | AGGRESSIVE => 1.3
  | NORMAL => 1.0
  | FUEL_SAVE => 0.75
  | OtherIntensity => 1.0
  end.

(** The consumption [updateFuelLevel] charges for a lap. *)
Definition lap_consumption (this : t) (currentDegradation : Q) (i : intensity) : Q :=
  (fuelConsumptionPerLap this * intensityMultiplier i) * (1 + currentDegradation / 100).

(** [updateFuelLevel]: the object after the call. *)
Definition updateFuelLevel (this : t) (lap currentDegradation : Q) (i : intensity) : t :=
  let consumption0 := lap_consumption this currentDegradation i in
  let fuel' := currentFuel this - consumption0 in
  {| totalFuel := totalFuel this;
     currentFuel := fuel';
     fuelConsumptionPerLap := fuelConsumptionPerLap this;
     raceLength := raceLength this;
     fuelHistory := fuelHistory this ++ [mkEntry lap consumption0 fuel' i];
     consumptionAdjustment := consumptionAdjustment this |}.

(** The [critical] flag [updateFuelLevel] returns, read after the update. *)
Definition critical (this : t) : bool := ltb (currentFuel this) 5.

(** The [warning] flag of [getFuelStatus]. *)
Definition warning (this : t) : bool := ltb (currentFuel this) 15.

(** [canFinishRace]. *)
Definition canFinishRace (this : t) (lapsRemaining : Q) : bool :=
  let fuelNeeded := lapsRemaining * fuelConsumptionPerLap this * 1.1 in
  geb (currentFuel this) fuelNeeded.

(** [getAverageConsumption]. *)
Definition getAverageConsumption (this : t) : Q :=
  match fuelHistory this with
  | [] => fuelConsumptionPerLap this
  | _ =>
      let sum := fold_left (fun acc entry => acc + consumption entry) (fuelHistory this) 0 in
      sum / inject_Z (Z.of_nat (List.length (fuelHistory this)))
  end.

(** [recommendFuelSave]: the flag [needToSave]. *)
Definition needToSave (this : t) (targetLaps : Q) : bool :=
  let requiredConsumption := currentFuel this / targetLaps in
  let currentAvgConsumption := getAverageConsumption this in
  ltb requiredConsumption currentAvgConsumption.

(** [refuel]: the object after the call. *)
Definition refuel (this : t) (amount : Q) : t :=
  {| totalFuel := totalFuel this;
     currentFuel := Math_min (totalFuel this) (currentFuel this + amount);
     fuelConsumptionPerLap := fuelConsumptionPerLap this;
     raceLength := raceLength this;
     fuelHistory := fuelHistory this;
     consumptionAdjustment := consumptionAdjustment this |}.

(** [getFuelStatus().currentFuel] read back with [parseFloat]. *)
Definition reported_fuel (this : t) : Q :=
  toFixed2 (Math_max 0 (currentFuel this)).


(** A series of laps, each an [updateFuelLevel] with its lap number,
    degradation and driving intensity. *)
Definition drive (this : t) (laps : list (Q * Q * intensity)) : t :=
  fold_left (fun s '(l, d, i) => updateFuelLevel s l d i) laps this.

(** The fuel the history accounts for. *)
Definition consumed (this : t) : Q :=
  fold_left (fun acc entry => acc + consumption entry) (fuelHistory this) 0.

End FuelStrategy.

(* ================================================================== *)
(** * pit_stop_analyzer.js *)
(* ================================================================== *)

Module PitStopAnalyzer.
Import JS.
Local Open Scope Q_scope.

Record t := mkT
  { trackLength : Q; pitLaneLength : Q; avgLapTime : Q; pitStopDuration : Q }.

(** The constructor. *)
Definition new (trackLength0 : Q) : t :=
  {| trackLength := trackLength0;
     pitLaneLength := 0.400;
     avgLapTime := 190;
     pitStopDuration := 24 |}.

(** [calculateTimeLoss]. *)
Definition calculateTimeLoss (this : t) (avgLapTime0 : Q) : Q :=
  pitStopDuration this + (pitLaneLength this / trackLength this) * avgLapTime0.

(** The object [estimatePositionLoss] returns, without its [detail] text. *)
Record PositionLoss := mkPositionLoss
  { timeLossSeconds : Q; positionsLost : Z; newPosition : Q }.

(** [estimatePositionLoss]; [random] is the value of [Math.random()]. *)
Definition estimatePositionLoss (this : t) (currentPosition lap raceLength random : Q)
  : PositionLoss :=
  let raceProgress := lap / raceLength in
  let spreadFactor := 1 - (raceProgress * 0.5) in
  let timeLossSeconds0 := pitStopDuration this in
  let avgLapSeconds := avgLapTime this in
  let positionsLost0 :=
    inject_Z (Math_ceil (timeLossSeconds0 / (avgLapSeconds * 0.15))) * spreadFactor in
  let positionsLost1 := Math_max 1 (Math_min positionsLost0 (currentPosition - 1)) in
  let variance := (random - 0.5) * 1 in
  let positionsLost2 := Math_max 1 (positionsLost1 + variance) in
  {| timeLossSeconds := timeLossSeconds0;
     positionsLost := Math_round positionsLost2;
     newPosition := currentPosition + inject_Z (Math_round positionsLost2) |}.

(** The default [raceLength] of [estimatePositionLoss]. *)
Definition default_raceLength : Q := 300.

Record Recovery := mkRecovery
  { lapsAnalyzed : Q; estimatedPositionGain : Q; tireAdvantage : Q; finalPosition : Q }.

(** [estimatePositionRecovery]; its last two parameters are not read. *)
Definition estimatePositionRecovery (this : t) (currentPosition lapsAfterPit : Q)
  : Recovery :=
  let tireAdvantagePerLap := 0.7 in
  let avgLapTime0 := avgLapTime this in
  let maxGainPerLap := (tireAdvantagePerLap / avgLapTime0) * 20 in
  let availablePositionsToGain := currentPosition - 1 in
  let positionGain := Math_min (maxGainPerLap * lapsAfterPit) availablePositionsToGain in
  {| lapsAnalyzed := lapsAfterPit;
     estimatedPositionGain := positionGain;
     tireAdvantage := tireAdvantagePerLap;
     finalPosition := Math_max 1 (currentPosition - inject_Z (Math_round positionGain)) |}.

Inductive recommendation := STAY_OUT | CONSIDER_PIT | PIT_SOON | PIT_IMMEDIATELY.

Inductive urgency := LOW | MEDIUM | HIGH | CRITICAL.

Record PitWindow := mkPitWindow
  { pw_recommendation : recommendation; pw_urgency : urgency;
    lapsToGo : Z; pw_reason : string }.

(** [determineOptimalPitWindow]; an argument left out is [None]. *)
Definition determineOptimalPitWindow (currentLap currentCliffProb lapsSinceLastPit : Q)
  (tireAge maxTireAge : option Q) : PitWindow :=
  let tireAge := or_default 0 tireAge in
  let maxTireAge := or_default 25 maxTireAge in
  let criticalCliff := 0.75 in
  let warningCliff := 0.65 in
  if geb tireAge (maxTireAge * 0.95) then
    mkPitWindow PIT_IMMEDIATELY CRITICAL 0
      "Tire age at critical limit - immediate pit required"
  else if geb currentCliffProb criticalCliff then
    mkPitWindow PIT_IMMEDIATELY CRITICAL 0 "Tires at critical degradation level"
  else if geb currentCliffProb warningCliff then
    mkPitWindow PIT_SOON HIGH 1 "Tires approaching cliff, pit in next lap"
  else if gtb lapsSinceLastPit 20 && gtb currentCliffProb 0.50 then
    mkPitWindow CONSIDER_PIT MEDIUM 2 "Tires degrading, consider strategic pit"
  else
    mkPitWindow STAY_OUT LOW 5 "Tires fresh, extend current stint".

(** How strongly a recommendation asks for a stop. *)
Definition recommendation_rank (r : recommendation) : Z :=
  match r with
  | STAY_OUT => 0 | CONSIDER_PIT => 1 | PIT_SOON => 2 | PIT_IMMEDIATELY => 3
  end.

(** The argument of [analyzePitStrategy]; [tireAge] and [maxTireAge] have
    defaults.  [lap] and [gapToLeader] are destructured and not read. *)
Record CurrentState := mkCurrentState
  { lap : Q;
    currentPosition : Q;
    gapToLeader : Q;
    cliffProb : Q;
    fuel : Q;
    fuelPerLap : Q;
    weather : WeatherAnalyzer.condition;
    lapsSincePit : Q;
    tireAge : option Q;
    maxTireAge : option Q }.

Inductive decision := BOX | STAY.

Record Analysis := mkAnalysis
  { shouldPit : bool;
    reason : list string;
    tireUrgency : Z;
    fuelUrgency : Z;
    strategyUrgency : Z;
    totalUrgency : Z;
    an_decision : decision }.

(** [tireAgePercent], after the defaults of [tireAge] and [maxTireAge]. *)
Definition tireAgePercent (s : CurrentState) : Q :=
  or_default 0 (tireAge s) / or_default 25 (maxTireAge s).

(** [lapsRemaining]. *)
Definition lapsRemaining (s : CurrentState) : Z := Math_ceil (fuel s / fuelPerLap s).

(** The tire-age block: urgency, reasons pushed, [shouldPit]. *)
Definition tire_age_block (tireAgePercent cliffProb0 : Q) : Z * list string * bool :=
  if geb tireAgePercent 0.95 then
    (10%Z, ["CRITICAL: Tire at maximum age limit"%string], true)
  else if geb tireAgePercent 0.85 then
    (9%Z, ["CRITICAL: Tire age 85%+ of lifespan"%string], true)
  else if geb tireAgePercent 0.75 then
    (7%Z, ["HIGH: Tire approaching age limit"%string], false)
  else if geb tireAgePercent 0.60 then
    (4%Z, ["MEDIUM: Tire halfway through lifespan"%string], false)
  else
    (Math_round (cliffProb0 * 5), [], false).

(** The cliff-probability block, given the urgency so far. *)
Definition cliff_block (tireUrgency0 : Z) (cliffProb0 : Q) : Z * list string * bool :=
  if gtb cliffProb0 0.75 then
    (Z.max tireUrgency0 10, ["CRITICAL: Tires at cliff"%string], true)
  else if gtb cliffProb0 0.65 then
    (Z.max tireUrgency0 7, ["HIGH: Tires degrading rapidly"%string], false)
  else if gtb cliffProb0 0.50 then
    (Z.max tireUrgency0 4, ["MEDIUM: Tires wearing"%string], false)
  else
    (tireUrgency0, [], false).

(** The fuel block. *)
Definition fuel_block (fuel0 fuelPerLap0 : Q) : Z * list string * bool :=
  let lapsRemaining := Math_ceil (fuel0 / fuelPerLap0) in
  if (lapsRemaining <? 5)%Z then
    (10%Z, ["CRITICAL: Fuel critically low"%string], true)
  else if (lapsRemaining <? 10)%Z then
    (6%Z, ["HIGH: Must pit for fuel soon"%string], false)
  else
    (1%Z, [], false).

(** The strategy block. *)
Definition strategy_block (currentPosition0 cliffProb0 lapsSincePit0 : Q)
  (weather0 : WeatherAnalyzer.condition) : Z * list string :=
  if gtb currentPosition0 10 && gtb cliffProb0 0.50 && gtb lapsSincePit0 15 then
    (6%Z, ["MEDIUM: Use pit to change tire strategy"%string])
  else
    match weather0 with
    | WeatherAnalyzer.WET | WeatherAnalyzer.INTERMEDIATE =>
        (5%Z, ["MEDIUM: Weather changing - consider fresh tires"%string])
    | _ => (1%Z, [])
    end.

(** [analyzePitStrategy]: the four blocks in the order of the source, each
    adding its reasons and raising [shouldPit]. *)
Definition analyzePitStrategy (s : CurrentState) : Analysis :=
  let '(tu1, r1, p1) := tire_age_block (tireAgePercent s) (cliffProb s) in
  let '(tu2, r2, p2) := cliff_block tu1 (cliffProb s) in
  let '(fu, r3, p3) := fuel_block (fuel s) (fuelPerLap s) in
  let '(su, r4) :=
    strategy_block (currentPosition s) (cliffProb s) (lapsSincePit s) (weather s) in
  let shouldPit0 := p1 || p2 || p3 in
  let totalUrgency0 := (inject_Z tu2 * 1.5 + inject_Z fu + inject_Z su) / 3.5 in
  {| shouldPit := shouldPit0;
     reason := r1 ++ r2 ++ r3 ++ r4;
     tireUrgency := tu2;
     fuelUrgency := fu;
     strategyUrgency := su;
     totalUrgency := Math_round totalUrgency0;
     an_decision := if shouldPit0 then BOX else STAY |}.

End PitStopAnalyzer.

(* ================================================================== *)
(** * pit_stop_analyzer.js: the scorer on doubles *)
(* ================================================================== *)

(** [analyzePitStrategy] once more, on binary64 doubles, operation by
    operation: the quotient [fuel / fuelPerLap] is the rounded one, so
    [Math.ceil] sees what the code sees (10.8 / 1.2 is 9.000000000000002 and
    its ceiling 10), and NaN and the infinities take the branches they take
    in the code. *)
Module PitStopAnalyzer64.
Import JS64.
Local Open Scope float_scope.

(** The argument of [analyzePitStrategy]; [tireAge] and [maxTireAge] have
    defaults.  [lap] and [gapToLeader] are destructured and not read. *)
Record CurrentState := mkCurrentState
  { lap : float;
    currentPosition : float;
    gapToLeader : float;
    cliffProb : float;
    fuel : float;
    fuelPerLap : float;
    weather : WeatherAnalyzer.condition;
    lapsSincePit : float;
    tireAge : option float;
    maxTireAge : option float }.

Record Analysis := mkAnalysis
  { shouldPit : bool;
    reason : list string;
    tireUrgency : float;
    fuelUrgency : float;
    strategyUrgency : float;
    totalUrgency : float;
    an_decision : PitStopAnalyzer.decision }.

(** [tireAgePercent], after the defaults of [tireAge] and [maxTireAge]. *)
Definition tireAgePercent (s : CurrentState) : float :=
  or_default 0 (tireAge s) / or_default 25 (maxTireAge s).

(** The tire-age block: urgency, reasons pushed, [shouldPit]. *)
Definition tire_age_block (tireAgePercent cliffProb0 : float)
  : float * list string * bool :=
  if geb tireAgePercent 0.95 then
    (10, ["CRITICAL: Tire at maximum age limit"%string], true)
  else if geb tireAgePercent 0.85 then
    (9, ["CRITICAL: Tire age 85%+ of lifespan"%string], true)
  else if geb tireAgePercent 0.75 then
    (7, ["HIGH: Tire approaching age limit"%string], false)
  else if geb tireAgePercent 0.60 then
    (4, ["MEDIUM: Tire halfway through lifespan"%string], false)
  else
    (Math_round (cliffProb0 * 5), [], false).

(** The cliff-probability block, given the urgency so far. *)
Definition cliff_block (tireUrgency0 cliffProb0 : float)
  : float * list string * bool :=
  if gtb cliffProb0 0.75 then
    (Math_max tireUrgency0 10, ["CRITICAL: Tires at cliff"%string], true)
  else if gtb cliffProb0 0.65 then
    (Math_max tireUrgency0 7, ["HIGH: Tires degrading rapidly"%string], false)
  else if gtb cliffProb0 0.50 then
    (Math_max tireUrgency0 4, ["MEDIUM: Tires wearing"%string], false)
  else
    (tireUrgency0, [], false).

(** The fuel block. *)
Definition fuel_block (fuel0 fuelPerLap0 : float) : float * list string * bool :=
  let lapsRemaining := Math_ceil (fuel0 / fuelPerLap0) in
  if lapsRemaining <? 5 then
    (10, ["CRITICAL: Fuel critically low"%string], true)
  else if lapsRemaining <? 10 then
    (6, ["HIGH: Must pit for fuel soon"%string], false)
  else
    (1, [], false).

(** The strategy block. *)
Definition strategy_block (currentPosition0 cliffProb0 lapsSincePit0 : float)
  (weather0 : WeatherAnalyzer.condition) : float * list string :=
  if gtb currentPosition0 10 && gtb cliffProb0 0.50 && gtb lapsSincePit0 15 then
    (6, ["MEDIUM: Use pit to change tire strategy"%string])
  else
    match weather0 with
    | WeatherAnalyzer.WET | WeatherAnalyzer.INTERMEDIATE =>
        (5, ["MEDIUM: Weather changing - consider fresh tires"%string])
    | _ => (1, [])
    end.

(** [analyzePitStrategy]: the four blocks in the order of the source, each
    adding its reasons and raising [shouldPit]. *)
Definition analyzePitStrategy (s : CurrentState) : Analysis :=
  let '(tu1, r1, p1) := tire_age_block (tireAgePercent s) (cliffProb s) in
  let '(tu2, r2, p2) := cliff_block tu1 (cliffProb s) in
  let '(fu, r3, p3) := fuel_block (fuel s) (fuelPerLap s) in
  let '(su, r4) :=
    strategy_block (currentPosition s) (cliffProb s) (lapsSincePit s) (weather s) in
  let shouldPit0 := p1 || p2 || p3 in
  let totalUrgency0 := (tu2 * 1.5 + fu + su) / 3.5 in
  {| shouldPit := shouldPit0;
     reason := r1 ++ r2 ++ r3 ++ r4;
     tireUrgency := tu2;
     fuelUrgency := fu;
     strategyUrgency := su;
     totalUrgency := Math_round totalUrgency0;
     an_decision := if shouldPit0 then PitStopAnalyzer.BOX else PitStopAnalyzer.STAY |}.


End PitStopAnalyzer64.

(* ================================================================== *)
(** * The dashboard: [handleAiDecision] *)
(* ================================================================== *)

Module Dashboard.
Import JS.
Local Open Scope Q_scope.

(** [raceState]. *)
Record RaceState := mkRaceState
  { currentPosition : Q; gapToLeader : Q; trackTemp : Q; airTemp : Q;
    humidity : Q; rainfall : Q; enduranceMultiplier : Q }.

(** The top-level variables and objects [handleAiDecision] reads or writes. *)
Record State := mkState
  { isAgentThinking : bool;
    lastDecisionLap : Z;
    executePitStop : bool;
    positionBeforePit : Q;
    lapsSinceLastPit : Q;
    currentTireCompound : TireStrategy.compound;
    raceState : RaceState;
    weatherAnalyzer : WeatherAnalyzer.t;
    fuelStrategy : FuelStrategy.t;
    pitStopAnalyzer : PitStopAnalyzer.t }.

(** What the prompt sent to the advisor is built from. *)
Record Request := mkRequest
  { pitAnalysis : PitStopAnalyzer.Analysis;
    pitImpact : PitStopAnalyzer.PositionLoss;
    tireWearStatus : TireStrategy.wear_status;
    maxLapsForCompound : Z;
    degradationMultiplier : Q }.

(** How a call of [handleAiDecision] ends. *)
Inductive action :=
| Busy                      (* returned at once: a request is in flight *)
| MandatoryPit              (* the mandatory check set [executePitStop] *)
| NoCheck                   (* nothing asked this lap *)
| TooSoon                   (* less than two laps since the last request *)
| Consult (r : Request).    (* a request was sent to the advisor *)

Definition set_weatherAnalyzer (st : State) (w : WeatherAnalyzer.t) : State :=
  mkState (isAgentThinking st) (lastDecisionLap st) (executePitStop st)
    (positionBeforePit st) (lapsSinceLastPit st) (currentTireCompound st)
    (raceState st) w (fuelStrategy st) (pitStopAnalyzer st).

Definition set_pit (st : State) : State :=
  mkState (isAgentThinking st) (lastDecisionLap st) true
    (currentPosition (raceState st)) (lapsSinceLastPit st) (currentTireCompound st)
    (raceState st) (weatherAnalyzer st) (fuelStrategy st) (pitStopAnalyzer st).

Definition set_thinking (st : State) (b : bool) : State :=
  mkState b (lastDecisionLap st) (executePitStop st)
    (positionBeforePit st) (lapsSinceLastPit st) (currentTireCompound st)
    (raceState st) (weatherAnalyzer st) (fuelStrategy st) (pitStopAnalyzer st).

Definition set_lastDecisionLap (st : State) (l : Z) : State :=
  mkState (isAgentThinking st) l (executePitStop st)
    (positionBeforePit st) (lapsSinceLastPit st) (currentTireCompound st)
    (raceState st) (weatherAnalyzer st) (fuelStrategy st) (pitStopAnalyzer st).

(** [weatherAnalyzer.analyzeWeatherImpact] on the readings of [raceState]. *)
Definition analyze_weather (st : State) : WeatherAnalyzer.Impact * State :=
  let rs := raceState st in
  let '(impact, w') :=
    WeatherAnalyzer.analyzeWeatherImpact (weatherAnalyzer st)
      (trackTemp rs) (airTemp rs) (humidity rs) (rainfall rs) in
  (impact, set_weatherAnalyzer st w').

(** [handleAiDecision], up to the moment the request leaves; [random] is the
    value [estimatePositionLoss] draws.  [dropObj] and [currentP] only reach
    the prompt text. *)
Definition handleAiDecision (st : State) (lap : Z) (currentCliff : Q) (random : Q)
  : State * action :=
  if isAgentThinking st then (st, Busy)
  else if TireStrategy.isPitStopMandatory (lapsSinceLastPit st) (currentTireCompound st)
  then (set_pit st, MandatoryPit)
  else
    let '(weather0, st1) := analyze_weather st in
    let pitAnalysis0 :=
      PitStopAnalyzer.analyzePitStrategy
        {| PitStopAnalyzer.lap := inject_Z lap;
           PitStopAnalyzer.currentPosition := currentPosition (raceState st1);
           PitStopAnalyzer.gapToLeader := gapToLeader (raceState st1);
           PitStopAnalyzer.cliffProb := currentCliff;
           PitStopAnalyzer.fuel := FuelStrategy.reported_fuel (fuelStrategy st1);
           PitStopAnalyzer.fuelPerLap := FuelStrategy.getAverageConsumption (fuelStrategy st1);
           PitStopAnalyzer.weather := WeatherAnalyzer.imp_condition weather0;
           PitStopAnalyzer.lapsSincePit := lapsSinceLastPit st1;
           PitStopAnalyzer.tireAge := Some (lapsSinceLastPit st1);
           PitStopAnalyzer.maxTireAge :=
             Some (inject_Z (TireStrategy.getMaxLaps (currentTireCompound st1))) |} in
    let shouldDecide :=
      gtb currentCliff 0.40
      || ((0 <? lap)%Z && (Z.rem lap 4 =? 0)%Z)
      || PitStopAnalyzer.shouldPit pitAnalysis0 in
    if shouldDecide then
      if (lap - lastDecisionLap st1 <? 2)%Z then (st1, TooSoon)
      else
        let st2 := set_thinking (set_lastDecisionLap st1 lap) true in
        let '(_, st3) := analyze_weather st2 in
        let pitImpact0 :=
          PitStopAnalyzer.estimatePositionLoss (pitStopAnalyzer st3)
            (currentPosition (raceState st3)) (inject_Z lap)
            PitStopAnalyzer.default_raceLength random in
        (st3,
         Consult
           {| pitAnalysis := pitAnalysis0;
              pitImpact := pitImpact0;
              tireWearStatus :=
                TireStrategy.getTireWearStatus (lapsSinceLastPit st3) (currentTireCompound st3);
              maxLapsForCompound := TireStrategy.getMaxLaps (currentTireCompound st3);
              degradationMultiplier :=
                TireStrategy.getDegradationCurveMultiplier
                  (lapsSinceLastPit st3) (currentTireCompound st3) |})
    else (st1, NoCheck).



End Dashboard.

(* ================================================================== *)
(** * The specification's wording, for comparison with the code *)
(* ================================================================== *)

Module Spec.
Import JS.
Local Open Scope Q_scope.

(** The decision ladder as the specification writes it: the mandatory check,
    then the cliff thresholds. *)
Definition ladder (is_mandatory_pit : bool) (cliffProb lapsSincePit : Q)
  : PitStopAnalyzer.recommendation :=
  if is_mandatory_pit then PitStopAnalyzer.PIT_IMMEDIATELY
  else if geb cliffProb 0.75 then PitStopAnalyzer.PIT_IMMEDIATELY
  else if geb cliffProb 0.65 then PitStopAnalyzer.PIT_SOON
  else if gtb lapsSincePit 20 && gtb cliffProb 0.50 then PitStopAnalyzer.CONSIDER_PIT
  else PitStopAnalyzer.STAY_OUT.

(** The values of the rules that fire. *)
Definition triggered (rules : list (bool * Z)) : list Z :=
  map snd (filter fst rules).

(** The largest value of a list, or [otherwise] when no rule fired. *)
Definition max_over (values : list Z) (otherwise : Z) : Z :=
  match values with
  | [] => otherwise
  | v :: rest => fold_left Z.max rest v
  end.

(** Tire urgency: the age rules, else [round(cliffProb*5)]; then the max with
    each cliff rule that fires. *)
Definition tire_urgency (ageRatio cliffProb : Q) : Z :=
  let age_based :=
    max_over
      (triggered [(geb ageRatio 0.95, 10%Z); (geb ageRatio 0.85, 9%Z);
                  (geb ageRatio 0.75, 7%Z); (geb ageRatio 0.60, 4%Z)])
      (Math_round (cliffProb * 5)) in
  max_over
    (age_based ::
     triggered [(gtb cliffProb 0.75, 10%Z); (gtb cliffProb 0.65, 7%Z);
                (gtb cliffProb 0.50, 4%Z)])
    age_based.

Definition fuel_urgency (lapsRemaining : Z) : Z :=
  max_over
    (triggered [((lapsRemaining <? 5)%Z, 10%Z); ((lapsRemaining <? 10)%Z, 6%Z)]) 1.

Definition strategy_urgency (position cliffProb lapsSincePit : Q)
  (weather : WeatherAnalyzer.condition) : Z :=
  max_over
    (triggered
       [(gtb position 10 && gtb cliffProb 0.50 && gtb lapsSincePit 15, 6%Z);
        (match weather with
         | WeatherAnalyzer.WET | WeatherAnalyzer.INTERMEDIATE => true
         | _ => false
         end, 5%Z)])
    1.

Definition composite (tireUrgency fuelUrgency strategyUrgency : Z) : Z :=
  Math_round ((inject_Z tireUrgency * 1.5 + inject_Z fuelUrgency
               + inject_Z strategyUrgency) / 3.5).

End Spec.

(** The scorer's rules as the specification words them, on doubles. *)
Module Spec64.
Import JS64.
Local Open Scope float_scope.

(** The values of the rules that fire. *)
Definition triggered (rules : list (bool * float)) : list float :=
  map snd (filter fst rules).

(** The largest value of a list, or [otherwise] when no rule fired. *)
Definition max_over (values : list float) (otherwise : float) : float :=
  match values with
  | [] => otherwise
  | v :: rest => fold_left Math_max rest v
  end.

(** Tire urgency: the age rules, else [round(cliffProb*5)]; then the max with
    each cliff rule that fires. *)
Definition tire_urgency (ageRatio cliffProb : float) : float :=
  let age_based :=
    max_over
      (triggered [(geb ageRatio 0.95, 10); (geb ageRatio 0.85, 9);
                  (geb ageRatio 0.75, 7); (geb ageRatio 0.60, 4)])
      (Math_round (cliffProb * 5)) in
  max_over
    (age_based ::
     triggered [(gtb cliffProb 0.75, 10); (gtb cliffProb 0.65, 7);
                (gtb cliffProb 0.50, 4)])
    age_based.

Definition fuel_urgency (lapsRemaining : float) : float :=
  max_over (triggered [(lapsRemaining <? 5, 10); (lapsRemaining <? 10, 6)]) 1.

Definition strategy_urgency (position cliffProb lapsSincePit : float)
  (weather : WeatherAnalyzer.condition) : float :=
  max_over
    (triggered
       [(gtb position 10 && gtb cliffProb 0.50 && gtb lapsSincePit 15, 6);
        (match weather with
         | WeatherAnalyzer.WET | WeatherAnalyzer.INTERMEDIATE => true
         | _ => false
         end, 5)])
    1.



End Spec64.

(** A value that shows as [v] when written with steps of [unit]: it lies
    within half a step of [v]. *)
Definition rounds_to (unit v x : R) : Prop :=
  (v - unit / 2 <= x < v + unit / 2)%R.

(* ================================================================== *)
(** * The claims about the filter, as they are worded *)
(* ================================================================== *)

Module AsStated.

(** "Whenever the combined variance [(P + Q) + R] is not strictly positive,
    the operation fails with [DegenerateFilterError]." *)
Definition degenerate_call_fails (f : IEEE.TireDegradationFilter) (m : float) : Prop :=
  (0 <? (IEEE.P f + IEEE.Q f) + IEEE.R f)%float = false ->
  IEEE.predict_and_update f m = IEEE.Fails IEEE.DegenerateFilterError.

(** "From [P >= 0], [Q >= 0], [R >= 0] the covariance after each update is
    non-negative." *)
Definition covariance_stays_non_negative
  (f : IEEE.TireDegradationFilter) (readings : list float) : Prop :=
  (0 <=? IEEE.P f)%float = true ->
  (0 <=? IEEE.Q f)%float = true ->
  (0 <=? IEEE.R f)%float = true ->
  forallb (fun p => (0 <=? p)%float) (IEEE.covariances f readings) = true.

(** Scenario B: "the final smoothed estimate exceeds 0.55 and the final
    cliff probability exceeds 0.5". *)
Definition scenario_B : Prop :=
  let f := Exact.feed Exact.main_filter Exact.noisy_telemetry in
  (0.55 < Exact.x f /\ 0.5 < Exact.calculateCliffProbability f 0.60 15.0)%R.

(** Scenario A: "estimate about 0.0417, gain about 0.67, cliff probability
    well under 0.5". *)
Definition scenario_A : Prop :=
  let r := (Exact.UpdateState 0.0 1.0 0.01 0.5 0.05 0.04)%R in
  (rounds_to 0.0001 0.0417 (Exact.res_x r))%R /\
  (rounds_to 0.01 0.67 (Exact.K Exact.main_filter))%R /\
  (Exact.res_cliffProb r < 0.5)%R.


(** "With P_pred = P + Q > 0 and R > 0 the gain lies strictly in (0,1), the
    corrected estimate strictly between the prediction and the measurement
    whenever the two differ, and the corrected covariance is strictly less
    than P_pred": of one call of the C++ method. *)
Definition gain_strictly_inside (f : IEEE.TireDegradationFilter) (m : float) : Prop :=
  let P_pred := (IEEE.P f + IEEE.Q f)%float in
  let K := (P_pred / (P_pred + IEEE.R f))%float in
  let x_pred := (IEEE.x f + IEEE.wear_rate f)%float in
  let f' := IEEE.update f m in
  (0 <? P_pred)%float = true -> (0 <? IEEE.R f)%float = true ->
  ((0 <? K)%float = true /\ (K <? 1)%float = true) /\
  ((x_pred <? m)%float = true ->
   (x_pred <? IEEE.x f')%float = true /\ (IEEE.x f' <? m)%float = true) /\
  ((m <? x_pred)%float = true ->
   (m <? IEEE.x f')%float = true /\ (IEEE.x f' <? x_pred)%float = true) /\
  (IEEE.P f' <? P_pred)%float = true.

End AsStated.

Module AsStatedJS.
Local Open Scope Q_scope.

(** "Whenever the pit stop is mandatory the decision logic orders the pit,
    whatever the cliff probability." *)
Definition mandatory_always_pits
  (st : Dashboard.State) (lap : Z) (currentCliff random : Q) : Prop :=
  TireStrategy.isPitStopMandatory
    (Dashboard.lapsSinceLastPit st) (Dashboard.currentTireCompound st) = true ->
  snd (Dashboard.handleAiDecision st lap currentCliff random) = Dashboard.MandatoryPit /\
  Dashboard.executePitStop
    (fst (Dashboard.handleAiDecision st lap currentCliff random)) = true.

(** "When the mandatory-pit condition does not hold, the ladder is the four
    cliff rules": the tick of a tire of compound [c] with [laps] laps on it. *)
Definition ladder_when_not_mandatory
  (c : TireStrategy.compound) (currentLap laps cliffProb : Q) : Prop :=
  TireStrategy.isPitStopMandatory laps c = false ->
  PitStopAnalyzer.pw_recommendation
    (PitStopAnalyzer.determineOptimalPitWindow currentLap cliffProb laps
       (Some laps) (Some (inject_Z (TireStrategy.getMaxLaps c))))
  = Spec.ladder false cliffProb laps.

End AsStatedJS.

(* ================================================================== *)
(** * Laws of the exact filter *)
(* ================================================================== *)

Section ExactLaws.
Local Open Scope R_scope.

Lemma K_times_denominator (f : Exact.TireDegradationFilter) :
  Exact.P_pred f + Exact.R f <> 0 ->
  Exact.K f * (Exact.P_pred f + Exact.R f) = Exact.P_pred f.
Proof. intros H. unfold Exact.K. field. exact H. Qed.

Lemma K_bounds (f : Exact.TireDegradationFilter) :
  0 <= Exact.P_pred f -> 0 <= Exact.R f -> 0 < Exact.P_pred f + Exact.R f ->
  0 <= Exact.K f <= 1.
Proof.
  intros Hp Hr Hd.
  assert (HK := K_times_denominator f ltac:(lra)).
  split.
  - destruct (Rle_or_lt 0 (Exact.K f)) as [H|H]; [exact H|]. nra.
  - destruct (Rle_or_lt (Exact.K f) 1) as [H|H]; [exact H|]. nra.
Qed.

Lemma K_strict (f : Exact.TireDegradationFilter) :
  0 < Exact.P_pred f -> 0 < Exact.R f -> 0 < Exact.K f < 1.
Proof.
  intros Hp Hr.
  assert (HK := K_times_denominator f ltac:(lra)).
  split.
  - destruct (Rlt_or_le 0 (Exact.K f)) as [H|H]; [exact H|]. nra.
  - destruct (Rlt_or_le (Exact.K f) 1) as [H|H]; [exact H|]. nra.
Qed.

Lemma update_P_bounds (f : Exact.TireDegradationFilter) (m : R) :
  0 <= Exact.P_pred f -> 0 <= Exact.R f -> 0 < Exact.P_pred f + Exact.R f ->
  0 <= Exact.P (Exact.update f m) <= Exact.P_pred f.
Proof.
  intros Hp Hr Hd. destruct (K_bounds f Hp Hr Hd) as [H0 H1].
  cbn [Exact.update Exact.P]. split; nra.
Qed.

Lemma exp_half (t : R) : exp t = exp (t / 2) * exp (t / 2).
Proof. rewrite <- exp_plus. f_equal. lra. Qed.

Lemma exp_lower8 (t : R) : 0 < t -> (1 + t / 8) ^ 8 <= exp t.
Proof.
  intros Ht.
  assert (H1 : 1 + t / 8 < exp (t / 8)) by (apply exp_ineq1; lra).
  assert (H2 : exp t = exp (t / 8) ^ 8).
  { rewrite (exp_half t), (exp_half (t / 2)), (exp_half (t / 2 / 2)).
    replace (t / 2 / 2 / 2) with (t / 8) by lra. ring. }
  rewrite H2. apply pow_incr. lra.
Qed.

Lemma cliff_probability_times (x thr st : R) :
  Exact.cliff_probability x thr st * (1 + exp (- st * (x - thr))) = 1.
Proof.
  unfold Exact.cliff_probability.
  assert (He := exp_pos (- st * (x - thr))). field. lra.
Qed.

Lemma cliff_probability_pos_lt_1 (x thr st : R) :
  0 < Exact.cliff_probability x thr st < 1.
Proof.
  assert (He := exp_pos (- st * (x - thr))).
  assert (Hd := cliff_probability_times x thr st).
  split.
  - destruct (Rlt_or_le 0 (Exact.cliff_probability x thr st)); [assumption | nra].
  - destruct (Rlt_or_le (Exact.cliff_probability x thr st) 1); [assumption | nra].
Qed.

Lemma cliff_probability_lt (x thr st c : R) :
  1 < c * (1 + exp (- st * (x - thr))) -> Exact.cliff_probability x thr st < c.
Proof.
  intros H.
  assert (He := exp_pos (- st * (x - thr))).
  assert (Hd := cliff_probability_times x thr st).
  destruct (Rlt_or_le (Exact.cliff_probability x thr st) c); [assumption | nra].
Qed.

Lemma cliff_probability_gt (x thr st c : R) :
  c * (1 + exp (- st * (x - thr))) < 1 -> c < Exact.cliff_probability x thr st.
Proof.
  intros H.
  assert (He := exp_pos (- st * (x - thr))).
  assert (Hd := cliff_probability_times x thr st).
  destruct (Rlt_or_le c (Exact.cliff_probability x thr st)); [assumption | nra].
Qed.

Lemma cliff_probability_increasing (thr st x1 x2 : R) :
  0 < st -> x1 < x2 ->
  Exact.cliff_probability x1 thr st < Exact.cliff_probability x2 thr st.
Proof.
  intros Hst Hx. unfold Exact.cliff_probability.
  assert (H1 := exp_pos (- st * (x1 - thr))).
  assert (H2 := exp_pos (- st * (x2 - thr))).
  assert (He : exp (- st * (x2 - thr)) < exp (- st * (x1 - thr))).
  { apply exp_increasing. nra. }
  unfold Rdiv. rewrite !Rmult_1_l.
  apply Rinv_0_lt_contravar; lra.
Qed.

Lemma cliff_probability_at_threshold (thr st : R) :
  Exact.cliff_probability thr thr st = 1 / 2.
Proof.
  unfold Exact.cliff_probability.
  replace (- st * (thr - thr)) with 0 by ring.
  rewrite exp_0. lra.
Qed.

Lemma cliff_probability_below_threshold (x thr st : R) :
  0 < st -> x < thr -> Exact.cliff_probability x thr st < 1 / 2.
Proof.
  intros Hst Hx. apply cliff_probability_lt.
  assert (1 < exp (- st * (x - thr))); [|lra].
  rewrite <- exp_0. apply exp_increasing. nra.
Qed.

Lemma cliff_probability_near_threshold (x thr st : R) :
  st * (thr - x) < 1 -> 1 / 4 < Exact.cliff_probability x thr st.
Proof.
  intros H. apply cliff_probability_gt.
  assert (exp (- st * (x - thr)) < 3); [|lra].
  apply Rlt_le_trans with (exp 1); [apply exp_increasing; lra | apply exp_le_3].
Qed.

Lemma cliff_probability_far_below (x thr st c : R) :
  0 < st * (thr - x) -> 0 < c ->
  1 < c * (1 + (1 + st * (thr - x) / 8) ^ 8) ->
  Exact.cliff_probability x thr st < c.
Proof.
  intros Ht Hc H. apply cliff_probability_lt.
  assert (H8 := exp_lower8 (st * (thr - x)) Ht).
  replace (- st * (x - thr)) with (st * (thr - x)) by ring.
  nra.
Qed.

End ExactLaws.

Section ScenarioTrace.
Local Open Scope R_scope.

(** Rewrites the innermost [update] of a run into the state it equals. *)
Ltac run_step x' P' :=
  match goal with
  | |- context [Exact.update (Exact.mkFilter ?a ?b ?q ?r ?w) ?m] =>
      replace (Exact.update (Exact.mkFilter a b q r w) m)
        with (Exact.mkFilter x' P' q r w)
        by (unfold Exact.update, Exact.K, Exact.x_pred, Exact.P_pred;
            cbn [Exact.x Exact.P Exact.Q Exact.R Exact.wear_rate];
            f_equal; lra)
  end.

Lemma scenario_first_update :
  Exact.update Exact.main_filter 0.04
  = Exact.mkFilter (327 / 7550) (101 / 302) 0.01 0.5 0.05.
Proof. unfold Exact.main_filter. run_step (327 / 7550) (101 / 302). reflexivity. Qed.

Lemma scenario_final_state :
  Exact.feed Exact.main_filter Exact.noisy_telemetry
  = Exact.mkFilter (7861954289491556011 / 14440392409659867755)
                   (424982359319176001 / 5776156963863947102) 0.01 0.5 0.05.
Proof.
  unfold Exact.feed, Exact.noisy_telemetry, Exact.main_filter.
  cbn [fold_left].
  run_step (327 / 7550) (101 / 302).
  run_step (66431 / 637550) (5201 / 25502).
  run_step (12286059 / 91035100) (272801 / 1820702).
  run_step (48226029 / 240271804) (14550401 / 120135902).
  run_step (44738054009 / 189549277550) (787588001 / 7581971102).
  run_step (1386503056937 / 4654393263020) (43170385601 / 465439326302).
  run_step (47654284831803 / 140272221007510) (2391238943201 / 28054444201502).
  run_step (6936270450086661 / 16699005485967020) (133589169260801 / 1669900548596702).
  run_step (575874200122124062 / 1231548061306398775)
           (7514408737338401 / 98523844904511902).
  run_step (7861954289491556011 / 14440392409659867755)
           (424982359319176001 / 5776156963863947102).
  reflexivity.
Qed.

End ScenarioTrace.

Section IEEELaws.
Local Open Scope float_scope.

Lemma float_of_nan (v : float) : Prim2SF v = S754_nan -> v = nan.
Proof. intros H. rewrite <- (SF2Prim_Prim2SF v), H. reflexivity. Qed.

Lemma mul_nan_l (v : float) : nan * v = nan.
Proof. apply float_of_nan. rewrite FloatAxioms.mul_spec. reflexivity. Qed.

Lemma add_nan_r (v : float) : v + nan = nan.
Proof.
  apply float_of_nan. rewrite FloatAxioms.add_spec.
  destruct (Prim2SF v) as [s|s| |s m e]; reflexivity.
Qed.

Lemma eqb_zero (v : float) : (v =? 0) = true -> exists s, Prim2SF v = S754_zero s.
Proof.
  rewrite FloatAxioms.eqb_spec. destruct (Prim2SF v) as [s|s| |s m e]; cbn; intros H.
  - exists s; reflexivity.
  - destruct s; discriminate.
  - discriminate.
  - destruct s; discriminate.
Qed.

Lemma div_zero_zero (a b : float) : (a =? 0) = true -> (b =? 0) = true -> a / b = nan.
Proof.
  intros Ha Hb. destruct (eqb_zero a Ha) as [sa Ea], (eqb_zero b Hb) as [sb Eb].
  apply float_of_nan. rewrite FloatAxioms.div_spec, Ea, Eb. reflexivity.
Qed.

End IEEELaws.

(* ================================================================== *)
(** * Binary64 arithmetic: rounding keeps the order *)
(* ================================================================== *)

(** From the specification of the primitive operations ([SpecFloat], through
    the axioms of [FloatAxioms]): the result of an addition, a subtraction,
    a multiplication or a division of finite floats is never on the other
    side of a finite float than the exact result.  This is all the laws of
    the filter and of the scorer on doubles need; it does not say that the
    result is the nearest float. *)

Section Binary64Laws.
Import Binary64.
Local Open Scope Z_scope.

Lemma bpow_gt_0 e : (0 < bpow e)%R.
Proof. apply powerRZ_lt; lra. Qed.

Lemma bpow_add a b : bpow (a + b) = (bpow a * bpow b)%R.
Proof. apply powerRZ_add; lra. Qed.

Lemma bpow_0 : bpow 0 = 1%R.
Proof. reflexivity. Qed.

Lemma bpow_1 : bpow 1 = 2%R.
Proof. unfold bpow; simpl; lra. Qed.

Lemma bpow_succ e : bpow (e + 1) = (2 * bpow e)%R.
Proof. rewrite bpow_add, bpow_1; lra. Qed.

Lemma bpow_IZR e : 0 <= e -> bpow e = IZR (2 ^ e).
Proof.
  intros He; destruct e as [|p|p]; [reflexivity| |lia].
  unfold bpow; symmetry; apply (Zpower_pos_powerRZ 2 p).
Qed.

Lemma bpow_ge_1 e : 0 <= e -> (1 <= bpow e)%R.
Proof.
  intros He; rewrite bpow_IZR by assumption.
  apply IZR_le; pose proof (Z.pow_pos_nonneg 2 e); lia.
Qed.

Lemma bpow_le a b : a <= b -> (bpow a <= bpow b)%R.
Proof.
  intros H; replace b with (a + (b - a)) by lia; rewrite bpow_add.
  pose proof (bpow_gt_0 a) as Ha; pose proof (bpow_ge_1 (b - a)) as Hb.
  assert (bpow a * 1 <= bpow a * bpow (b - a))%R by (apply Rmult_le_compat_l; [lra|apply Hb; lia]).
  lra.
Qed.

Lemma bpow_lt a b : a < b -> (bpow a < bpow b)%R.
Proof.
  intros H; apply Rlt_le_trans with (bpow (a + 1)).
  - rewrite bpow_succ; pose proof (bpow_gt_0 a); lra.
  - apply bpow_le; lia.
Qed.

Lemma F_shift m e k : 0 <= k -> F (m * 2 ^ k) e = F m (e + k).
Proof.
  intros Hk; unfold F; rewrite mult_IZR, bpow_add, (bpow_IZR k) by assumption; ring.
Qed.

Lemma F_le m1 m2 e : m1 <= m2 -> (F m1 e <= F m2 e)%R.
Proof.
  intros H; unfold F; apply IZR_le in H; pose proof (bpow_gt_0 e); nra.
Qed.

Lemma F_lt m1 m2 e : m1 < m2 -> (F m1 e < F m2 e)%R.
Proof.
  intros H; unfold F; apply IZR_lt in H; pose proof (bpow_gt_0 e); nra.
Qed.

Lemma F_lt_inv m1 m2 e : (F m1 e < F m2 e)%R -> m1 < m2.
Proof.
  intros H; destruct (Z_lt_le_dec m1 m2) as [|Hle]; [assumption|].
  apply (F_le _ _ e) in Hle; lra.
Qed.

Lemma F_le_inv m1 m2 e : (F m1 e <= F m2 e)%R -> m1 <= m2.
Proof.
  intros H; destruct (Z_le_gt_dec m1 m2) as [|Hgt]; [assumption|].
  apply Z.gt_lt, (F_lt _ _ e) in Hgt; lra.
Qed.

Lemma F_0 e : F 0 e = 0%R.
Proof. unfold F; lra. Qed.

Lemma F_bpow k e : 0 <= k -> F (2 ^ k) e = bpow (k + e).
Proof. intros Hk; unfold F; rewrite <- bpow_IZR, <- bpow_add by assumption; reflexivity. Qed.

(** ** Number of binary digits *)

Lemma digits2_bounds p :
  2 ^ (Zpos (digits2_pos p) - 1) <= Zpos p < 2 ^ Zpos (digits2_pos p).
Proof.
  induction p as [p IH|p IH|]; cbn [digits2_pos].
  - rewrite Pos2Z.inj_succ.
    replace (Z.succ (Zpos (digits2_pos p)) - 1) with (Z.succ (Zpos (digits2_pos p) - 1)) by lia.
    rewrite !Z.pow_succ_r by lia. lia.
  - rewrite Pos2Z.inj_succ.
    replace (Z.succ (Zpos (digits2_pos p)) - 1) with (Z.succ (Zpos (digits2_pos p) - 1)) by lia.
    rewrite !Z.pow_succ_r by lia. lia.
  - simpl; lia.
Qed.

Lemma Zdigits2_bounds m :
  0 < m -> 0 < Zdigits2 m /\ 2 ^ (Zdigits2 m - 1) <= m < 2 ^ Zdigits2 m.
Proof.
  destruct m as [|p|p]; try lia; intros _; cbn [Zdigits2].
  split; [lia|apply digits2_bounds].
Qed.

Lemma Zdigits2_nonneg m : 0 <= Zdigits2 m.
Proof. destruct m; simpl; lia. Qed.

Lemma Zdigits2_unique m k : 0 < k -> 2 ^ (k - 1) <= m < 2 ^ k -> Zdigits2 m = k.
Proof.
  intros Hk [H1 H2].
  assert (Hm : 0 < m) by (pose proof (Z.pow_pos_nonneg 2 (k - 1)); lia).
  destruct (Zdigits2_bounds m Hm) as [Hd [H3 H4]].
  destruct (Z.lt_trichotomy (Zdigits2 m) k) as [Hlt|[Heq|Hgt]]; [|assumption|].
  - assert (2 ^ Zdigits2 m <= 2 ^ (k - 1)) by (apply Z.pow_le_mono_r; lia). lia.
  - assert (2 ^ k <= 2 ^ (Zdigits2 m - 1)) by (apply Z.pow_le_mono_r; lia). lia.
Qed.

Lemma F_digits_bounds m e :
  0 < m -> (bpow (Zdigits2 m - 1 + e) <= F m e < bpow (Zdigits2 m + e))%R.
Proof.
  intros Hm; destruct (Zdigits2_bounds m Hm) as [Hd [H1 H2]].
  rewrite <- !F_bpow by lia. split; [apply F_le|apply F_lt]; assumption.
Qed.

(** ** The exponent function of binary64 *)

Lemma fexp_spec e : SpecFloat.fexp prec emax e = fexp e.
Proof. reflexivity. Qed.

Lemma fexp_le a b : a <= b -> fexp a <= fexp b.
Proof. unfold fexp; lia. Qed.

(** ** The value of a finite float and the order of canonical floats *)

Lemma bounded_spec m e :
  bounded prec emax m e = true -> canonical (Zpos m) e /\ e <= 971.
Proof.
  unfold bounded, canonical_mantissa, canonical; rewrite fexp_spec.
  intros H; apply andb_prop in H; destruct H as [H1 H2].
  apply Z.eqb_eq in H1; apply Z.leb_le in H2; cbn [Zdigits2].
  change (emax - prec) with 971 in H2. split; assumption.
Qed.

Lemma F_opp m e : F (- m) e = (- F m e)%R.
Proof. unfold F; rewrite opp_IZR; ring. Qed.

Lemma F_pos m e : 0 < m -> (0 < F m e)%R.
Proof. intros H; rewrite <- (F_0 e); apply F_lt; assumption. Qed.

Lemma canonical_exp_lt m1 e1 m2 e2 :
  0 < m1 -> 0 < m2 -> canonical m1 e1 -> canonical m2 e2 ->
  e1 < e2 -> (F m1 e1 < F m2 e2)%R.
Proof.
  unfold canonical, fexp; intros H1 H2 C1 C2 He.
  destruct (F_digits_bounds m1 e1 H1) as [_ Hu].
  destruct (F_digits_bounds m2 e2 H2) as [Hl _].
  apply Rlt_le_trans with (1 := Hu), Rle_trans with (2 := Hl).
  apply bpow_le; lia.
Qed.

Lemma canonical_compare m1 e1 m2 e2 :
  canonical (Zpos m1) e1 -> canonical (Zpos m2) e2 ->
  cmp_prop match Z.compare e1 e2 with
           | Lt => Lt | Gt => Gt | Eq => Pos.compare_cont Eq m1 m2 end
           (F (Zpos m1) e1) (F (Zpos m2) e2).
Proof.
  intros C1 C2; destruct (Z.compare_spec e1 e2) as [He|He|He].
  - subst e2; change (Pos.compare_cont Eq m1 m2) with (Pos.compare m1 m2).
    destruct (Pos.compare_spec m1 m2) as [Hm|Hm|Hm]; cbn [cmp_prop].
    + subst; reflexivity.
    + apply F_lt; lia.
    + apply F_lt; lia.
  - apply canonical_exp_lt; try assumption; lia.
  - apply canonical_exp_lt; try assumption; lia.
Qed.

Lemma cmp_prop_opp c u v : cmp_prop c u v -> cmp_prop (CompOpp c) (- u) (- v).
Proof. destruct c; cbn; intros; lra. Qed.

(** [SFcompare] on valid finite floats is the order of their values. *)
Lemma SFcompare_SF2R x y :
  valid_binary x = true -> valid_binary y = true ->
  SFfinite x = true -> SFfinite y = true ->
  exists c, SFcompare x y = Some c /\ cmp_prop c (SF2R x) (SF2R y).
Proof.
  intros Vx Vy Fx Fy.
  destruct x as [sx| | |sx mx ex]; try discriminate;
  destruct y as [sy| | |sy my ey]; try discriminate; cbn [SFcompare SF2R].
  - exists Eq; split; reflexivity.
  - apply bounded_spec in Vy; destruct Vy as [Cy _].
    destruct sy; eexists; (split; [reflexivity|]); cbn [cmp_prop cond_Zopp].
    + change (Z.neg my) with (- Zpos my); rewrite F_opp.
      pose proof (F_pos _ ey (Pos2Z.is_pos my)); lra.
    + apply F_pos; lia.
  - destruct sx; eexists; (split; [reflexivity|]); cbn [cmp_prop cond_Zopp].
    + change (Z.neg mx) with (- Zpos mx); rewrite F_opp.
      pose proof (F_pos _ ex (Pos2Z.is_pos mx)); lra.
    + apply F_pos; lia.
  - apply bounded_spec in Vx, Vy; destruct Vx as [Cx _], Vy as [Cy _].
    pose proof (canonical_compare mx ex my ey Cx Cy) as H.
    pose proof (F_pos _ ex (Pos2Z.is_pos mx)) as Px; pose proof (F_pos _ ey (Pos2Z.is_pos my)) as Py.
    destruct sx, sy; eexists; (split; [reflexivity|]); cbn [cond_Zopp].
    + change (Z.neg mx) with (- Zpos mx); change (Z.neg my) with (- Zpos my).
      rewrite !F_opp.
      replace (match ex ?= ey with Lt => Gt | Eq => CompOpp (Pos.compare_cont Eq mx my) | Gt => Lt end)
        with (CompOpp (match ex ?= ey with Lt => Lt | Eq => Pos.compare_cont Eq mx my | Gt => Gt end))
        by (destruct (ex ?= ey); reflexivity).
      apply cmp_prop_opp; assumption.
    + change (Z.neg mx) with (- Zpos mx); rewrite F_opp; cbn; lra.
    + change (Z.neg my) with (- Zpos my); rewrite F_opp; cbn; lra.
    + assumption.
Qed.

Lemma SFleb_SF2R x y :
  valid_binary x = true -> valid_binary y = true ->
  SFfinite x = true -> SFfinite y = true ->
  (SFleb x y = true <-> (SF2R x <= SF2R y)%R).
Proof.
  intros Vx Vy Fx Fy; destruct (SFcompare_SF2R x y Vx Vy Fx Fy) as [c [Hc Hp]].
  unfold SFleb; rewrite Hc; destruct c; cbn in Hp; split; intros H; try reflexivity; try lra; discriminate.
Qed.

Lemma SFltb_SF2R x y :
  valid_binary x = true -> valid_binary y = true ->
  SFfinite x = true -> SFfinite y = true ->
  (SFltb x y = true <-> (SF2R x < SF2R y)%R).
Proof.
  intros Vx Vy Fx Fy; destruct (SFcompare_SF2R x y Vx Vy Fx Fy) as [c [Hc Hp]].
  unfold SFltb; rewrite Hc; destruct c; cbn in Hp; split; intros H; try reflexivity; try lra; discriminate.
Qed.

(** ** Shifting a mantissa to the right *)

Lemma loc_of_record_of_loc m l :
  loc_of_shr_record (shr_record_of_loc m l) = l /\ shr_m (shr_record_of_loc m l) = m.
Proof. destruct l as [|[| |]]; split; reflexivity. Qed.

Lemma F_xO p e : F (Zpos p~0) e = F (Zpos p) (e + 1).
Proof. unfold F; rewrite bpow_succ, Pos2Z.inj_xO, mult_IZR; ring. Qed.

Lemma F_xI p e : F (Zpos p~1) e = (F (Zpos p) (e + 1) + bpow e)%R.
Proof. unfold F; rewrite bpow_succ, Pos2Z.inj_xI, plus_IZR, mult_IZR; ring. Qed.

Lemma F_succ m e : F (m + 1) e = (F m e + bpow e)%R.
Proof. unfold F; rewrite plus_IZR; ring. Qed.

Lemma shr_1_located mrs e v :
  located (shr_m mrs) e (loc_of_shr_record mrs) v ->
  located (shr_m (shr_1 mrs)) (e + 1) (loc_of_shr_record (shr_1 mrs)) v.
Proof.
  destruct mrs as [m r s]; intros [Hm H]; cbn [shr_m] in Hm.
  pose proof (bpow_gt_0 e) as Hb. unfold located.
  destruct m as [|p|p]; [|destruct p as [p|p|]|lia];
    destruct r, s; cbn [shr_1 shr_m loc_of_shr_record orb] in H |- *; split; try lia;
    rewrite ?F_succ, ?F_xO, ?F_xI, ?F_0, ?bpow_succ in *;
    change (F 1 e) with (F (0 + 1) e) in *;
    change (F 1 (e + 1)) with (F (0 + 1) (e + 1)) in *;
    rewrite ?F_succ, ?F_0, ?bpow_succ in *; try lra.
Qed.

Lemma iter_pos_located p : forall mrs e v,
  located (shr_m mrs) e (loc_of_shr_record mrs) v ->
  located (shr_m (iter_pos shr_1 p mrs)) (e + Zpos p)
          (loc_of_shr_record (iter_pos shr_1 p mrs)) v.
Proof.
  induction p as [p IH|p IH|]; intros mrs e v H; cbn [iter_pos].
  - replace (e + Zpos p~1) with (e + 1 + Zpos p + Zpos p) by lia.
    apply IH, IH, shr_1_located, H.
  - replace (e + Zpos p~0) with (e + Zpos p + Zpos p) by lia.
    apply IH, IH, H.
  - apply shr_1_located, H.
Qed.

Lemma shr_fexp_located m e l v :
  located m e l v -> e <= fexp (Zdigits2 m + e) ->
  exists mrs, shr_fexp prec emax m e l = (mrs, fexp (Zdigits2 m + e)) /\
    located (shr_m mrs) (fexp (Zdigits2 m + e)) (loc_of_shr_record mrs) v.
Proof.
  intros H He; unfold shr_fexp, shr; rewrite fexp_spec.
  destruct (loc_of_record_of_loc m l) as [Hl Hm].
  remember (fexp (Zdigits2 m + e) - e) as n eqn:Hn.
  destruct n as [|p|p]; [| |lia].
  - exists (shr_record_of_loc m l); replace (fexp (Zdigits2 m + e)) with e by lia.
    rewrite Hl, Hm; split; [reflexivity|assumption].
  - exists (iter_pos shr_1 p (shr_record_of_loc m l)).
    replace (fexp (Zdigits2 m + e)) with (e + Zpos p) by lia.
    split; [reflexivity|]. apply iter_pos_located; rewrite Hl, Hm; assumption.
Qed.

Lemma round_nearest_even_cases m l :
  (l = loc_Exact -> round_nearest_even m l = m) /\
  (round_nearest_even m l = m \/ round_nearest_even m l = m + 1).
Proof.
  destruct l as [|[| |]]; cbn; (split; [try discriminate; reflexivity|]); auto.
  destruct (Z.even m); auto.
Qed.

(** ** Rounding to the format *)

Lemma Zdigits2_le m n : 0 <= m <= n -> Zdigits2 m <= Zdigits2 n.
Proof.
  intros [H0 H]; destruct (Z.eq_dec m 0) as [->|Hm]; [apply Zdigits2_nonneg|].
  destruct (Zdigits2_bounds m ltac:(lia)) as [_ [Hl _]].
  destruct (Zdigits2_bounds n ltac:(lia)) as [_ [_ Hu]].
  destruct (Z_le_gt_dec (Zdigits2 m) (Zdigits2 n)) as [|Hgt]; [assumption|].
  assert (2 ^ Zdigits2 n <= 2 ^ (Zdigits2 m - 1)) by (apply Z.pow_le_mono_r; lia).
  lia.
Qed.

Lemma canonical_ge m e : 0 < m -> canonical m e -> -1074 <= e /\ Zdigits2 m <= 53.
Proof. unfold canonical, fexp; intros Hm H; lia. Qed.

Lemma first_shift mx ex l v m' l' :
  located mx ex l v -> ex <= fexp (Zdigits2 mx + ex) ->
  located m' (fexp (Zdigits2 mx + ex)) l' v ->
  on_grid m' (fexp (Zdigits2 mx + ex)).
Proof.
  set (ec := fexp (Zdigits2 mx + ex)); intros [Hmx Hv] He [Hm' Hv'].
  assert (Hlo : (F mx ex <= v < F (mx + 1) ex)%R).
  { destruct l; [subst v; split; [lra|apply F_lt; lia]|lra]. }
  assert (Hlo' : (F m' ec <= v < F (m' + 1) ec)%R).
  { destruct l'; [subst v; split; [lra|apply F_lt; lia]|lra]. }
  clear Hv Hv'.
  assert (Hup : (v < bpow (Zdigits2 mx + ex))%R).
  { destruct (Z.eq_dec mx 0) as [->|Hne].
    - cbn [Zdigits2 Z.add] in *. unfold F in Hlo. rewrite Rmult_1_l in Hlo. lra.
    - destruct (Zdigits2_bounds mx ltac:(lia)) as [Hd [_ Hu]].
      apply Rlt_le_trans with (1 := proj2 Hlo).
      rewrite <- F_bpow by lia. apply F_le; lia. }
  destruct (Z_lt_le_dec (Zdigits2 mx + ex - 1) ec) as [Hsmall|Hbig].
  - (* everything is shifted out *)
    left. assert (ec = -1074) by (unfold ec, fexp in *; lia). split; [|assumption].
    assert (F m' ec < F 1 ec)%R.
    { apply Rle_lt_trans with (1 := proj1 Hlo'), Rlt_le_trans with (1 := Hup).
      unfold F; rewrite Rmult_1_l; apply bpow_le; lia. }
    apply F_lt_inv in H0; lia.
  - right.
    assert (Hmx0 : 0 < mx).
    { destruct (Z.eq_dec mx 0) as [->|]; [|lia]. cbn [Zdigits2 Z.add] in *.
      unfold ec, fexp in *; lia. }
    destruct (F_digits_bounds mx ex Hmx0) as [Hl _].
    set (k := Zdigits2 mx + ex - ec) in *.
    assert (Hk : 1 <= k) by (unfold k; lia).
    assert (H1 : m' < 2 ^ k).
    { apply (F_lt_inv _ _ ec). rewrite F_bpow by lia.
      replace (k + ec) with (Zdigits2 mx + ex) by (unfold k; lia). lra. }
    assert (H2 : 2 ^ (k - 1) < m' + 1).
    { apply (F_lt_inv _ _ ec). rewrite F_bpow by lia.
      replace (k - 1 + ec) with (Zdigits2 mx - 1 + ex) by (unfold k; lia). lra. }
    assert (Hd : Zdigits2 m' = k) by (apply Zdigits2_unique; lia).
    split; [pose proof (Z.pow_pos_nonneg 2 (k - 1)); lia|].
    unfold canonical; rewrite Hd. unfold k, ec.
    replace (Zdigits2 mx + ex - fexp (Zdigits2 mx + ex) + fexp (Zdigits2 mx + ex))
      with (Zdigits2 mx + ex) by lia.
    reflexivity.
Qed.

(** No canonical float lies strictly between two neighbours of the grid. *)
Lemma grid_gap mb eb m e :
  canonical (Zpos mb) eb -> on_grid m e ->
  ((F (Zpos mb) eb < F (m + 1) e)%R -> (F (Zpos mb) eb <= F m e)%R) /\
  ((F m e < F (Zpos mb) eb)%R -> (F (m + 1) e <= F (Zpos mb) eb)%R).
Proof.
  intros Cb G.
  destruct (canonical_ge _ _ (Pos2Z.is_pos mb) Cb) as [Heb Hdb].
  destruct (Z_le_gt_dec e eb) as [Hle|Hgt].
  - (* the float is a multiple of the grid step *)
    replace eb with (e + (eb - e)) by lia.
    rewrite <- (F_shift _ e (eb - e)) by lia.
    split; intros H; apply F_lt_inv in H; apply F_le; lia.
  - (* the float lies below the binade of the grid *)
    destruct G as [[_ ->]|[Hm Cm]]; [lia|].
    assert (Hd : Zdigits2 m = 53) by (unfold canonical, fexp in Cm; lia).
    destruct (F_digits_bounds m e Hm) as [Hl _].
    destruct (F_digits_bounds _ eb (Pos2Z.is_pos mb)) as [_ Hu].
    assert (bpow (Zdigits2 (Zpos mb) + eb) <= bpow (Zdigits2 m - 1 + e))%R
      by (apply bpow_le; unfold canonical, fexp in Cb; lia).
    split; intros H'; lra.
Qed.

Lemma second_shift m' ec m1 :
  on_grid m' ec -> m1 = m' \/ m1 = m' + 1 ->
  exists mrs e, shr_fexp prec emax m1 ec loc_Exact = (mrs, e) /\
    0 <= shr_m mrs /\ F (shr_m mrs) e = F m1 ec /\
    (0 < shr_m mrs -> canonical (shr_m mrs) e).
Proof.
  intros G Hm1. unfold shr_fexp, shr; rewrite fexp_spec.
  assert (H0 : 0 <= m1) by (destruct G as [[-> _]|[? _]]; lia).
  remember (fexp (Zdigits2 m1 + ec) - ec) as n eqn:Hn.
  assert (Hlow : ec <= fexp (Zdigits2 m1 + ec)).
  { destruct G as [[_ ->]|[Hm Cm]]; [unfold fexp; lia|].
    unfold canonical in Cm; rewrite <- Cm at 1.
    apply fexp_le. pose proof (Zdigits2_le m' m1); lia. }
  destruct n as [|p|p]; [| |lia].
  - exists (Build_shr_record m1 false false), ec; cbn [shr_m].
    repeat split; try assumption; try reflexivity.
    intros _; unfold canonical; lia.
  - (* a carry into the next binade *)
    destruct G as [[-> ->]|[Hm Cm]].
    { destruct Hm1 as [->| ->]; cbn in Hn; discriminate. }
    destruct (Zdigits2_bounds m' Hm) as [Hd' [Hl' Hu']].
    assert (Hd1 : Zdigits2 m1 <= Zdigits2 m' + 1).
    { destruct (Zdigits2_bounds m1 ltac:(lia)) as [_ [Hl1 _]].
      destruct (Z_le_gt_dec (Zdigits2 m1) (Zdigits2 m' + 1)) as [|Hgt]; [assumption|].
      assert (2 ^ (Zdigits2 m' + 1) <= 2 ^ (Zdigits2 m1 - 1)) by (apply Z.pow_le_mono_r; lia).
      rewrite Z.pow_add_r in H by lia. lia. }
    unfold canonical, fexp in Cm. unfold fexp in Hn, Hlow.
    assert (Hd53 : Zdigits2 m' = 53) by lia.
    assert (Hd54 : Zdigits2 m1 = 54) by lia.
    assert (Hm1' : m1 = 2 ^ 53).
    { destruct (Zdigits2_bounds m1 ltac:(lia)) as [_ [Hl1 _]].
      rewrite Hd54 in Hl1; rewrite Hd53 in Hu'. change (54 - 1) with 53 in Hl1. lia. }
    assert (Hp : p = 1%positive) by lia. subst p m1.
    exists (Build_shr_record (2 ^ 52) false false), (ec + 1).
    split; [reflexivity|]. cbn [shr_m]. split; [lia|]. split.
    + change (2 ^ 53) with (Zpos (4503599627370496~0)); rewrite F_xO; reflexivity.
    + intros _; unfold canonical, fexp; change (Zdigits2 (2 ^ 52)) with 53; lia.
Qed.

(** The result of [binary_round_aux] on a located number: it is built from a
    grid point next to the number, and equal to it when it is on the grid. *)
Lemma binary_round_aux_spec s mx ex lx v :
  located mx ex lx v -> ex <= fexp (Zdigits2 mx + ex) ->
  exists m e,
    binary_round_aux prec emax s mx ex lx = build s m e /\
    0 <= m /\ (0 < m -> canonical m e) /\
    forall mb eb, canonical (Zpos mb) eb ->
      ((F (Zpos mb) eb <= v)%R -> (F (Zpos mb) eb <= F m e)%R) /\
      ((v <= F (Zpos mb) eb)%R -> (F m e <= F (Zpos mb) eb)%R).
Proof.
  intros Hloc He.
  destruct (shr_fexp_located mx ex lx v Hloc He) as [mrs' [E1 L1]].
  set (ec := fexp (Zdigits2 mx + ex)) in *.
  pose proof (first_shift mx ex lx v _ _ Hloc He L1) as G. fold ec in G.
  destruct (round_nearest_even_cases (shr_m mrs') (loc_of_shr_record mrs')) as [Hex Hm1].
  destruct (second_shift _ ec _ G Hm1) as [mrs'' [e'' [E2 [H0 [HF Hc]]]]].
  exists (shr_m mrs''), e''.
  split; [unfold binary_round_aux; rewrite E1, E2; reflexivity|].
  split; [assumption|]. split; [assumption|].
  intros mb eb Cb; rewrite HF.
  destruct (grid_gap mb eb _ _ Cb G) as [G1 G2].
  destruct L1 as [Hm' Hv].
  destruct (loc_of_shr_record mrs') as [|c] eqn:El.
  - rewrite (Hex eq_refl), <- Hv. split; intros H; exact H.
  - assert (Hle : (F (shr_m mrs') ec <= F (round_nearest_even (shr_m mrs') (loc_Inexact c)) ec
                   <= F (shr_m mrs' + 1) ec)%R).
    { destruct Hm1 as [-> | ->]; split; try lra; apply F_le; lia. }
    split; intros H.
    + apply Rle_trans with (2 := proj1 Hle), G1; lra.
    + apply Rle_trans with (1 := proj2 Hle), G2; lra.
Qed.

(** ** Results that stay on the right side of every float *)

Lemma exact_sandwiched r :
  valid_binary r = true -> SFfinite r = true -> sandwiched (SF2R r) r.
Proof.
  intros V Fi; split; [destruct r; discriminate|].
  intros b Vb Fb; split; intros H; apply SFleb_SF2R; assumption.
Qed.

Lemma zero_sandwiched s : sandwiched 0 (S754_zero s).
Proof. apply (exact_sandwiched (S754_zero s)); reflexivity. Qed.

Lemma build_sandwiched s m e v :
  (0 < v)%R -> 0 <= m -> (0 < m -> canonical m e) ->
  (forall mb eb, canonical (Zpos mb) eb ->
      ((F (Zpos mb) eb <= v)%R -> (F (Zpos mb) eb <= F m e)%R) /\
      ((v <= F (Zpos mb) eb)%R -> (F m e <= F (Zpos mb) eb)%R)) ->
  sandwiched (sgn s v) (build s m e).
Proof.
  intros Hv Hm Hc Hb.
  assert (Hbig : forall p, m = Zpos p -> 971 < e ->
            forall mb eb, bounded prec emax mb eb = true -> (v <= F (Zpos mb) eb)%R -> False).
  { intros p -> He mb eb Bb Hle. apply bounded_spec in Bb; destruct Bb as [Cb Heb].
    destruct (Hb mb eb Cb) as [_ Hu]. specialize (Hu Hle).
    pose proof (canonical_exp_lt (Zpos mb) eb (Zpos p) e (Pos2Z.is_pos _) (Pos2Z.is_pos _)
                  Cb (Hc (Pos2Z.is_pos _)) ltac:(lia)). lra. }
  split.
  { destruct m as [|p|p]; cbn [build]; try discriminate; [|lia].
    destruct (e <=? emax - prec); discriminate. }
  intros b Vb Fb.
  destruct m as [|p|p]; [| |lia]; cbn [build].
  - (* the result is a zero *)
    destruct b as [sb| | |sb mb eb]; try discriminate; [split; reflexivity|].
    pose proof (F_pos _ eb (Pos2Z.is_pos mb)) as Pb.
    cbn [valid_binary] in Vb; apply bounded_spec in Vb; destruct Vb as [Cb _].
    destruct (Hb mb eb Cb) as [Hl _]; rewrite F_0 in Hl.
    cbn [SF2R]; destruct sb, s; cbn [cond_Zopp sgn SFleb SFcompare];
      change (Z.neg mb) with (- Zpos mb); rewrite ?F_opp;
      split; intros H; try reflexivity; exfalso; lra.
  - destruct (Z.leb_spec e (emax - prec)) as [He|He]; change (emax - prec) with 971 in He.
    + (* the result is finite *)
      assert (Vr : valid_binary (S754_finite s p e) = true).
      { cbn [valid_binary]; unfold bounded, canonical_mantissa.
        specialize (Hc (Pos2Z.is_pos p)); unfold canonical in Hc; cbn [Zdigits2] in Hc.
        rewrite fexp_spec, Hc, Z.eqb_refl; cbn [andb]; apply Z.leb_le; assumption. }
      pose proof (F_pos _ e (Pos2Z.is_pos p)) as Pr.
      assert (Hgoal : ((SF2R b <= sgn s v)%R -> (SF2R b <= SF2R (S754_finite s p e))%R) /\
                      ((sgn s v <= SF2R b)%R -> (SF2R (S754_finite s p e) <= SF2R b)%R)).
      { destruct b as [sb| | |sb mb eb]; try discriminate.
        - cbn [SF2R]; destruct s; cbn [cond_Zopp sgn];
            change (Z.neg p) with (- Zpos p); rewrite ?F_opp; split; intros H; lra.
        - pose proof (F_pos _ eb (Pos2Z.is_pos mb)) as Pb.
          cbn [valid_binary] in Vb; apply bounded_spec in Vb; destruct Vb as [Cb _].
          destruct (Hb mb eb Cb) as [Hl Hu].
          cbn [SF2R]; destruct sb, s; cbn [cond_Zopp sgn];
            change (Z.neg mb) with (- Zpos mb); change (Z.neg p) with (- Zpos p);
            rewrite ?F_opp; split; intros H; lra. }
      destruct Hgoal as [G1 G2].
      split; intros H; apply SFleb_SF2R; auto.
    + (* the result is an infinity *)
      destruct b as [sb| | |sb mb eb]; try discriminate.
      * destruct s; cbn [SFleb SFcompare sgn SF2R]; split; intros H; try reflexivity; exfalso; lra.
      * pose proof (F_pos _ eb (Pos2Z.is_pos mb)) as Pb.
        cbn [valid_binary] in Vb. specialize (Hbig p eq_refl He mb eb Vb).
        cbn [SF2R]; destruct sb, s; cbn [cond_Zopp sgn SFleb SFcompare];
          change (Z.neg mb) with (- Zpos mb); rewrite ?F_opp;
          split; intros H; try reflexivity; exfalso; try lra; apply Hbig; lra.
Qed.

Lemma binary_round_aux_sandwiched s mx ex lx v :
  (0 < v)%R -> located mx ex lx v -> ex <= fexp (Zdigits2 mx + ex) ->
  sandwiched (sgn s v) (binary_round_aux prec emax s mx ex lx).
Proof.
  intros Hv Hloc He.
  destruct (binary_round_aux_spec s mx ex lx v Hloc He) as [m [e [-> [H0 [Hc Hb]]]]].
  apply build_sandwiched; assumption.
Qed.

(** ** Alignment *)

Lemma Pos_iter_xO m d : Zpos (Pos.iter xO m d) = Zpos m * 2 ^ Zpos d.
Proof.
  induction d as [|d IH] using Pos.peano_ind.
  - cbn; lia.
  - rewrite Pos.iter_succ, Pos2Z.inj_xO, IH, Pos2Z.inj_succ, Z.pow_succ_r by lia. ring.
Qed.

Lemma shl_align_spec mx ex e' :
  e' <= ex ->
  F (Zpos (fst (shl_align mx ex e'))) e' = F (Zpos mx) ex /\
  Zpos (fst (shl_align mx ex e')) = Zpos mx * 2 ^ (ex - e').
Proof.
  intros He; unfold shl_align.
  destruct (e' - ex) as [|d|d] eqn:Hd; cbn [fst]; try lia.
  - assert (e' = ex) by lia; subst; rewrite Z.sub_diag, Z.mul_1_r; split; reflexivity.
  - rewrite Pos_iter_xO. replace (ex - e') with (Zpos d) by lia. split; [|reflexivity].
    rewrite F_shift by lia. f_equal; lia.
Qed.

Lemma Zdigits2_shift m k : 0 < m -> 0 <= k -> Zdigits2 (m * 2 ^ k) = Zdigits2 m + k.
Proof.
  intros Hm Hk; destruct (Zdigits2_bounds m Hm) as [Hd [Hl Hu]].
  apply Zdigits2_unique; [lia|].
  replace (Zdigits2 m + k - 1) with (Zdigits2 m - 1 + k) by lia.
  rewrite !Z.pow_add_r by lia.
  pose proof (Z.pow_pos_nonneg 2 k); nia.
Qed.

Lemma binary_round_sandwiched s m e :
  sandwiched (sgn s (F (Zpos m) e)) (binary_round prec emax s m e).
Proof.
  unfold binary_round, shl_align; rewrite fexp_spec.
  set (t := fexp (Zpos (digits2_pos m) + e)).
  change (Zpos (digits2_pos m)) with (Zdigits2 (Zpos m)) in t.
  pose proof (F_pos _ e (Pos2Z.is_pos m)) as Hv.
  destruct (t - e) as [|d|d] eqn:Hd.
  - apply binary_round_aux_sandwiched; [assumption|split; [lia|reflexivity]|fold t; lia].
  - apply binary_round_aux_sandwiched; [assumption|split; [lia|reflexivity]|fold t; lia].
  - assert (Hv' : F (Zpos (Pos.iter xO m d)) t = F (Zpos m) e).
    { rewrite Pos_iter_xO, F_shift by lia; f_equal; lia. }
    rewrite <- Hv'. apply binary_round_aux_sandwiched.
    + rewrite Hv'; assumption.
    + split; [lia|reflexivity].
    + rewrite Pos_iter_xO, Zdigits2_shift by lia.
      replace (Zdigits2 (Zpos m) + Zpos d + t) with (Zdigits2 (Zpos m) + e) by lia.
      fold t; lia.
Qed.

Lemma binary_normalize_sandwiched m e :
  sandwiched (F m e) (binary_normalize prec emax m e false).
Proof.
  destruct m as [|p|p]; cbn [binary_normalize].
  - rewrite F_0; apply zero_sandwiched.
  - apply (binary_round_sandwiched false p e).
  - change (Z.neg p) with (- Zpos p); rewrite F_opp.
    apply (binary_round_sandwiched true p e).
Qed.

(** ** The four operations *)

Lemma F_cond_Zopp s m e : F (cond_Zopp s m) e = sgn s (F m e).
Proof. destruct s; cbn [cond_Zopp sgn]; [apply F_opp|reflexivity]. Qed.

Lemma F_plus a b e : F (a + b) e = (F a e + F b e)%R.
Proof. unfold F; rewrite plus_IZR; ring. Qed.

Lemma F_minus a b e : F (a - b) e = (F a e - F b e)%R.
Proof. unfold F; rewrite minus_IZR; ring. Qed.

Lemma F_mult a b e1 e2 : F (a * b) (e1 + e2) = (F a e1 * F b e2)%R.
Proof. unfold F; rewrite mult_IZR, bpow_add; ring. Qed.

Lemma SF2R_finite s m e : SF2R (S754_finite s m e) = sgn s (F (Zpos m) e).
Proof. cbn [SF2R]; apply F_cond_Zopp. Qed.

Lemma SFadd_sandwiched x y :
  valid_binary x = true -> valid_binary y = true ->
  SFfinite x = true -> SFfinite y = true ->
  sandwiched (SF2R x + SF2R y) (SFadd prec emax x y).
Proof.
  intros Vx Vy Fx Fy.
  destruct x as [sx| | |sx mx ex]; try discriminate;
  destruct y as [sy| | |sy my ey]; try discriminate; cbn [SFadd].
  - cbn [SF2R]; rewrite Rplus_0_l; destruct sx, sy; apply zero_sandwiched.
  - replace (SF2R (S754_zero sx) + SF2R (S754_finite sy my ey))%R
      with (SF2R (S754_finite sy my ey)) by (cbn [SF2R]; ring).
    apply exact_sandwiched; assumption.
  - replace (SF2R (S754_finite sx mx ex) + SF2R (S754_zero sy))%R
      with (SF2R (S754_finite sx mx ex)) by (cbn [SF2R]; ring).
    apply exact_sandwiched; assumption.
  - set (ez := Z.min ex ey).
    destruct (shl_align_spec mx ex ez ltac:(lia)) as [Hx _].
    destruct (shl_align_spec my ey ez ltac:(lia)) as [Hy _].
    rewrite !SF2R_finite, <- Hx, <- Hy, <- !F_cond_Zopp, <- F_plus.
    apply binary_normalize_sandwiched.
Qed.

Lemma SFsub_sandwiched x y :
  valid_binary x = true -> valid_binary y = true ->
  SFfinite x = true -> SFfinite y = true ->
  sandwiched (SF2R x - SF2R y) (SFsub prec emax x y).
Proof.
  intros Vx Vy Fx Fy.
  destruct x as [sx| | |sx mx ex]; try discriminate;
  destruct y as [sy| | |sy my ey]; try discriminate; cbn [SFsub].
  - cbn [SF2R]; rewrite Rminus_0_r; destruct sx, sy; apply zero_sandwiched.
  - replace (SF2R (S754_zero sx) - SF2R (S754_finite sy my ey))%R
      with (SF2R (S754_finite (negb sy) my ey))
      by (rewrite !SF2R_finite; cbn [SF2R]; destruct sy; cbn [negb sgn]; ring).
    apply exact_sandwiched; [exact Vy|reflexivity].
  - replace (SF2R (S754_finite sx mx ex) - SF2R (S754_zero sy))%R
      with (SF2R (S754_finite sx mx ex)) by (cbn [SF2R]; ring).
    apply exact_sandwiched; assumption.
  - set (ez := Z.min ex ey).
    destruct (shl_align_spec mx ex ez ltac:(lia)) as [Hx _].
    destruct (shl_align_spec my ey ez ltac:(lia)) as [Hy _].
    rewrite !SF2R_finite, <- Hx, <- Hy, <- !F_cond_Zopp, <- F_minus.
    apply binary_normalize_sandwiched.
Qed.

Lemma Zdigits2_mul_ge a b :
  0 < a -> 0 < b -> Zdigits2 a + Zdigits2 b - 1 <= Zdigits2 (a * b).
Proof.
  intros Ha Hb.
  destruct (Zdigits2_bounds a Ha) as [Hda [Hla _]].
  destruct (Zdigits2_bounds b Hb) as [Hdb [Hlb _]].
  destruct (Zdigits2_bounds (a * b) ltac:(nia)) as [Hd [_ Hu]].
  destruct (Z_le_gt_dec (Zdigits2 a + Zdigits2 b - 1) (Zdigits2 (a * b))) as [|Hgt]; [assumption|].
  assert (2 ^ Zdigits2 (a * b) <= 2 ^ (Zdigits2 a - 1 + (Zdigits2 b - 1)))
    by (apply Z.pow_le_mono_r; lia).
  rewrite Z.pow_add_r in H by lia.
  pose proof (Z.pow_pos_nonneg 2 (Zdigits2 a - 1)); pose proof (Z.pow_pos_nonneg 2 (Zdigits2 b - 1)).
  nia.
Qed.

Lemma sgn_mult sx sy u v : (sgn sx u * sgn sy v)%R = sgn (xorb sx sy) (u * v).
Proof. destruct sx, sy; cbn [sgn xorb]; ring. Qed.

Lemma SFmul_sandwiched x y :
  valid_binary x = true -> valid_binary y = true ->
  SFfinite x = true -> SFfinite y = true ->
  sandwiched (SF2R x * SF2R y) (SFmul prec emax x y).
Proof.
  intros Vx Vy Fx Fy.
  destruct x as [sx| | |sx mx ex]; try discriminate;
  destruct y as [sy| | |sy my ey]; try discriminate; cbn [SFmul].
  - cbn [SF2R]; rewrite Rmult_0_l; apply zero_sandwiched.
  - cbn [SF2R]; rewrite Rmult_0_l; apply zero_sandwiched.
  - cbn [SF2R]; rewrite Rmult_0_r; apply zero_sandwiched.
  - cbn [valid_binary] in Vx, Vy; apply bounded_spec in Vx, Vy.
    destruct Vx as [Cx _], Vy as [Cy _].
    rewrite !SF2R_finite, sgn_mult, <- F_mult, <- Pos2Z.inj_mul.
    apply binary_round_aux_sandwiched.
    + apply F_pos; lia.
    + split; [lia|reflexivity].
    + rewrite Pos2Z.inj_mul.
      pose proof (Zdigits2_mul_ge (Zpos mx) (Zpos my) (Pos2Z.is_pos _) (Pos2Z.is_pos _)).
      destruct (Zdigits2_bounds (Zpos mx) (Pos2Z.is_pos _)) as [Hdx _].
      destruct (Zdigits2_bounds (Zpos my) (Pos2Z.is_pos _)) as [Hdy _].
      unfold canonical, fexp in *; lia.
Qed.

Lemma new_location_exact n k :
  match new_location n k with loc_Exact => k = 0 | loc_Inexact _ => k <> 0 end.
Proof.
  unfold new_location, new_location_even, new_location_odd.
  destruct (Z.even n); destruct (Z.eqb_spec k 0); assumption.
Qed.

Lemma SFdiv_core_located mx ex my ey :
  let '(q, e', l) := SFdiv_core_binary prec emax (Zpos mx) ex (Zpos my) ey in
  located q e' l (F (Zpos mx) ex / F (Zpos my) ey) /\ e' <= fexp (Zdigits2 q + e').
Proof.
  unfold SFdiv_core_binary; rewrite fexp_spec.
  set (d1 := Zdigits2 (Zpos mx)); set (d2 := Zdigits2 (Zpos my)).
  set (e' := Z.min (fexp (d1 + ex - (d2 + ey))) (ex - ey)).
  set (s := ex - ey - e').
  assert (Hs : 0 <= s) by (unfold s, e'; lia).
  set (m' := match s with Zpos _ => Z.shiftl (Zpos mx) s | Z0 => Zpos mx | Zneg _ => 0 end).
  assert (Hm' : m' = Zpos mx * 2 ^ s).
  { unfold m'; destruct s as [|p|p]; [rewrite Z.mul_1_r; reflexivity| |lia].
    apply Z.shiftl_mul_pow2; lia. }
  pose proof (Z_div_mod m' (Zpos my) ltac:(lia)) as Hdiv.
  destruct (Z.div_eucl m' (Zpos my)) as [q r]. destruct Hdiv as [Hqr Hr].
  pose proof (Z.pow_pos_nonneg 2 s ltac:(lia) Hs) as Hp.
  assert (Hq : 0 <= q) by nia.
  pose proof (F_pos _ ey (Pos2Z.is_pos my)) as Py.
  pose proof (bpow_gt_0 e') as Pe. pose proof (bpow_gt_0 ey) as Pey.
  assert (Hv : (F (Zpos mx) ex / F (Zpos my) ey = F q e' + IZR r / IZR (Zpos my) * bpow e')%R).
  { assert (Hx : F (Zpos mx) ex = (IZR m' * (bpow e' * bpow ey))%R).
    { rewrite Hm', <- bpow_add. fold (F (Zpos mx * 2 ^ s) (e' + ey)).
      rewrite F_shift by assumption. f_equal; unfold s; lia. }
    rewrite Hx, Hqr, plus_IZR, mult_IZR. unfold F.
    assert (IZR (Zpos my) <> 0)%R by (apply not_0_IZR; lia).
    field. split; [assumption|lra]. }
  assert (Pm : (0 < IZR (Zpos my))%R) by (apply IZR_lt; lia).
  split.
  - split; [assumption|].
    pose proof (new_location_exact (Zpos my) r) as Hl.
    destruct (new_location (Zpos my) r).
    + subst r. rewrite Hv. unfold Rdiv. rewrite Rmult_0_l, Rmult_0_l. ring.
    + rewrite Hv, F_succ.
      assert (0 < IZR r / IZR (Zpos my) < 1)%R.
      { assert (0 < IZR r)%R by (apply IZR_lt; lia).
        assert (IZR r < IZR (Zpos my))%R by (apply IZR_lt; lia).
        split; [apply Rdiv_lt_0_compat; assumption|].
        apply (Rmult_lt_reg_r (IZR (Zpos my))); [assumption|].
        unfold Rdiv; rewrite Rmult_assoc, Rinv_l by lra. lra. }
      nra.
  - (* the quotient has enough digits *)
    apply Z.le_trans with (fexp (d1 + ex - (d2 + ey))); [unfold e'; lia|].
    apply fexp_le.
    destruct (Z_le_gt_dec (d1 - d2 + s) 0) as [Hle|Hgt].
    + pose proof (Zdigits2_nonneg q). unfold s in *. lia.
    + destruct (Zdigits2_bounds (Zpos mx) (Pos2Z.is_pos _)) as [Hd1 [Hl1 _]].
      destruct (Zdigits2_bounds (Zpos my) (Pos2Z.is_pos _)) as [Hd2 [_ Hu2]].
      fold d1 in Hl1, Hd1; fold d2 in Hu2, Hd2.
      assert (Hk : 2 ^ (d1 - d2 + s - 1) <= q).
      { assert (Hpow : 2 ^ (d1 - 1) * 2 ^ s = 2 ^ (d1 - d2 + s - 1) * 2 ^ d2).
        { rewrite <- !Z.pow_add_r by lia. f_equal; lia. }
        pose proof (Z.pow_pos_nonneg 2 (d1 - d2 + s - 1) ltac:(lia) ltac:(lia)).
        destruct (Z_le_gt_dec (2 ^ (d1 - d2 + s - 1)) q) as [|Hlt]; [assumption|].
        exfalso. nia. }
      assert (Hdq : d1 - d2 + s <= Zdigits2 q).
      { destruct (Zdigits2_bounds q ltac:(pose proof (Z.pow_pos_nonneg 2 (d1 - d2 + s - 1)); lia))
          as [_ [_ Hu]].
        destruct (Z_le_gt_dec (d1 - d2 + s) (Zdigits2 q)) as [|Hlt]; [assumption|].
        assert (2 ^ Zdigits2 q <= 2 ^ (d1 - d2 + s - 1)) by (apply Z.pow_le_mono_r; [lia|lia]).
        lia. }
      unfold s in Hdq. lia.
Qed.

Lemma SFdiv_sandwiched x y :
  valid_binary x = true -> valid_binary y = true ->
  SFfinite x = true -> SFfinite y = true -> SF2R y <> 0%R ->
  sandwiched (SF2R x / SF2R y) (SFdiv prec emax x y).
Proof.
  intros Vx Vy Fx Fy Hy.
  destruct x as [sx| | |sx mx ex]; try discriminate;
  destruct y as [sy| | |sy my ey]; try discriminate; cbn [SFdiv];
    try (exfalso; apply Hy; reflexivity).
  - cbn [SF2R]; unfold Rdiv; rewrite Rmult_0_l; apply zero_sandwiched.
  - pose proof (SFdiv_core_located mx ex my ey) as H.
    destruct (SFdiv_core_binary prec emax (Zpos mx) ex (Zpos my) ey) as [[q e'] l].
    destruct H as [Hloc He].
    pose proof (F_pos _ ex (Pos2Z.is_pos mx)) as Px.
    pose proof (F_pos _ ey (Pos2Z.is_pos my)) as Py.
    replace (SF2R (S754_finite sx mx ex) / SF2R (S754_finite sy my ey))%R
      with (sgn (xorb sx sy) (F (Zpos mx) ex / F (Zpos my) ey)).
    + apply binary_round_aux_sandwiched; [apply Rdiv_lt_0_compat|..]; assumption.
    + rewrite !SF2R_finite; destruct sx, sy; cbn [sgn xorb]; field; lra.
Qed.

End Binary64Laws.

Section Binary64Floats.
Import Binary64.
Local Open Scope Z_scope.
Local Open Scope float_scope.

Lemma leb_val x y : finite x -> finite y -> ((x <=? y) = true <-> (val x <= val y)%R).
Proof.
  intros Fx Fy; rewrite leb_spec; apply SFleb_SF2R; auto using Prim2SF_valid.
Qed.

Lemma ltb_val x y : finite x -> finite y -> ((x <? y) = true <-> (val x < val y)%R).
Proof.
  intros Fx Fy; rewrite ltb_spec; apply SFltb_SF2R; auto using Prim2SF_valid.
Qed.

Lemma rounds_ge v x b : rounds v x -> finite b -> (val b <= v)%R -> (b <=? x) = true.
Proof.
  intros [_ H] Fb Hb; rewrite leb_spec.
  apply (H (Prim2SF b) (Prim2SF_valid b) Fb); assumption.
Qed.

Lemma rounds_le v x b : rounds v x -> finite b -> (v <= val b)%R -> (x <=? b) = true.
Proof.
  intros [_ H] Fb Hb; rewrite leb_spec.
  apply (H (Prim2SF b) (Prim2SF_valid b) Fb); assumption.
Qed.

Lemma between_finite a x b :
  finite a -> finite b -> (a <=? x) = true -> (x <=? b) = true -> finite x.
Proof.
  unfold finite; rewrite !leb_spec; intros Fa Fb.
  destruct (Prim2SF a) as [sa| | |sa ma ea]; try discriminate;
  destruct (Prim2SF b) as [sb| | |sb mb eb]; try discriminate;
  destruct (Prim2SF x) as [sx|[|]| |sx mx ex]; cbn; try reflexivity;
    try discriminate; try (destruct sa; discriminate); try (destruct sb; discriminate).
Qed.

Lemma rounds_between v x a b :
  rounds v x -> finite a -> finite b -> (val a <= v <= val b)%R ->
  finite x /\ (val a <= val x <= val b)%R.
Proof.
  intros Hr Fa Fb [Ha Hb].
  pose proof (rounds_ge v x a Hr Fa Ha) as H1.
  pose proof (rounds_le v x b Hr Fb Hb) as H2.
  assert (Fx : finite x) by (apply (between_finite a x b); assumption).
  split; [assumption|]. split; apply leb_val; assumption.
Qed.

Lemma add_rounds x y : finite x -> finite y -> rounds (val x + val y) (x + y).
Proof.
  intros Fx Fy; unfold rounds; rewrite add_spec.
  apply SFadd_sandwiched; auto using Prim2SF_valid.
Qed.

Lemma sub_rounds x y : finite x -> finite y -> rounds (val x - val y) (x - y).
Proof.
  intros Fx Fy; unfold rounds; rewrite sub_spec.
  apply SFsub_sandwiched; auto using Prim2SF_valid.
Qed.

Lemma mul_rounds x y : finite x -> finite y -> rounds (val x * val y) (x * y).
Proof.
  intros Fx Fy; unfold rounds; rewrite mul_spec.
  apply SFmul_sandwiched; auto using Prim2SF_valid.
Qed.

Lemma div_rounds x y :
  finite x -> finite y -> val y <> 0%R -> rounds (val x / val y) (x / y).
Proof.
  intros Fx Fy Hy; unfold rounds; rewrite div_spec.
  apply SFdiv_sandwiched; auto using Prim2SF_valid.
Qed.

Lemma val_0 : val 0 = 0%R.
Proof. reflexivity. Qed.

Lemma val_1 : val 1 = 1%R.
Proof.
  unfold val; change (Prim2SF 1) with (S754_finite false 4503599627370496 (-52)).
  cbn [SF2R cond_Zopp]. change (Zpos 4503599627370496) with (1 * 2 ^ 52)%Z.
  rewrite F_shift by lia. unfold F; cbn; lra.
Qed.

Lemma finite_0 : finite 0.
Proof. reflexivity. Qed.

Lemma finite_1 : finite 1.
Proof. reflexivity. Qed.

(** A float that passes a comparison is not a NaN; between zero and
    [infinity] it is finite. *)
Lemma nonneg_finite x : (0 <=? x) = true -> (x <? infinity) = true -> finite x.
Proof.
  unfold finite; rewrite leb_spec, ltb_spec.
  change (Prim2SF 0) with (S754_zero false).
  change (Prim2SF infinity) with (S754_infinity false).
  destruct (Prim2SF x) as [sx|[|]| |sx mx ex]; cbn; try reflexivity; discriminate.
Qed.

Lemma leb_finite_r x b : finite b -> (0 <=? x) = true -> (x <=? b) = true -> finite x.
Proof. intros Fb H0 Hb; apply (between_finite 0 x b); auto using finite_0. Qed.

Lemma SFeqb_refl s m e : SFeqb (S754_finite s m e) (S754_finite s m e) = true.
Proof.
  unfold SFeqb, SFcompare. rewrite Z.compare_refl, Pos.compare_cont_refl.
  destruct s; reflexivity.
Qed.

(** [is_finite], the test of [std::isfinite]. *)
Lemma is_finite_spec x : is_finite x = true <-> finite x.
Proof.
  unfold is_finite, is_nan, is_infinity, finite.
  rewrite !FloatAxioms.eqb_spec, abs_spec.
  change (Prim2SF infinity) with (S754_infinity false).
  destruct (Prim2SF x) as [sx|sx| |sx mx ex]; cbn [SFabs SFfinite].
  - split; reflexivity.
  - split; [destruct sx; discriminate|discriminate].
  - split; discriminate.
  - rewrite SFeqb_refl. split; reflexivity.
Qed.

Lemma finite_lt_infinity x : finite x -> (x <? infinity) = true.
Proof.
  unfold finite; rewrite ltb_spec; change (Prim2SF infinity) with (S754_infinity false).
  destruct (Prim2SF x) as [sx|sx| |sx mx ex]; cbn; intros H; try reflexivity; discriminate.
Qed.

Lemma leb_val_nonneg x : finite x -> (0 <=? x) = true -> (0 <= val x)%R.
Proof. intros Fx H; rewrite <- val_0; apply leb_val; auto using finite_0. Qed.

Lemma ltb_val_pos x : finite x -> (0 <? x) = true -> (0 < val x)%R.
Proof. intros Fx H; rewrite <- val_0; apply ltb_val; auto using finite_0. Qed.

(** A float whose specification is [+infinity] is [infinity]. *)
Lemma is_infinity x : Prim2SF x = S754_infinity false -> x = infinity.
Proof. intros H; apply Prim2SF_inj; rewrite H; reflexivity. Qed.

Lemma nonneg_cases x :
  (0 <=? x) = true -> finite x \/ x = infinity.
Proof.
  rewrite leb_spec; change (Prim2SF 0) with (S754_zero false); unfold finite.
  destruct (Prim2SF x) as [sx|[|]| |sx mx ex] eqn:E; cbn; intros H; try discriminate.
  - left; reflexivity.
  - right; apply is_infinity; assumption.
  - left; reflexivity.
Qed.

(** Adding two non-negative floats gives a float that is at least each. *)
Lemma nonneg_add x y :
  (0 <=? x) = true -> (0 <=? y) = true ->
  (0 <=? x + y) = true /\ (x <=? x + y) = true /\ (y <=? x + y) = true.
Proof.
  intros Hx Hy.
  destruct (nonneg_cases x Hx) as [Fx| ->]; destruct (nonneg_cases y Hy) as [Fy| ->].
  - pose proof (leb_val_nonneg x Fx Hx); pose proof (leb_val_nonneg y Fy Hy).
    pose proof (add_rounds x y Fx Fy) as Hr.
    repeat split; eapply rounds_ge; eauto using finite_0; rewrite ?val_0; lra.
  - assert (E : x + infinity = infinity).
    { apply is_infinity; rewrite add_spec; change (Prim2SF infinity) with (S754_infinity false).
      unfold finite in Fx; destruct (Prim2SF x); try discriminate; reflexivity. }
    rewrite E. repeat split; try reflexivity.
    rewrite leb_spec; change (Prim2SF infinity) with (S754_infinity false).
    unfold finite in Fx; destruct (Prim2SF x); try discriminate; reflexivity.
  - assert (E : infinity + y = infinity).
    { apply is_infinity; rewrite add_spec; change (Prim2SF infinity) with (S754_infinity false).
      unfold finite in Fy; destruct (Prim2SF y); try discriminate; reflexivity. }
    rewrite E. repeat split; try reflexivity.
    rewrite leb_spec; change (Prim2SF infinity) with (S754_infinity false).
    unfold finite in Fy; destruct (Prim2SF y); try discriminate; reflexivity.
  - repeat split; reflexivity.
Qed.

Lemma leb_lt_infinity x y :
  (x <=? y) = true -> (y <? infinity) = true -> (x <? infinity) = true.
Proof.
  rewrite leb_spec, !ltb_spec; change (Prim2SF infinity) with (S754_infinity false).
  destruct (Prim2SF x) as [sx|[|]| |sx mx ex]; destruct (Prim2SF y) as [sy|[|]| |sy my ey];
    cbn; intros H1 H2; try reflexivity; try discriminate;
    try (destruct sx; discriminate); try (destruct sy; discriminate).
Qed.

Lemma nonneg_add_finite x y :
  (0 <=? x) = true -> (0 <=? y) = true -> (x + y <? infinity) = true ->
  finite x /\ finite y /\ finite (x + y).
Proof.
  intros Hx Hy H; destruct (nonneg_add x y Hx Hy) as [H0 [H1 H2]].
  repeat split; apply nonneg_finite; eauto using leb_lt_infinity.
Qed.

Lemma rounds_val_ge v x b :
  rounds v x -> finite x -> finite b -> (val b <= v)%R -> (val b <= val x)%R.
Proof. intros Hr Fx Fb H; apply leb_val; eauto using rounds_ge. Qed.

Lemma rounds_val_le v x b :
  rounds v x -> finite x -> finite b -> (v <= val b)%R -> (val x <= val b)%R.
Proof. intros Hr Fx Fb H; apply leb_val; eauto using rounds_le. Qed.

End Binary64Floats.

(* ================================================================== *)
(** * Laws of the filter on doubles *)
(* ================================================================== *)

Section FilterOnDoubles.
Import Binary64.
Local Open Scope float_scope.

Lemma ltb_leb (a b : float) : (a <? b) = true -> (a <=? b) = true.
Proof.
  rewrite FloatAxioms.ltb_spec, FloatAxioms.leb_spec. unfold SFltb, SFleb.
  destruct (SFcompare (Prim2SF a) (Prim2SF b)) as [[| |]|]; intros H;
    try reflexivity; discriminate.
Qed.

Lemma eqb_zero_val (v : float) : (v =? 0) = true -> finite v /\ val v = 0%R.
Proof.
  intros H. destruct (eqb_zero v H) as [s E]. unfold finite, val. rewrite E.
  split; reflexivity.
Qed.

(** The gain and the corrected covariance from a prediction variance
    [Pp >= 0] and a measurement noise [R0 >= 0] that are not both zero and
    whose sum does not overflow: the gain is in [0,1] and the covariance in
    [0, Pp]. *)
Lemma gain_and_covariance (Pp R0 : float) :
  (0 <=? Pp) = true -> (0 <=? R0) = true ->
  (0 <? Pp) = true \/ (0 <? R0) = true ->
  (Pp + R0 <? infinity) = true ->
  let K := Pp / (Pp + R0) in
  let P' := (1 - K) * Pp in
  finite Pp /\ finite K /\ (0 <= val K <= 1)%R /\
  finite P' /\ (0 <= val P' <= val Pp)%R.
Proof.
  intros HP HR Hpos Hfin K P'.
  destruct (nonneg_add_finite Pp R0 HP HR Hfin) as [FP [FR FD]].
  pose proof (leb_val_nonneg Pp FP HP) as VP.
  pose proof (leb_val_nonneg R0 FR HR) as VR.
  pose proof (add_rounds Pp R0 FP FR) as RD.
  assert (D1 : (val Pp <= val (Pp + R0))%R) by (apply (rounds_val_ge _ _ _ RD); auto; lra).
  assert (D2 : (val R0 <= val (Pp + R0))%R) by (apply (rounds_val_ge _ _ _ RD); auto; lra).
  assert (D0 : (0 < val (Pp + R0))%R).
  { destruct Hpos as [H|H]; [apply (ltb_val_pos _ FP) in H|apply (ltb_val_pos _ FR) in H]; lra. }
  assert (RK : rounds (val Pp / val (Pp + R0)) K) by (apply div_rounds; auto; lra).
  assert (HK : finite K /\ (val 0 <= val K <= val 1)%R).
  { apply (rounds_between _ _ 0 1 RK finite_0 finite_1). rewrite val_0, val_1.
    pose proof (Rinv_0_lt_compat _ D0) as Hi.
    assert (val (Pp + R0) * / val (Pp + R0) = 1)%R by (apply Rinv_r; lra).
    unfold Rdiv; nra. }
  rewrite val_0, val_1 in HK; destruct HK as [FK VK].
  assert (R1 : rounds (val 1 - val K) (1 - K)) by (apply sub_rounds; auto using finite_1).
  assert (H1 : finite (1 - K) /\ (val 0 <= val (1 - K) <= val 1)%R).
  { apply (rounds_between _ _ 0 1 R1 finite_0 finite_1). rewrite val_0, val_1. lra. }
  rewrite val_0, val_1 in H1; destruct H1 as [F1 V1].
  assert (RP : rounds (val (1 - K) * val Pp) P') by (apply mul_rounds; auto).
  assert (HP' : finite P' /\ (val 0 <= val P' <= val Pp)%R).
  { apply (rounds_between _ _ 0 Pp RP finite_0 FP). rewrite val_0. nra. }
  rewrite val_0 in HP'. tauto.
Qed.

(** The corrected estimate stays on the measurement's side of the
    prediction. *)
Lemma estimate_side (xp m K : float) :
  finite xp -> finite (m - xp) -> finite K -> (0 <= val K <= 1)%R ->
  ((xp <=? m) = true -> (xp <=? xp + K * (m - xp)) = true) /\
  ((m <=? xp) = true -> (xp + K * (m - xp) <=? xp) = true).
Proof.
  intros Fx Fd FK VK.
  assert (Fm : finite m).
  { unfold finite in *. rewrite FloatAxioms.sub_spec in Fd.
    destruct (Prim2SF m) as [sm|sm| |sm mm em]; destruct (Prim2SF xp) as [sx|sx| |sx mx ex];
      try reflexivity; try discriminate; destruct sm, sx; discriminate. }
  pose proof (sub_rounds m xp Fm Fx) as Rd.
  pose proof (mul_rounds K (m - xp) FK Fd) as Rk.
  split; intros H; apply (leb_val _ _) in H; try assumption.
  - assert (Hd : (0 <= val (m - xp))%R).
    { rewrite <- val_0. apply (rounds_val_ge _ _ _ Rd Fd finite_0). rewrite val_0. lra. }
    assert (Hk : finite (K * (m - xp)) /\ (val 0 <= val (K * (m - xp)) <= val (m - xp))%R).
    { apply (rounds_between _ _ _ _ Rk finite_0 Fd). rewrite val_0. nra. }
    rewrite val_0 in Hk. destruct Hk as [Fk Vk].
    apply (rounds_ge _ _ _ (add_rounds _ _ Fx Fk) Fx). lra.
  - assert (Hd : (val (m - xp) <= 0)%R).
    { rewrite <- val_0. apply (rounds_val_le _ _ _ Rd Fd finite_0). rewrite val_0. lra. }
    assert (Hk : finite (K * (m - xp)) /\ (val (m - xp) <= val (K * (m - xp)) <= val 0)%R).
    { apply (rounds_between _ _ _ _ Rk Fd finite_0). rewrite val_0. nra. }
    rewrite val_0 in Hk. destruct Hk as [Fk Vk].
    apply (rounds_le _ _ _ (add_rounds _ _ Fx Fk) Fx). lra.
Qed.

(** One [update] on doubles: its two equations, the gain in [0,1], the
    covariance in [0, P_pred], the estimate on the measurement's side. *)
Lemma update_on_doubles (f : IEEE.TireDegradationFilter) (m : float) :
  let P_pred := IEEE.P f + IEEE.Q f in
  let K := P_pred / (P_pred + IEEE.R f) in
  let x_pred := IEEE.x f + IEEE.wear_rate f in
  (0 <=? P_pred) = true -> (0 <=? IEEE.R f) = true ->
  (0 <? P_pred) = true \/ (0 <? IEEE.R f) = true ->
  (P_pred + IEEE.R f <? infinity) = true ->
  IEEE.x (IEEE.update f m) = x_pred + K * (m - x_pred) /\
  IEEE.P (IEEE.update f m) = (1 - K) * P_pred /\
  ((0 <=? K) = true /\ (K <=? 1) = true) /\
  ((0 <=? IEEE.P (IEEE.update f m)) = true /\
   (IEEE.P (IEEE.update f m) <=? P_pred) = true) /\
  (is_finite x_pred = true -> is_finite (m - x_pred) = true ->
   ((x_pred <=? m) = true -> (x_pred <=? IEEE.x (IEEE.update f m)) = true) /\
   ((m <=? x_pred) = true -> (IEEE.x (IEEE.update f m) <=? x_pred) = true)).
Proof.
  intros P_pred K x_pred H0 HR Hpos Hfin.
  destruct (gain_and_covariance P_pred (IEEE.R f) H0 HR Hpos Hfin)
    as [FP [FK [VK [FP' VP']]]]. fold K in FK, VK, FP', VP'.
  split; [reflexivity|]. split; [reflexivity|].
  cbn [IEEE.update IEEE.P IEEE.x]. fold P_pred x_pred K.
  split; [split; apply leb_val; auto using finite_0, finite_1; rewrite ?val_0, ?val_1; lra|].
  split; [split; apply leb_val; auto using finite_0; rewrite ?val_0; lra|].
  intros Fx Fd. apply is_finite_spec in Fx, Fd.
  apply estimate_side; assumption.
Qed.

Lemma covariance_step (f : IEEE.TireDegradationFilter) (m : float) :
  (0 <=? IEEE.P f) = true -> (0 <=? IEEE.Q f) = true -> (0 <=? IEEE.R f) = true ->
  (0 <? IEEE.Q f) = true \/ (0 <? IEEE.R f) = true ->
  ((IEEE.P f + IEEE.Q f) + IEEE.R f <? infinity) = true ->
  (0 <=? IEEE.P (IEEE.update f m)) = true /\
  ((IEEE.Q f =? 0) = true -> (IEEE.P (IEEE.update f m) <=? IEEE.P f) = true).
Proof.
  intros HP HQ HR Hpos Hfin.
  destruct (nonneg_add _ _ HP HQ) as [H0 [HPle HQle]].
  destruct (nonneg_add_finite _ _ H0 HR Hfin) as [FPp [FR _]].
  assert (FP : finite (IEEE.P f)) by (apply (leb_finite_r _ _ FPp HP HPle)).
  assert (FQ : finite (IEEE.Q f)) by (apply (leb_finite_r _ _ FPp HQ HQle)).
  assert (Hpos' : (0 <? IEEE.P f + IEEE.Q f) = true \/ (0 <? IEEE.R f) = true).
  { destruct Hpos as [H|H]; [left|right; assumption].
    apply ltb_val; auto using finite_0. apply (ltb_val _ _ finite_0 FQ) in H.
    apply (leb_val _ _ FQ FPp) in HQle. lra. }
  destruct (update_on_doubles f m H0 HR Hpos' Hfin) as [_ [_ [_ [[Hge Hle] _]]]].
  split; [assumption|]. intros HQ0.
  destruct (eqb_zero_val _ HQ0) as [_ VQ].
  assert (Hpp : (IEEE.P f + IEEE.Q f <=? IEEE.P f) = true).
  { apply (rounds_le _ _ _ (add_rounds _ _ FP FQ) FP). lra. }
  assert (FP' : finite (IEEE.P (IEEE.update f m))) by (apply (leb_finite_r _ _ FPp Hge Hle)).
  apply leb_val; try assumption.
  apply (leb_val _ _ FP' FPp) in Hle. apply (leb_val _ _ FPp FP) in Hpp. lra.
Qed.







End FilterOnDoubles.

(* ================================================================== *)
(** * C1, C5: the two scenarios *)
(* ================================================================== *)

Lemma UpdateState_is_update (x0 P0 Q0 R0 w m : R) :
  let f' := Exact.update (Exact.mkFilter x0 P0 Q0 R0 w) m in
  Exact.UpdateState x0 P0 Q0 R0 w m
  = Exact.mkResult (Exact.x f') (Exact.P f')
      (Exact.cliff_probability (Exact.x f') 0.60 15.0).
Proof.
  cbv zeta. unfold Exact.UpdateState, Exact.update, Exact.K, Exact.x_pred,
    Exact.P_pred, Exact.cliff_probability.
  cbn [Exact.x Exact.P Exact.Q Exact.R Exact.wear_rate].
  f_equal; f_equal; lra.
Qed.

(** C1, counterexample: after the ten readings the estimate is below 0.55
    and the cliff probability below 0.5, in exact arithmetic and on doubles. *)
Lemma C1_scenario_B_counterexample :
  ~ AsStated.scenario_B /\
  (IEEE.x (IEEE.feed IEEE.main_filter IEEE.noisy_telemetry) <? 0.55)%float = true.
Proof.
  split; [|vm_compute; reflexivity].
  unfold AsStated.scenario_B. cbv zeta. rewrite scenario_final_state.
  cbn [Exact.x]. intros [H _]. lra.
Qed.

(** C1, amended: fed the ten readings, the filter of [main] ends with an
    estimate strictly between 0.54 and 0.55 (0.5444...), hence below the
    cliff threshold 0.60, and with a cliff probability strictly between
    1/4 and 1/2; the double the program computes is 0x1.16c115cdb17c6p-1. *)
Theorem C1_scenario_B_amended :
  (let f := Exact.feed Exact.main_filter Exact.noisy_telemetry in
   0.54 < Exact.x f < 0.55 /\
   1 / 4 < Exact.calculateCliffProbability f 0.60 15.0 < 1 / 2)%R /\
  IEEE.x (IEEE.feed IEEE.main_filter IEEE.noisy_telemetry)
  = 0x1.16c115cdb17c6p-1%float.
Proof.
  split; [|vm_compute; reflexivity].
  cbv zeta. rewrite scenario_final_state.
  unfold Exact.calculateCliffProbability. cbn [Exact.x].
  split; [split; lra|].
  split.
  - apply cliff_probability_near_threshold. lra.
  - apply cliff_probability_below_threshold; lra.
Qed.

(** C5, counterexample: the first update returns 327/7550 = 0.04331..., which
    is more than 0.0016 away from 0.0417 and does not round to it. *)
Lemma C5_scenario_A_counterexample :
  ~ AsStated.scenario_A /\
  (0.0016 < Exact.res_x (Exact.UpdateState 0.0 1.0 0.01 0.5 0.05 0.04) - 0.0417)%R.
Proof.
  assert (E := UpdateState_is_update 0.0 1.0 0.01 0.5 0.05 0.04).
  cbv zeta in E.
  replace (Exact.mkFilter 0.0 1.0 0.01 0.5 0.05) with Exact.main_filter in E
    by (unfold Exact.main_filter; f_equal; lra).
  rewrite scenario_first_update in E. cbn [Exact.x Exact.P] in E.
  unfold AsStated.scenario_A. cbv zeta. rewrite E. cbn [Exact.res_x].
  split; [|lra].
  unfold rounds_to. intros [[_ H] _]. lra.
Qed.

(** C5, amended: one update with measurement 0.04 from
    (x=0, P=1, Q=0.01, R=0.5, wearRate=0.05) has gain K = 101/151 (0.67 to two
    decimals) and returns the estimate 327/7550, which is 0.0433 to four
    decimals, with covariance 101/302; the cliff probability at threshold
    0.60 and steepness 15 is below 1/100.  On doubles the estimate is
    0x1.62ce4abb4dc89p-5. *)
Theorem C5_scenario_A_amended :
  (let r := Exact.UpdateState 0.0 1.0 0.01 0.5 0.05 0.04 in
   Exact.K Exact.main_filter = 101 / 151 /\
   rounds_to 0.01 0.67 (Exact.K Exact.main_filter) /\
   Exact.res_x r = 327 / 7550 /\
   rounds_to 0.0001 0.0433 (Exact.res_x r) /\
   Exact.res_P r = 101 / 302 /\
   Exact.res_cliffProb r < 1 / 100)%R /\
  IEEE.x (IEEE.update IEEE.main_filter 0.04) = 0x1.62ce4abb4dc89p-5%float.
Proof.
  split; [|vm_compute; reflexivity].
  assert (E := UpdateState_is_update 0.0 1.0 0.01 0.5 0.05 0.04).
  cbv zeta in E.
  replace (Exact.mkFilter 0.0 1.0 0.01 0.5 0.05) with Exact.main_filter in E
    by (unfold Exact.main_filter; f_equal; lra).
  rewrite scenario_first_update in E. cbn [Exact.x Exact.P] in E.
  cbv zeta. rewrite E. cbn [Exact.res_x Exact.res_P Exact.res_cliffProb].
  assert (HK : Exact.K Exact.main_filter = (101 / 151)%R).
  { unfold Exact.K, Exact.P_pred, Exact.main_filter.
    cbn [Exact.P Exact.Q Exact.R]. lra. }
  rewrite HK. unfold rounds_to.
  repeat split; try lra.
  apply cliff_probability_far_below; [lra | lra |].
  cbn [pow]. lra.
Qed.

(* ================================================================== *)
(** * C4: the degenerate combined variance *)
(* ================================================================== *)

(** C4, counterexample: with P = Q = R = 0 the combined variance is zero,
    and the call returns instead of failing. *)
Lemma C4_degenerate_counterexample :
  ~ AsStated.degenerate_call_fails (IEEE.mkFilter 0 0 0 0 0.05) 0.04.
Proof.
  unfold AsStated.degenerate_call_fails. intros H.
  specialize (H eq_refl). discriminate H.
Qed.

(** C4, amended: the update has no check of the combined variance and no
    error: every call performs the division and returns.  When [P + Q] and
    [(P + Q) + R] are both zero the quotient 0/0 is NaN, and the gain, the
    estimate and the covariance returned are all NaN. *)
Theorem C4_degenerate_amended :
  forall (f : IEEE.TireDegradationFilter) (m : float),
    IEEE.predict_and_update f m = IEEE.Returns (IEEE.update f m) /\
    ((IEEE.P f + IEEE.Q f =? 0)%float = true ->
     ((IEEE.P f + IEEE.Q f) + IEEE.R f =? 0)%float = true ->
     IEEE.gain f = nan /\
     IEEE.x (IEEE.update f m) = nan /\
     IEEE.P (IEEE.update f m) = nan).
Proof.
  intros f m. split; [reflexivity|]. intros Hp Hd.
  assert (HK : IEEE.gain f = nan) by (apply div_zero_zero; assumption).
  unfold IEEE.gain in HK. unfold IEEE.gain, IEEE.update. cbn [IEEE.x IEEE.P].
  rewrite HK. repeat split.
  - rewrite mul_nan_l. apply add_nan_r.
  - replace (1 - nan)%float with nan; [apply mul_nan_l|].
    symmetry. apply float_of_nan. rewrite FloatAxioms.sub_spec. reflexivity.
Qed.

Lemma C4_degenerate_amended_witness :
  IEEE.gain (IEEE.mkFilter 0 0 0 0 0.05) = nan /\
  IEEE.x (IEEE.update (IEEE.mkFilter 0 0 0 0 0.05) 0.04) = nan /\
  IEEE.P (IEEE.update (IEEE.mkFilter 0 0 0 0 0.05) 0.04) = nan.
Proof.
  exact (proj2 (C4_degenerate_amended (IEEE.mkFilter 0 0 0 0 0.05) 0.04)
               eq_refl eq_refl).
Defined.

(* ================================================================== *)
(** * C7: the logistic map *)
(* ================================================================== *)

(** In exact arithmetic, with the real exponential: for a fixed threshold
    and a steepness above zero the logistic map is strictly increasing in
    [x], lies strictly between 0 and 1, and is 1/2 at the threshold. *)
Lemma cliff_probability_exact :
  forall thr st : R, (0 < st)%R ->
    (forall x1 x2 : R, (x1 < x2)%R ->
       (Exact.cliff_probability x1 thr st < Exact.cliff_probability x2 thr st)%R) /\
    (forall x : R, (0 < Exact.cliff_probability x thr st < 1)%R) /\
    Exact.cliff_probability thr thr st = (1 / 2)%R.
Proof.
  intros thr st Hst. split; [|split].
  - intros x1 x2 Hx. apply cliff_probability_increasing; assumption.
  - intros x. apply cliff_probability_pos_lt_1.
  - apply cliff_probability_at_threshold.
Qed.

Section C7Claim.
Import Binary64.
Local Open Scope float_scope.




End C7Claim.

(* ================================================================== *)
(** * C8: the covariance along a run *)
(* ================================================================== *)

(** In exact arithmetic: from P >= 0 with Q >= 0, R >= 0 and Q + R > 0 the
    covariance after each update of any run is non-negative, and when
    Q = 0 it never increases from one update to the next. *)
Lemma covariance_exact :
  forall (readings : list R) (f : Exact.TireDegradationFilter),
    (0 <= Exact.P f)%R -> (0 <= Exact.Q f)%R -> (0 <= Exact.R f)%R ->
    (0 < Exact.Q f + Exact.R f)%R ->
    Forall (fun p => (0 <= p)%R) (Exact.covariances f readings) /\
    (Exact.Q f = 0%R ->
     Exact.non_increasing_from (Exact.P f) (Exact.covariances f readings)).
Proof.
  induction readings as [|m rest IH]; intros f HP HQ HR HQR.
  - split; [constructor | intros _; exact I].
  - assert (Hb := update_P_bounds f m).
    unfold Exact.P_pred in Hb.
    destruct Hb as [Hb0 Hb1]; try lra.
    destruct (IH (Exact.update f m)) as [IH1 IH2]; cbn [Exact.update Exact.Q Exact.R];
      try assumption.
    cbn [Exact.covariances]. split.
    + constructor; assumption.
    + intros HQ0. cbn [Exact.non_increasing_from]. split.
      * rewrite HQ0 in Hb1. lra.
      * apply IH2. exact HQ0.
Qed.

Section C8Claim.
Import Binary64.
Local Open Scope float_scope.

(** C8, counterexample: from P = 1 with Q = R = 0 the first update leaves
    the covariance at 0 and the second divides 0 by 0: the covariance is NaN,
    which is not non-negative.  And from P = Q = 1e308 with R = 1 the sum
    P + Q overflows, the gain is infinity / infinity, and the covariance
    after the first update is NaN. *)
Lemma C8_covariance_counterexample :
  ~ AsStated.covariance_stays_non_negative
      (IEEE.mkFilter 0 1 0 0 0.05) [0.04; 0.12] /\
  ~ AsStated.covariance_stays_non_negative
      (IEEE.mkFilter 0 1e308 1e308 1 0.05) [0.04].
Proof.
  unfold AsStated.covariance_stays_non_negative. split; intros H;
    specialize (H eq_refl eq_refl eq_refl); vm_compute in H; discriminate H.
Qed.

(** C8, amended: on doubles, for every sequence of measurements fed to the
    filter from P >= 0 with Q >= 0 and R >= 0 that are not both zero, and
    as long as the combined variance (P + Q) + R of each step does not
    overflow, the covariance after each update is non-negative; and when
    Q = 0 it never increases from one update to the next. *)
Theorem C8_covariance_amended :
  forall (readings : list float) (f : IEEE.TireDegradationFilter),
    (0 <=? IEEE.P f) = true -> (0 <=? IEEE.Q f) = true -> (0 <=? IEEE.R f) = true ->
    (0 <? IEEE.Q f) = true \/ (0 <? IEEE.R f) = true ->
    IEEE.no_overflow f readings = true ->
    Forall (fun p => (0 <=? p) = true) (IEEE.covariances f readings) /\
    ((IEEE.Q f =? 0) = true ->
     IEEE.non_increasing_from (IEEE.P f) (IEEE.covariances f readings)).
Proof.
  induction readings as [|m rest IH]; intros f HP HQ HR Hpos Hno.
  - split; [constructor|intros _; exact I].
  - cbn [IEEE.no_overflow] in Hno. apply andb_prop in Hno. destruct Hno as [Hfin Hrest].
    destruct (covariance_step f m HP HQ HR Hpos Hfin) as [H1 H2].
    destruct (IH (IEEE.update f m) H1 HQ HR Hpos Hrest) as [IH1 IH2].
    cbn [IEEE.covariances]. split.
    + constructor; assumption.
    + intros HQ0. cbn [IEEE.non_increasing_from]. split; [apply H2; assumption|].
      apply IH2; assumption.
Qed.

Lemma C8_covariance_amended_witness :
  Forall (fun p => (0 <=? p) = true)
    (IEEE.covariances (IEEE.mkFilter 0 1 0 0.5 0.05) IEEE.noisy_telemetry) /\
  IEEE.non_increasing_from 1
    (IEEE.covariances (IEEE.mkFilter 0 1 0 0.5 0.05) IEEE.noisy_telemetry).
Proof.
  pose proof (C8_covariance_amended IEEE.noisy_telemetry (IEEE.mkFilter 0 1 0 0.5 0.05)
                eq_refl eq_refl eq_refl (or_intror eq_refl) eq_refl) as [H1 H2].
  split; [exact H1|exact (H2 eq_refl)].
Defined.

End C8Claim.

(* ================================================================== *)
(** * C9: the gain *)
(* ================================================================== *)

(** In exact arithmetic: when P + Q > 0 and R > 0 the gain
    (P + Q) / ((P + Q) + R) lies strictly between 0 and 1, the corrected
    estimate strictly between the prediction [x + wear_rate] and the
    measurement whenever the two differ, and the corrected covariance
    strictly below P + Q. *)
Lemma gain_exact :
  forall (f : Exact.TireDegradationFilter) (m : R),
    (0 < Exact.P_pred f)%R -> (0 < Exact.R f)%R ->
    (0 < Exact.K f < 1)%R /\
    ((Exact.x_pred f < m)%R ->
     (Exact.x_pred f < Exact.x (Exact.update f m) < m)%R) /\
    ((m < Exact.x_pred f)%R ->
     (m < Exact.x (Exact.update f m) < Exact.x_pred f)%R) /\
    (Exact.P (Exact.update f m) < Exact.P_pred f)%R.
Proof.
  intros f m Hp Hr. destruct (K_strict f Hp Hr) as [H0 H1].
  cbn [Exact.update Exact.x Exact.P].
  repeat split; try assumption; try intros; nra.
Qed.

Section C9Claim.
Import Binary64.
Local Open Scope float_scope.

(** C9, counterexample: with P = 1, Q = 0.01 and R = 1e-17 the gain
    1.01 / (1.01 + 1e-17) is exactly 1, the estimate is the measurement and
    the covariance 0; with R = 1e17 the correction is lost in the rounding:
    the estimate is the prediction and the covariance is P_pred.  And from
    the prediction -2^60 with the measurement 129 (P = 1, Q = 0, R = 1e-17)
    the estimate is 256, beyond the measurement. *)
Lemma C9_gain_counterexample :
  ~ AsStated.gain_strictly_inside (IEEE.mkFilter 0 1 0.01 1e-17 0.05) 0.04 /\
  ~ AsStated.gain_strictly_inside (IEEE.mkFilter 0 1 0.01 1e17 0.05) 0.04 /\
  (let f := IEEE.mkFilter (-1152921504606846976) 1 0 1e-17 0 in
   (IEEE.x f + IEEE.wear_rate f <? 129) = true /\
   (129 <? IEEE.x (IEEE.update f 129)) = true).
Proof.
  unfold AsStated.gain_strictly_inside. split; [|split].
  - intros H. specialize (H eq_refl eq_refl). vm_compute in H.
    destruct H as [[_ H] _]. discriminate H.
  - intros H. specialize (H eq_refl eq_refl). vm_compute in H.
    destruct H as [_ [_ [_ H]]]. discriminate H.
  - split; reflexivity.
Qed.

(** C9, amended: on doubles, for every call with P_pred = P + Q > 0 and
    R > 0 whose sum P_pred + R does not overflow, the gain
    K = P_pred / (P_pred + R) lies in the closed interval [0,1]; the
    corrected covariance (1 - K) * P_pred lies between 0 and P_pred; and,
    when the prediction x + wear_rate and the innovation (measurement less
    prediction) are finite, the corrected estimate
    x_pred + K * (measurement - x_pred) is on the measurement's side of the
    prediction: at least the prediction when the measurement is, at most the
    prediction when the measurement is. *)
Theorem C9_gain_amended :
  forall (f : IEEE.TireDegradationFilter) (m : float),
    let P_pred := IEEE.P f + IEEE.Q f in
    let K := P_pred / (P_pred + IEEE.R f) in
    let x_pred := IEEE.x f + IEEE.wear_rate f in
    let f' := IEEE.update f m in
    (0 <? P_pred) = true -> (0 <? IEEE.R f) = true ->
    (P_pred + IEEE.R f <? infinity) = true ->
    IEEE.x f' = x_pred + K * (m - x_pred) /\
    IEEE.P f' = (1 - K) * P_pred /\
    ((0 <=? K) = true /\ (K <=? 1) = true) /\
    ((0 <=? IEEE.P f') = true /\ (IEEE.P f' <=? P_pred) = true) /\
    (is_finite x_pred = true -> is_finite (m - x_pred) = true ->
     ((x_pred <=? m) = true -> (x_pred <=? IEEE.x f') = true) /\
     ((m <=? x_pred) = true -> (IEEE.x f' <=? x_pred) = true)).
Proof.
  intros f m P_pred K x_pred f' Hp Hr Hfin.
  apply update_on_doubles; auto using ltb_leb.
Qed.

Lemma C9_gain_amended_witness :
  let f := IEEE.main_filter in
  let K := (IEEE.P f + IEEE.Q f) / ((IEEE.P f + IEEE.Q f) + IEEE.R f) in
  ((0 <=? K) = true /\ (K <=? 1) = true) /\
  ((0 <=? IEEE.P (IEEE.update f 0.04)) = true /\
   (IEEE.P (IEEE.update f 0.04) <=? IEEE.P f + IEEE.Q f) = true) /\
  (IEEE.x (IEEE.update f 0.04) <=? IEEE.x f + IEEE.wear_rate f) = true.
Proof.
  pose proof (C9_gain_amended IEEE.main_filter 0.04 eq_refl eq_refl eq_refl)
    as [_ [_ [HK [HP Hx]]]].
  split; [exact HK|]. split; [exact HP|].
  exact (proj2 (Hx eq_refl eq_refl) eq_refl).
Defined.

End C9Claim.

(* ================================================================== *)
(** * The JavaScript modules *)
(* ================================================================== *)

Section JSLaws.
Local Open Scope Q_scope.

Lemma ltb_true (a b : Q) : JS.ltb a b = true <-> a < b.
Proof.
  unfold JS.ltb. destruct (Qlt_le_dec a b) as [H|H]; split; intros H'; try easy.
  exfalso. apply (Qlt_irrefl a). apply Qlt_le_trans with b; assumption.
Qed.

Lemma ltb_false (a b : Q) : JS.ltb a b = false <-> b <= a.
Proof.
  unfold JS.ltb. destruct (Qlt_le_dec a b) as [H|H]; split; intros H'; try easy.
  exfalso. apply (Qlt_irrefl a). apply Qlt_le_trans with b; assumption.
Qed.

Lemma geb_true (a b : Q) : JS.geb a b = true <-> b <= a.
Proof. unfold JS.geb. rewrite negb_true_iff. apply ltb_false. Qed.

Lemma geb_false (a b : Q) : JS.geb a b = false <-> a < b.
Proof. unfold JS.geb. rewrite negb_false_iff. apply ltb_true. Qed.

Lemma gtb_true (a b : Q) : JS.gtb a b = true <-> b < a.
Proof. apply ltb_true. Qed.

Lemma gtb_false (a b : Q) : JS.gtb a b = false <-> a <= b.
Proof. apply ltb_false. Qed.

Lemma leb_true (a b : Q) : JS.leb a b = true <-> a <= b.
Proof. unfold JS.leb. rewrite negb_true_iff. apply ltb_false. Qed.

Lemma Math_round_ge (q : Q) (n : Z) : inject_Z n <= q -> (n <= JS.Math_round q)%Z.
Proof.
  intros H. unfold JS.Math_round.
  rewrite <- (Qfloor_Z n). apply Qfloor_resp_le. lra.
Qed.

Lemma Math_round_ge_half (q : Q) (n : Z) :
  inject_Z n - (1 # 2) <= q -> (n <= JS.Math_round q)%Z.
Proof.
  intros H. unfold JS.Math_round.
  rewrite <- (Qfloor_Z n). apply Qfloor_resp_le. lra.
Qed.

Lemma Math_round_lt (q : Q) (n : Z) :
  q < inject_Z n - (1 # 2) -> (JS.Math_round q < n)%Z.
Proof.
  intros H. unfold JS.Math_round.
  rewrite Zlt_Qlt. apply Qle_lt_trans with (q + (1 # 2)); [apply Qfloor_le | lra].
Qed.

Lemma Math_max_ge_l (a b : Q) : a <= JS.Math_max a b.
Proof. apply Q.le_max_l. Qed.

End JSLaws.

(** Splits on the first comparison of the goal and records its outcome. *)
Ltac js_case :=
  match goal with
  | |- context [JS.ltb ?a ?b] =>
      let H := fresh "Hc" in
      destruct (JS.ltb a b) eqn:H; [apply ltb_true in H | apply ltb_false in H]
  | |- context [JS.geb ?a ?b] =>
      let H := fresh "Hc" in
      destruct (JS.geb a b) eqn:H; [apply geb_true in H | apply geb_false in H]
  | |- context [JS.gtb ?a ?b] =>
      let H := fresh "Hc" in
      destruct (JS.gtb a b) eqn:H; [apply gtb_true in H | apply gtb_false in H]
  | |- context [JS.leb ?a ?b] =>
      let H := fresh "Hc" in
      destruct (JS.leb a b) eqn:H; [apply leb_true in H | apply (proj1 (negb_false_iff _)) in H; apply ltb_true in H]
  end.

Section C10.
Local Open Scope Q_scope.

(** C10: whatever the position, the lap and the random draw, a pit stop is
    reported to cost at least one position, also from P1, and the new
    position is at least one behind the current one, with no cap at 20: from
    P20 the car is reported at P21 or worse. *)
Theorem C10_position_loss :
  forall (trackLength currentPosition lap random : Q),
    let r := PitStopAnalyzer.estimatePositionLoss (PitStopAnalyzer.new trackLength)
               currentPosition lap PitStopAnalyzer.default_raceLength random in
    (1 <= PitStopAnalyzer.positionsLost r)%Z /\
    currentPosition + 1 <= PitStopAnalyzer.newPosition r /\
    (currentPosition == 20 -> 21 <= PitStopAnalyzer.newPosition r).
Proof.
  intros tl cp lap rnd r.
  assert (H1 : (1 <= PitStopAnalyzer.positionsLost r)%Z).
  { unfold r, PitStopAnalyzer.estimatePositionLoss.
    cbn [PitStopAnalyzer.positionsLost].
    apply Math_round_ge. apply Math_max_ge_l. }
  split; [exact H1|].
  assert (H3 : cp + 1 <= PitStopAnalyzer.newPosition r).
  { unfold r, PitStopAnalyzer.estimatePositionLoss in *.
    cbn [PitStopAnalyzer.positionsLost PitStopAnalyzer.newPosition] in *.
    rewrite Zle_Qle in H1. change (inject_Z 1) with 1 in H1. lra. }
  split; [exact H3|]. intros E. lra.
Qed.

End C10.

Section C2C3.
Local Open Scope Q_scope.

Lemma getMaxLaps_pos (c : TireStrategy.compound) :
  0 < inject_Z (TireStrategy.getMaxLaps c).
Proof. destruct c; reflexivity. Qed.

Lemma div_mul (a m : Q) : 0 < m -> (a / m) * m == a.
Proof. intros Hm. field. lra. Qed.

Lemma ratio_ge (a m k : Q) : 0 < m -> (k <= a / m <-> m * k <= a).
Proof.
  intros Hm. assert (E := div_mul a m Hm). split; intros H.
  - nra.
  - destruct (Qlt_le_dec (a / m) k) as [Hlt|Hge]; [|exact Hge]. nra.
Qed.

Lemma ratio_lt (a m k : Q) : 0 < m -> (a / m < k <-> a < m * k).
Proof.
  intros Hm. assert (E := div_mul a m Hm). split; intros H.
  - nra.
  - destruct (Qlt_le_dec (a / m) k) as [Hlt|Hge]; [exact Hlt|]. nra.
Qed.

(** C2, counterexample: a SOFT tire at 18 of 18 laps is mandatory, yet while
    a request to the advisor is in flight the call returns at once and
    orders nothing. *)
Lemma C2_mandatory_counterexample :
  ~ AsStatedJS.mandatory_always_pits
      (Dashboard.mkState true (-5) false 1 18 TireStrategy.SOFT
         (Dashboard.mkRaceState 1 0 25 20 65 0 1)
         WeatherAnalyzer.new (FuelStrategy.new 110 44) (PitStopAnalyzer.new 7))
      18 0 (1 # 2).
Proof.
  unfold AsStatedJS.mandatory_always_pits. intros H.
  destruct (H eq_refl) as [H1 _]. discriminate H1.
Qed.

(** C2, amended: [isPitStopMandatory] holds exactly when
    lapsOnTire / max_laps >= 0.99, and then the wear status is MANDATORY and
    the ladder of [determineOptimalPitWindow], given the tire's age and
    lifetime, answers PIT_IMMEDIATELY at urgency CRITICAL whatever the cliff
    probability.  [handleAiDecision] first returns if a request to the
    advisor is in flight; otherwise the mandatory check comes before every
    other rule and sets [executePitStop], again whatever the cliff
    probability. *)
Theorem C2_mandatory_amended :
  forall (st : Dashboard.State) (lap : Z) (currentCliff random : Q),
    let laps := Dashboard.lapsSinceLastPit st in
    let c := Dashboard.currentTireCompound st in
    let maxLaps := inject_Z (TireStrategy.getMaxLaps c) in
    (TireStrategy.isPitStopMandatory laps c = true <-> 0.99 <= laps / maxLaps) /\
    (TireStrategy.isPitStopMandatory laps c = true ->
     TireStrategy.getTireWearStatus laps c = TireStrategy.MANDATORY /\
     (forall currentLap cliffProb lapsSince : Q,
        let w := PitStopAnalyzer.determineOptimalPitWindow currentLap cliffProb
                   lapsSince (Some laps) (Some maxLaps) in
        PitStopAnalyzer.pw_recommendation w = PitStopAnalyzer.PIT_IMMEDIATELY /\
        PitStopAnalyzer.pw_urgency w = PitStopAnalyzer.CRITICAL) /\
     (Dashboard.isAgentThinking st = false ->
      Dashboard.handleAiDecision st lap currentCliff random
      = (Dashboard.set_pit st, Dashboard.MandatoryPit) /\
      Dashboard.executePitStop (Dashboard.set_pit st) = true) /\
     (Dashboard.isAgentThinking st = true ->
      Dashboard.handleAiDecision st lap currentCliff random = (st, Dashboard.Busy))).
Proof.
  intros st lap cliff rnd laps c maxLaps.
  assert (Hm : 0 < maxLaps) by apply getMaxLaps_pos.
  assert (Hiff : TireStrategy.isPitStopMandatory laps c = true <-> 0.99 <= laps / maxLaps).
  { unfold TireStrategy.isPitStopMandatory. fold maxLaps.
    rewrite geb_true. symmetry. apply ratio_ge. exact Hm. }
  split; [exact Hiff|]. intros Hman.
  assert (Hr : 0.99 <= laps / maxLaps) by (apply Hiff; exact Hman).
  split; [|split; [|split]].
  - unfold TireStrategy.getTireWearStatus. fold maxLaps.
    repeat (js_case; [exfalso; lra|]). reflexivity.
  - intros currentLap cliffProb lapsSince w. unfold w.
    unfold PitStopAnalyzer.determineOptimalPitWindow. cbn [JS.or_default].
    js_case; [split; reflexivity|]. exfalso.
    apply ratio_ge in Hr; [|exact Hm]. nra.
  - intros Hth. split; [|reflexivity].
    unfold Dashboard.handleAiDecision. rewrite Hth.
    fold laps. fold c. rewrite Hman. reflexivity.
  - intros Hth. unfold Dashboard.handleAiDecision. rewrite Hth. reflexivity.
Qed.


Lemma C2_mandatory_amended_witness :
  let st :=
    Dashboard.mkState false (-5) false 1 18 TireStrategy.SOFT
      (Dashboard.mkRaceState 1 0 25 20 65 0 1)
      WeatherAnalyzer.new (FuelStrategy.new 110 44) (PitStopAnalyzer.new 7) in
  TireStrategy.getTireWearStatus 18 TireStrategy.SOFT = TireStrategy.MANDATORY /\
  Dashboard.handleAiDecision st 18 0 (1 # 2)
  = (Dashboard.set_pit st, Dashboard.MandatoryPit).
Proof.
  intros st.
  destruct (C2_mandatory_amended st 18 0 (1 # 2)) as [_ H].
  destruct (H eq_refl) as [H1 [_ [H3 _]]].
  split; [exact H1 | exact (proj1 (H3 eq_refl))].
Defined.

(** C3, counterexample: an EXTREME_WET tire (25 laps) after 24 laps is not
    mandatory (24 < 24.75), yet with cliff probability 0 the ladder answers
    PIT_IMMEDIATELY, not STAY_OUT: its first rule fires from 95% of the
    tire's life. *)
Lemma C3_ladder_counterexample :
  ~ AsStatedJS.ladder_when_not_mandatory TireStrategy.EXTREME_WET 24 24 0.
Proof.
  unfold AsStatedJS.ladder_when_not_mandatory. intros H.
  specialize (H eq_refl). discriminate H.
Qed.

(** C3, amended: when the tire age is below 95% of its maximum age (the
    ladder's own first rule, which also holds when both are left at their
    defaults 0 and 25), the ladder answers PIT_IMMEDIATELY for
    cliffProb >= 0.75, otherwise PIT_SOON for cliffProb >= 0.65, otherwise
    CONSIDER_PIT for lapsSincePit > 20 and cliffProb > 0.50, otherwise
    STAY_OUT.  For cliffProb >= 0.75, so for 0.80, the answer is
    PIT_IMMEDIATELY whatever the tire age: no urgency score enters. *)
Theorem C3_ladder_amended :
  forall (currentLap cliffProb lapsSincePit : Q) (tireAge maxTireAge : option Q),
    let w := PitStopAnalyzer.determineOptimalPitWindow currentLap cliffProb
               lapsSincePit tireAge maxTireAge in
    (JS.or_default 0 tireAge < JS.or_default 25 maxTireAge * 0.95 ->
     PitStopAnalyzer.pw_recommendation w = Spec.ladder false cliffProb lapsSincePit) /\
    (0.75 <= cliffProb ->
     PitStopAnalyzer.pw_recommendation w = PitStopAnalyzer.PIT_IMMEDIATELY).
Proof.
  intros currentLap cliffProb lapsSincePit tireAge maxTireAge w. unfold w.
  unfold PitStopAnalyzer.determineOptimalPitWindow, Spec.ladder. split.
  - intros Hage. js_case; [exfalso; lra|].
    repeat (js_case; cbn [andb]); reflexivity.
  - intros Hc. js_case; [reflexivity|]. js_case; [reflexivity|]. exfalso; lra.
Qed.

Lemma C3_ladder_amended_witness :
  PitStopAnalyzer.pw_recommendation
    (PitStopAnalyzer.determineOptimalPitWindow 30 0.80 12 None None)
  = Spec.ladder false 0.80 12 /\
  PitStopAnalyzer.pw_recommendation
    (PitStopAnalyzer.determineOptimalPitWindow 30 0.80 12 None None)
  = PitStopAnalyzer.PIT_IMMEDIATELY.
Proof.
  destruct (C3_ladder_amended 30 0.80 12 None None) as [H1 H2].
  split; [apply H1 | apply H2]; cbn; lra.
Defined.

End C2C3.

Section C6.
Local Open Scope Q_scope.
Import PitStopAnalyzer.

Lemma analyze_tireUrgency (s : CurrentState) :
  tireUrgency (analyzePitStrategy s)
  = fst (fst (cliff_block (fst (fst (tire_age_block (tireAgePercent s) (cliffProb s))))
                          (cliffProb s))).
Proof.
  unfold analyzePitStrategy.
  destruct (tire_age_block _ _) as [[tu1 r1] p1].
  destruct (cliff_block _ _) as [[tu2 r2] p2].
  destruct (fuel_block _ _) as [[fu r3] p3].
  destruct (strategy_block _ _ _ _) as [su r4]. reflexivity.
Qed.

Lemma analyze_fuelUrgency (s : CurrentState) :
  fuelUrgency (analyzePitStrategy s) = fst (fst (fuel_block (fuel s) (fuelPerLap s))).
Proof.
  unfold analyzePitStrategy.
  destruct (tire_age_block _ _) as [[tu1 r1] p1].
  destruct (cliff_block _ _) as [[tu2 r2] p2].
  destruct (fuel_block _ _) as [[fu r3] p3].
  destruct (strategy_block _ _ _ _) as [su r4]. reflexivity.
Qed.

Lemma analyze_strategyUrgency (s : CurrentState) :
  strategyUrgency (analyzePitStrategy s)
  = fst (strategy_block (currentPosition s) (cliffProb s) (lapsSincePit s) (weather s)).
Proof.
  unfold analyzePitStrategy.
  destruct (tire_age_block _ _) as [[tu1 r1] p1].
  destruct (cliff_block _ _) as [[tu2 r2] p2].
  destruct (fuel_block _ _) as [[fu r3] p3].
  destruct (strategy_block _ _ _ _) as [su r4]. reflexivity.
Qed.

Lemma analyze_totalUrgency (s : CurrentState) :
  totalUrgency (analyzePitStrategy s)
  = Spec.composite (tireUrgency (analyzePitStrategy s))
      (fuelUrgency (analyzePitStrategy s)) (strategyUrgency (analyzePitStrategy s)).
Proof.
  unfold analyzePitStrategy.
  destruct (tire_age_block _ _) as [[tu1 r1] p1].
  destruct (cliff_block _ _) as [[tu2 r2] p2].
  destruct (fuel_block _ _) as [[fu r3] p3].
  destruct (strategy_block _ _ _ _) as [su r4]. reflexivity.
Qed.

Lemma analyze_shouldPit (s : CurrentState) :
  shouldPit (analyzePitStrategy s)
  = snd (tire_age_block (tireAgePercent s) (cliffProb s))
    || snd (cliff_block (fst (fst (tire_age_block (tireAgePercent s) (cliffProb s))))
                        (cliffProb s))
    || snd (fuel_block (fuel s) (fuelPerLap s)).
Proof.
  unfold analyzePitStrategy.
  destruct (tire_age_block _ _) as [[tu1 r1] p1].
  destruct (cliff_block _ _) as [[tu2 r2] p2].
  destruct (fuel_block _ _) as [[fu r3] p3].
  destruct (strategy_block _ _ _ _) as [su r4]. reflexivity.
Qed.

Lemma tire_age_block_spec (r c : Q) :
  fst (fst (tire_age_block r c))
  = Spec.max_over
      (Spec.triggered [(JS.geb r 0.95, 10%Z); (JS.geb r 0.85, 9%Z);
                       (JS.geb r 0.75, 7%Z); (JS.geb r 0.60, 4%Z)])
      (JS.Math_round (c * 5)).
Proof.
  unfold tire_age_block, Spec.triggered, Spec.max_over.
  repeat js_case; cbn; try reflexivity; exfalso; lra.
Qed.

Lemma round5_bounds (c : Q) : 0 <= c <= 1 -> (0 <= JS.Math_round (c * 5) <= 5)%Z.
Proof.
  intros [H0 H1]. split.
  - apply Math_round_ge. change (inject_Z 0) with 0. lra.
  - assert (JS.Math_round (c * 5) < 6)%Z; [|lia].
    apply Math_round_lt. change (inject_Z 6) with 6. lra.
Qed.

Lemma tire_age_block_bounds (r c : Q) :
  0 <= c <= 1 -> (0 <= fst (fst (tire_age_block r c)) <= 10)%Z.
Proof.
  intros Hc. assert (Hb := round5_bounds c Hc). unfold tire_age_block.
  repeat js_case; cbn [fst]; lia.
Qed.

Lemma cliff_block_spec (tu : Z) (c : Q) :
  fst (fst (cliff_block tu c))
  = Spec.max_over
      (tu :: Spec.triggered [(JS.gtb c 0.75, 10%Z); (JS.gtb c 0.65, 7%Z);
                             (JS.gtb c 0.50, 4%Z)])
      tu.
Proof.
  unfold cliff_block, Spec.triggered, Spec.max_over.
  repeat js_case; cbn; try lia; exfalso; lra.
Qed.

Lemma cliff_block_bounds (tu : Z) (c : Q) :
  (0 <= tu <= 10)%Z -> (0 <= fst (fst (cliff_block tu c)) <= 10)%Z.
Proof. intros H. unfold cliff_block. repeat js_case; cbn [fst]; lia. Qed.

Lemma fuel_block_spec (f p : Q) :
  fst (fst (fuel_block f p)) = Spec.fuel_urgency (JS.Math_ceil (f / p)) /\
  (1 <= fst (fst (fuel_block f p)) <= 10)%Z.
Proof.
  unfold fuel_block, Spec.fuel_urgency, Spec.triggered, Spec.max_over.
  destruct (JS.Math_ceil (f / p) <? 5)%Z eqn:H5;
    destruct (JS.Math_ceil (f / p) <? 10)%Z eqn:H10; cbn; try (split; [reflexivity | lia]).
Qed.

Lemma strategy_block_spec (pos c l : Q) (w : WeatherAnalyzer.condition) :
  fst (strategy_block pos c l w) = Spec.strategy_urgency pos c l w /\
  (1 <= fst (strategy_block pos c l w) <= 6)%Z.
Proof.
  unfold strategy_block, Spec.strategy_urgency, Spec.triggered, Spec.max_over.
  destruct (JS.gtb pos 10 && JS.gtb c 0.50 && JS.gtb l 15); destruct w; cbn;
    (split; [reflexivity | lia]).
Qed.

Lemma composite_bounds (tu fu su : Z) :
  (0 <= tu <= 10)%Z -> (1 <= fu <= 10)%Z -> (1 <= su <= 6)%Z ->
  (1 <= Spec.composite tu fu su <= 9)%Z.
Proof.
  intros Ht Hf Hs. unfold Spec.composite.
  rewrite !Zle_Qle in Ht, Hf, Hs.
  change (inject_Z 0) with 0 in *. change (inject_Z 1) with 1 in *.
  change (inject_Z 10) with 10 in *. change (inject_Z 6) with 6 in *.
  split.
  - apply Math_round_ge_half. change (inject_Z 1) with 1.
    apply Qle_shift_div_l; lra.
  - assert (JS.Math_round ((inject_Z tu * 1.5 + inject_Z fu + inject_Z su) / 3.5) < 10)%Z;
      [|lia].
    apply Math_round_lt. change (inject_Z 10) with 10.
    apply Qlt_shift_div_r; lra.
Qed.

End C6.

(* ================================================================== *)
(** * C6: the urgency score *)
(* ================================================================== *)

Section ScorerOnDoubles.
Import Binary64 JS64 PitStopAnalyzer64.
Local Open Scope float_scope.

















End ScorerOnDoubles.

(* ================================================================== *)
(** * Further laws of the filter *)
(* ================================================================== *)

Section FilterExtras.
Local Open Scope R_scope.

(** The addon's [UpdateState] and the class of the stand-alone program are
    the same filter: the object returned holds the estimate and covariance
    of [update] and the cliff probability of [calculateCliffProbability] at
    threshold 0.60 and steepness 15, in exact arithmetic and, bit for bit,
    on doubles whatever [std::exp] returns. *)
Theorem addon_agrees_with_class :
  (forall x0 P0 Q0 R0 w m : R,
     let f' := Exact.update (Exact.mkFilter x0 P0 Q0 R0 w) m in
     Exact.UpdateState x0 P0 Q0 R0 w m
     = Exact.mkResult (Exact.x f') (Exact.P f')
         (Exact.calculateCliffProbability f' 0.60 15.0)) /\
  (forall (cexp : float -> float) (x0 P0 Q0 R0 w m : float),
     let f' := IEEE.update (IEEE.mkFilter x0 P0 Q0 R0 w) m in
     IEEE.UpdateState cexp x0 P0 Q0 R0 w m
     = IEEE.mkResult (IEEE.x f') (IEEE.P f')
         (IEEE.calculateCliffProbability cexp f' 0.60 15.0)).
Proof.
  split.
  - intros x0 P0 Q0 R0 w m f'.
    rewrite (UpdateState_is_update x0 P0 Q0 R0 w m). reflexivity.
  - intros. reflexivity.
Qed.

Lemma update_P_closed_form (f : Exact.TireDegradationFilter) (m : R) :
  Exact.P_pred f + Exact.R f <> 0 ->
  Exact.P (Exact.update f m)
  = Exact.R f * Exact.P_pred f / (Exact.P_pred f + Exact.R f).
Proof.
  intros Hd. cbn [Exact.update Exact.P]. unfold Exact.K, Exact.real. field. exact Hd.
Qed.

Lemma update_P_below_R (f : Exact.TireDegradationFilter) (m : R) :
  0 < Exact.P_pred f -> 0 < Exact.R f -> 0 < Exact.P (Exact.update f m) < Exact.R f.
Proof.
  intros Hp Hr. destruct (K_strict f Hp Hr) as [H0 H1].
  assert (HK := K_times_denominator f ltac:(lra)).
  cbn [Exact.update Exact.P]. split; nra.
Qed.

(** The covariance an update returns is [R * P_pred / (P_pred + R)]: it is
    below the measurement noise [R] as well as below [P_pred], and once the
    prediction variance is positive its inverse is the sum of the inverses
    of [P_pred] and [R]. *)
Theorem covariance_harmonic :
  forall (f : Exact.TireDegradationFilter) (m : R),
    0 < Exact.P_pred f -> 0 < Exact.R f ->
    Exact.P (Exact.update f m)
    = Exact.R f * Exact.P_pred f / (Exact.P_pred f + Exact.R f) /\
    0 < Exact.P (Exact.update f m) < Exact.R f /\
    / Exact.P (Exact.update f m) = / Exact.P_pred f + / Exact.R f.
Proof.
  intros f m Hp Hr.
  assert (E := update_P_closed_form f m ltac:(lra)).
  split; [exact E|]. split; [apply update_P_below_R; assumption|].
  rewrite E. unfold Exact.real. field. repeat split; lra.
Qed.

Lemma covariance_harmonic_witness :
  Exact.P (Exact.update Exact.main_filter 0.04)
  = Exact.R Exact.main_filter * Exact.P_pred Exact.main_filter
    / (Exact.P_pred Exact.main_filter + Exact.R Exact.main_filter) /\
  0 < Exact.P (Exact.update Exact.main_filter 0.04) < Exact.R Exact.main_filter /\
  / Exact.P (Exact.update Exact.main_filter 0.04)
  = / Exact.P_pred Exact.main_filter + / Exact.R Exact.main_filter.
Proof.
  apply (covariance_harmonic Exact.main_filter 0.04);
    unfold Exact.P_pred, Exact.main_filter; cbn [Exact.P Exact.Q Exact.R]; lra.
Defined.

Lemma covariance_window_step (f : Exact.TireDegradationFilter) (m : R) :
  0 <= Exact.P f -> 0 < Exact.Q f -> 0 < Exact.R f ->
  Exact.Q f * Exact.R f / (Exact.Q f + Exact.R f) <= Exact.P (Exact.update f m)
  < Exact.R f.
Proof.
  intros HP HQ HR.
  assert (Hp : 0 < Exact.P_pred f) by (unfold Exact.P_pred; lra).
  assert (E := update_P_closed_form f m ltac:(lra)).
  destruct (update_P_below_R f m Hp HR) as [_ Hlt].
  split; [|exact Hlt]. rewrite E. unfold Exact.P_pred, Exact.real.
  set (p := Exact.P f) in *. set (q := Exact.Q f) in *. set (r := Exact.R f) in *.
  assert (Hd : r * (p + q) / (p + q + r) - q * r / (q + r)
               = r * r * p / ((p + q + r) * (q + r))).
  { field. split; lra. }
  assert (0 <= r * r * p / ((p + q + r) * (q + r))); [|lra].
  apply Rmult_le_pos; [nra|]. apply Rlt_le, Rinv_0_lt_compat. nra.
Qed.

(** With process noise [Q > 0] and measurement noise [R > 0], from any
    covariance [P >= 0] every covariance of a run stays at or above
    [Q*R/(Q+R)] and strictly below [R]: the filter never becomes certain and
    never trusts its estimate less than a single reading. *)
Theorem covariance_window :
  forall (readings : list R) (f : Exact.TireDegradationFilter),
    0 <= Exact.P f -> 0 < Exact.Q f -> 0 < Exact.R f ->
    Forall (fun p => Exact.Q f * Exact.R f / (Exact.Q f + Exact.R f) <= p < Exact.R f)
           (Exact.covariances f readings).
Proof.
  induction readings as [|m rest IH]; intros f HP HQ HR; cbn [Exact.covariances].
  - constructor.
  - assert (Hw := covariance_window_step f m HP HQ HR).
    assert (Hpos : 0 < Exact.Q f * Exact.R f / (Exact.Q f + Exact.R f)).
    { apply Rdiv_lt_0_compat; nra. }
    constructor; [exact Hw|].
    apply (IH (Exact.update f m)); cbn [Exact.update Exact.Q Exact.R Exact.P];
      try assumption.
    cbn [Exact.update Exact.P] in Hw. lra.
Qed.

Lemma covariance_window_witness :
  Forall (fun p => Exact.Q Exact.main_filter * Exact.R Exact.main_filter
                   / (Exact.Q Exact.main_filter + Exact.R Exact.main_filter)
                   <= p < Exact.R Exact.main_filter)
         (Exact.covariances Exact.main_filter Exact.noisy_telemetry).
Proof.
  apply (covariance_window Exact.noisy_telemetry Exact.main_filter);
    unfold Exact.main_filter; cbn [Exact.P Exact.Q Exact.R]; lra.
Defined.

(** The covariances of a run depend on the configuration and on the number
    of readings only: neither the readings, nor the estimate, nor the wear
    rate enter. *)
Theorem covariance_ignores_data :
  forall (readings1 readings2 : list R) (f1 f2 : Exact.TireDegradationFilter),
    List.length readings1 = List.length readings2 ->
    Exact.P f1 = Exact.P f2 -> Exact.Q f1 = Exact.Q f2 -> Exact.R f1 = Exact.R f2 ->
    Exact.covariances f1 readings1 = Exact.covariances f2 readings2.
Proof.
  induction readings1 as [|m1 rest1 IH]; intros [|m2 rest2] f1 f2 Hlen HP HQ HR;
    try discriminate Hlen; [reflexivity|].
  cbn [Exact.covariances].
  assert (E : Exact.P (Exact.update f1 m1) = Exact.P (Exact.update f2 m2)).
  { cbn [Exact.update Exact.P]. unfold Exact.K, Exact.P_pred. rewrite HP, HQ, HR.
    reflexivity. }
  rewrite E. f_equal.
  apply IH; [injection Hlen; auto | exact E | exact HQ | exact HR].
Qed.

Lemma covariance_ignores_data_witness :
  Exact.covariances Exact.main_filter Exact.noisy_telemetry
  = Exact.covariances (Exact.mkFilter 3 1 0.01 0.5 0.2) (map (fun _ => 0) Exact.noisy_telemetry).
Proof.
  apply (covariance_ignores_data Exact.noisy_telemetry
           (map (fun _ => 0) Exact.noisy_telemetry) Exact.main_filter
           (Exact.mkFilter 3 1 0.01 0.5 0.2)); reflexivity.
Defined.

(** In exact arithmetic, with the real exponential, the logistic map is
    symmetric about the threshold: the probabilities at equal distances
    above and below it add up to 1.  (On doubles the two values are rounded
    and their sum can miss 1 by a unit in the last place.) *)
Theorem cliff_probability_symmetric :
  forall thr st d : R,
    Exact.cliff_probability (thr + d) thr st + Exact.cliff_probability (thr - d) thr st = 1.
Proof.
  intros thr st d. unfold Exact.cliff_probability.
  replace (- st * (thr + d - thr)) with (- (st * d)) by ring.
  replace (- st * (thr - d - thr)) with (st * d) by ring.
  assert (Hp := exp_pos (st * d)).
  rewrite exp_Ropp. unfold Exact.real. field. split; [lra|].
  intros E. assert (H := Rinv_0_lt_compat _ Hp). lra.
Qed.

End FilterExtras.

Section IEEEExtras.
Local Open Scope float_scope.

Lemma add_nan_l (v : float) : nan + v = nan.
Proof. apply float_of_nan. rewrite FloatAxioms.add_spec. reflexivity. Qed.

Lemma mul_nan_r (v : float) : v * nan = nan.
Proof.
  apply float_of_nan. rewrite FloatAxioms.mul_spec.
  destruct (Prim2SF v) as [s|s| |s m e]; reflexivity.
Qed.

Lemma update_nan_estimate (f : IEEE.TireDegradationFilter) (m : float) :
  IEEE.x f = nan -> IEEE.x (IEEE.update f m) = nan.
Proof.
  intros E. unfold IEEE.update. cbn [IEEE.x]. rewrite E, !add_nan_l. reflexivity.
Qed.

Lemma update_nan_reading (f : IEEE.TireDegradationFilter) :
  IEEE.x (IEEE.update f nan) = nan.
Proof.
  unfold IEEE.update. cbn [IEEE.x].
  replace (nan - (IEEE.x f + IEEE.wear_rate f)) with nan.
  - rewrite mul_nan_r. apply add_nan_r.
  - symmetry. apply float_of_nan. rewrite FloatAxioms.sub_spec. reflexivity.
Qed.

Lemma feed_nan_estimate (readings : list float) (f : IEEE.TireDegradationFilter) :
  IEEE.x f = nan -> IEEE.x (IEEE.feed f readings) = nan.
Proof.
  revert f. induction readings as [|m rest IH]; intros f E; [exact E|].
  unfold IEEE.feed. cbn [fold_left]. apply IH. apply update_nan_estimate. exact E.
Qed.

(** A NaN reading is never recovered from: once one reading of a run is NaN,
    the estimate is NaN after that update and after every later one,
    whatever the later readings. *)
Theorem nan_reading_is_sticky :
  forall (f : IEEE.TireDegradationFilter) (before after : list float),
    IEEE.x (IEEE.feed f (before ++ nan :: after)) = nan.
Proof.
  intros f before after. unfold IEEE.feed.
  rewrite fold_left_app. cbn [fold_left].
  apply (feed_nan_estimate after). apply update_nan_reading.
Qed.

End IEEEExtras.

(* ================================================================== *)
(** * Further laws of tire_strategy.js *)
(* ================================================================== *)

Section TireExtras.
Local Open Scope Q_scope.
Import TireStrategy.

Lemma ratio_le_compat (a b m : Q) : 0 < m -> a <= b -> a / m <= b / m.
Proof.
  intros Hm H. assert (Ea := div_mul a m Hm). assert (Eb := div_mul b m Hm).
  destruct (Qlt_le_dec (b / m) (a / m)) as [Hlt|Hge]; [|exact Hge]. nra.
Qed.

(** For a fixed compound the degradation multiplier is a step function that
    never goes down as the tire ages, and it stays between 1 and 4. *)
Theorem degradation_multiplier_monotone :
  forall (c : compound) (lap1 lap2 : Q),
    lap1 <= lap2 ->
    getDegradationCurveMultiplier lap1 c <= getDegradationCurveMultiplier lap2 c /\
    1 <= getDegradationCurveMultiplier lap1 c <= 4.
Proof.
  intros c lap1 lap2 H.
  assert (Hr := ratio_le_compat lap1 lap2 _ (getMaxLaps_pos c) H).
  unfold getDegradationCurveMultiplier.
  set (p1 := lap1 / inject_Z (getMaxLaps c)) in *.
  set (p2 := lap2 / inject_Z (getMaxLaps c)) in *.
  repeat js_case; repeat split; try lra.
Qed.

Lemma degradation_multiplier_monotone_witness :
  getDegradationCurveMultiplier 5 SOFT <= getDegradationCurveMultiplier 17 SOFT /\
  1 <= getDegradationCurveMultiplier 5 SOFT <= 4.
Proof. apply (degradation_multiplier_monotone SOFT 5 17). lra. Defined.

Lemma whole_laps_threshold (m n : Z) :
  (0 < m < 100)%Z -> (inject_Z m * 0.99 <= inject_Z n <-> (m <= n)%Z).
Proof.
  intros [Hm0 Hm1].
  rewrite Zlt_Qlt in Hm0, Hm1.
  change (inject_Z 0) with 0 in Hm0. change (inject_Z 100) with 100 in Hm1.
  split; intros H.
  - apply Z.nlt_ge. intros Hlt.
    assert (Hle : (n <= m - 1)%Z) by lia.
    rewrite Zle_Qle in Hle. unfold Z.sub in Hle. rewrite inject_Z_plus in Hle.
    change (inject_Z (- (1))) with (- (1)) in Hle. lra.
  - rewrite Zle_Qle in H. lra.
Qed.

(** After a whole number of laps the pit stop is mandatory exactly when the
    tire has run its full listed lifetime: 99% of a lifetime is never a
    whole number of laps, and it lies within the last lap. *)
Theorem mandatory_at_full_lifetime :
  forall (c : compound) (n : Z),
    isPitStopMandatory (inject_Z n) c = true <-> (getMaxLaps c <= n)%Z.
Proof.
  intros c n. unfold isPitStopMandatory. rewrite geb_true.
  apply whole_laps_threshold. destruct c; cbn; lia.
Qed.

(** The wear status never improves as laps are added, and it is MANDATORY
    from 95% of the listed lifetime on: earlier than the mandatory pit stop,
    which waits for 99%. *)
Theorem wear_status_monotone :
  forall (c : compound) (lap1 lap2 : Q),
    lap1 <= lap2 ->
    (wear_rank (getTireWearStatus lap1 c) <= wear_rank (getTireWearStatus lap2 c))%Z /\
    (getTireWearStatus lap1 c = MANDATORY <-> inject_Z (getMaxLaps c) * 0.95 <= lap1) /\
    (isPitStopMandatory lap1 c = true -> getTireWearStatus lap1 c = MANDATORY).
Proof.
  intros c lap1 lap2 H.
  assert (Hm := getMaxLaps_pos c).
  assert (Hr := ratio_le_compat lap1 lap2 _ Hm H).
  assert (Hiff := ratio_ge lap1 (inject_Z (getMaxLaps c)) 0.95 Hm).
  assert (Hiff' := ratio_ge lap1 (inject_Z (getMaxLaps c)) 0.99 Hm).
  unfold isPitStopMandatory. rewrite geb_true.
  unfold getTireWearStatus.
  set (p1 := lap1 / inject_Z (getMaxLaps c)) in *.
  set (p2 := lap2 / inject_Z (getMaxLaps c)) in *.
  split; [|split].
  - repeat js_case; cbn [wear_rank]; try lia; exfalso; lra.
  - repeat js_case; split; intros H'; try discriminate H'; try reflexivity;
      try (apply Hiff; lra); try (apply Hiff in H'; lra).
  - intros H'. apply Hiff' in H'. repeat js_case; try reflexivity; exfalso; lra.
Qed.

Lemma wear_status_monotone_witness :
  (wear_rank (getTireWearStatus 9 SOFT) <= wear_rank (getTireWearStatus 17 SOFT))%Z /\
  (getTireWearStatus 9 SOFT = MANDATORY <-> inject_Z (getMaxLaps SOFT) * 0.95 <= 9) /\
  (isPitStopMandatory 9 SOFT = true -> getTireWearStatus 9 SOFT = MANDATORY).
Proof. apply (wear_status_monotone SOFT 9 17). lra. Defined.

End TireExtras.

Section StintExtras.
Local Open Scope Q_scope.
Import TireStrategy.

Lemma stints_in_order_length (n : nat) (this : t) :
  stints_in_order n this -> List.length (stints this) = n.
Proof.
  intros [H _]. apply (f_equal (@List.length Z)) in H.
  rewrite !length_map, length_seq in H. exact H.
Qed.

Lemma stints_in_order_call (n : nat) (this : t) (c : call) :
  stints_in_order n this ->
  stints_in_order (match c with Pit _ _ _ _ _ => S n | _ => n end) (do_call this c).
Proof.
  intros H. assert (Hlen := stints_in_order_length n this H).
  destruct H as (Hnum & Hcur & Hend & Hopen & Hmax).
  destruct c as [l d p w | l c' p d w]; cbn [do_call].
  - unfold updateCurrentStint, stints_in_order.
    cbn [stints currentStint stintNumber endPosition maxExpectedLaps tireCompound].
    repeat split; assumption.
  - unfold pitAndChangeCompound, stints_in_order.
    cbn [stints currentStint stintNumber endPosition maxExpectedLaps tireCompound].
    repeat split.
    + rewrite map_app, Hnum, seq_S, map_app. cbn [map stintNumber].
      rewrite Hcur. do 3 f_equal. lia.
    + rewrite length_app, Hlen. cbn [List.length]. lia.
    + apply Forall_app. split; [exact Hend|].
      constructor; [|constructor]. cbn [endPosition endDegradation].
      split; discriminate.
Qed.

Lemma stints_in_order_calls (calls : list call) (n : nat) (this : t) :
  stints_in_order n this -> stints_in_order (n + pits calls) (do_calls this calls).
Proof.
  revert n this. induction calls as [|c rest IH]; intros n this H.
  - cbn [pits do_calls fold_left]. rewrite Nat.add_0_r. exact H.
  - unfold do_calls. cbn [fold_left]. fold (do_calls (do_call this c) rest).
    assert (H' := stints_in_order_call n this c H).
    destruct c as [l d p w | l c' p d w]; cbn [pits].
    + apply IH. exact H'.
    + replace (n + S (pits rest))%nat with (S n + pits rest)%nat by lia.
      apply IH. exact H'.
Qed.

Lemma reachable_in_order (driver : string) (sc : option compound) (pos roll : Q)
  (calls : list call) :
  stints_in_order (pits calls) (do_calls (new driver sc pos roll) calls).
Proof.
  assert (H0 : stints_in_order 0 (new driver sc pos roll)).
  { unfold stints_in_order, new.
    cbn [stints currentStint stintNumber endPosition maxExpectedLaps tireCompound
         map seq]. repeat split. constructor. }
  exact (stints_in_order_calls calls 0 _ H0).
Qed.

(** However the object is used after its construction, the archive holds one
    stint per pit stop, numbered 1, 2, ... in order, each with its end
    position and end degradation recorded; the current stint carries the
    next number, has no end position, and its expected lifetime is the one
    listed for its compound. *)
Theorem stint_history_in_order :
  forall (driver : string) (startingCompound : option compound)
         (startingPosition roll : Q) (calls : list call),
    let this := do_calls (new driver startingCompound startingPosition roll) calls in
    List.length (stints this) = pits calls /\
    map stintNumber (stints this) = map Z.of_nat (seq 1 (pits calls)) /\
    stintNumber (currentStint this) = (Z.of_nat (pits calls) + 1)%Z /\
    totalStints this = (Z.of_nat (pits calls) + 1)%Z /\
    Forall (fun s => endPosition s <> None /\ endDegradation s <> None) (stints this) /\
    endPosition (currentStint this) = None /\
    maxExpectedLaps (currentStint this) = getMaxLaps (tireCompound (currentStint this)).
Proof.
  intros driver sc pos roll calls this.
  assert (H := reachable_in_order driver sc pos roll calls). fold this in H.
  assert (Hlen := stints_in_order_length _ _ H).
  destruct H as (Hnum & Hcur & Hend & Hopen & Hmax).
  unfold totalStints. rewrite Hlen. repeat split; assumption.
Qed.

(** The strategy label depends on the number of pit stops made and on
    nothing else: none is ONE-STOP, one TWO-STOP, two THREE-STOP, three
    BALANCED, four or more AGGRESSIVE. *)
Theorem assessStrategy_counts_pits :
  forall (driver : string) (startingCompound : option compound)
         (startingPosition roll : Q) (calls : list call),
    assessStrategy (do_calls (new driver startingCompound startingPosition roll) calls)
    = match pits calls with
      | 0%nat => "ONE-STOP (or still on first stint)"
      | 1%nat => "TWO-STOP"
      | 2%nat => "THREE-STOP"
      | 3%nat => "BALANCED"
      | _ => "AGGRESSIVE (4+ stops)"
      end%string.
Proof.
  intros driver sc pos roll calls.
  assert (Hlen := stints_in_order_length _ _ (reachable_in_order driver sc pos roll calls)).
  unfold assessStrategy. rewrite Hlen.
  destruct (pits calls) as [|[|[|[|n]]]]; reflexivity.
Qed.

(** [getStintSummary] answers [null] exactly for an index at or beyond the
    number of pit stops made; the summary of the current stint always
    exists, carries the next stint number and shows [Active] as its end. *)
Theorem getStintSummary_defined :
  forall (driver : string) (startingCompound : option compound)
         (startingPosition roll : Q) (calls : list call) (i : nat),
    let this := do_calls (new driver startingCompound startingPosition roll) calls in
    (getStintSummary this (Some i) = None <-> (pits calls <= i)%nat) /\
    (exists s, getStintSummary this None = Some s /\
               num s = (Z.of_nat (pits calls) + 1)%Z /\ endPos s = None).
Proof.
  intros driver sc pos roll calls i this.
  assert (H := reachable_in_order driver sc pos roll calls). fold this in H.
  assert (Hlen := stints_in_order_length _ _ H).
  destruct H as (_ & Hcur & _ & Hopen & _). split.
  - unfold getStintSummary. rewrite <- Hlen.
    destruct (nth_error (stints this) i) eqn:E.
    + split; [discriminate|]. intros Hle.
      apply nth_error_None in Hle. congruence.
    + split; [|reflexivity]. intros _. apply nth_error_None. exact E.
  - eexists. split; [reflexivity|]. cbn [num endPos]. split; [exact Hcur|].
    unfold endPosition_or_Active. rewrite Hopen. reflexivity.
Qed.

(** The lap count of a stint differs by one between the two methods: a pit
    stop at the lap of the last update archives one lap fewer than that
    update had recorded, and the next stint starts on the following lap. *)
Theorem archived_laps_one_short :
  forall (this : t) (lap d p : Q) (w : string) (c : compound) (p' d' : Q) (w' : string),
    let updated := updateCurrentStint this lap d p w in
    let pitted := pitAndChangeCompound updated lap c p' d' w' in
    exists archived,
      stints pitted = stints this ++ [archived] /\
      lapsCompleted archived == lapsCompleted (currentStint updated) - 1 /\
      startLap (currentStint pitted) == lap + 1 /\
      lapsCompleted (currentStint pitted) == 0.
Proof.
  intros this lap d p w c p' d' w' updated pitted.
  eexists. split; [reflexivity|].
  cbn [lapsCompleted startLap currentStint updated pitted updateCurrentStint
       pitAndChangeCompound].
  repeat split; try reflexivity. cbn. ring.
Qed.

End StintExtras.

(* ================================================================== *)
(** * Further laws of weather_analyzer.js *)
(* ================================================================== *)

Section WeatherExtras.
Local Open Scope Q_scope.
Import WeatherAnalyzer.

Lemma classify_spec (rainfall : Q) :
  (classify rainfall = DRY <-> rainfall <= 0.1) /\
  (classify rainfall = INTERMEDIATE <-> 0.1 < rainfall <= 0.5) /\
  (classify rainfall = WET <-> 0.5 < rainfall <= 2) /\
  (classify rainfall = EXTREME_WET <-> 2 < rainfall).
Proof.
  unfold classify.
  repeat js_case; cbn [andb]; repeat split; intros;
    try discriminate; try reflexivity; try lra;
    repeat match goal with H : _ /\ _ |- _ => destruct H end; lra.
Qed.

(** The condition reported depends on the rainfall alone, by the thresholds
    0.1, 0.5 and 2: temperature and humidity never change it, so a humid,
    cool and rainless track is DRY; and the recommended compound goes with
    the condition. *)
Theorem condition_from_rainfall :
  forall (this : t) (trackTemp airTemp humidity rainfall : Q),
    let r := fst (analyzeWeatherImpact this trackTemp airTemp humidity rainfall) in
    (imp_condition r = DRY <-> rainfall <= 0.1) /\
    (imp_condition r = INTERMEDIATE <-> 0.1 < rainfall <= 0.5) /\
    (imp_condition r = WET <-> 0.5 < rainfall <= 2) /\
    (imp_condition r = EXTREME_WET <-> 2 < rainfall) /\
    recommendedTireCompound r = getTireRecommendation (imp_condition r).
Proof.
  intros this trackTemp airTemp humidity rainfall r.
  destruct (classify_spec rainfall) as (H1 & H2 & H3 & H4).
  unfold r, analyzeWeatherImpact. cbn [fst imp_condition recommendedTireCompound].
  split; [exact H1|]. split; [exact H2|]. split; [exact H3|].
  split; [exact H4 | reflexivity].
Qed.

Lemma In_flag (b : bool) (x y : risk) :
  In x (if b then [y] else []) <-> b = true /\ y = x.
Proof.
  destruct b; cbn [In]; split.
  - intros [H|[]]. split; [reflexivity | exact H].
  - intros [_ H]. left. exact H.
  - intros [].
  - intros [H _]. discriminate H.
Qed.

Lemma is_dry_true (rainfall : Q) :
  match classify rainfall with DRY => true | _ => false end = true <-> rainfall <= 0.1.
Proof.
  destruct (classify_spec rainfall) as (H1 & _). rewrite <- H1.
  destruct (classify rainfall); split; intros H; try discriminate H; reflexivity.
Qed.

Lemma blistering_listed (this : t) (trackTemp airTemp humidity rainfall : Q) :
  In BLISTERING_RISK
     (riskFactors (fst (analyzeWeatherImpact this trackTemp airTemp humidity rainfall))) ->
  60 < trackTemp.
Proof.
  unfold analyzeWeatherImpact. cbn [fst riskFactors].
  rewrite !in_app_iff, !In_flag, andb_true_iff, (gtb_true trackTemp 60).
  intros [[[H _] _]|[[_ H]|[_ H]]]; [exact H | discriminate H | discriminate H].
Qed.

(** The risk factors listed: BLISTERING_RISK exactly on a dry track above 60
    degrees, EXTREME_HEAT exactly above 65, COLD_TIRES exactly below 15; so
    heat and cold are never listed together. *)
Theorem risk_factors_listed :
  forall (this : t) (trackTemp airTemp humidity rainfall : Q),
    let r := fst (analyzeWeatherImpact this trackTemp airTemp humidity rainfall) in
    (In BLISTERING_RISK (riskFactors r) <-> 60 < trackTemp /\ rainfall <= 0.1) /\
    (In EXTREME_HEAT (riskFactors r) <-> 65 < trackTemp) /\
    (In COLD_TIRES (riskFactors r) <-> trackTemp < 15) /\
    ~ (In EXTREME_HEAT (riskFactors r) /\ In COLD_TIRES (riskFactors r)).
Proof.
  intros this trackTemp airTemp humidity rainfall r.
  unfold r, analyzeWeatherImpact. cbn [fst riskFactors].
  rewrite !in_app_iff, !In_flag, andb_true_iff, is_dry_true.
  rewrite (gtb_true trackTemp 60), (gtb_true trackTemp 65), (ltb_true trackTemp 15).
  split; [|split; [|split]].
  - split.
    + intros [[H _]|[[_ H]|[_ H]]]; [exact H | discriminate H | discriminate H].
    + intros H. left. split; [exact H | reflexivity].
  - split.
    + intros [[_ H]|[[H _]|[_ H]]]; [discriminate H | exact H | discriminate H].
    + intros H. right. left. split; [exact H | reflexivity].
  - split.
    + intros [[_ H]|[[_ H]|[H _]]]; [discriminate H | discriminate H | exact H].
    + intros H. right. right. split; [exact H | reflexivity].
  - intros [[[_ H]|[[H _]|[_ H]]] [[_ H']|[[_ H']|[H' _]]]];
      try discriminate H; try discriminate H'. lra.
Qed.

Lemma blistering_kept (s : t) (temp air hum rain : Q) :
  blisteringRisk (dry s) = true ->
  blisteringRisk (dry (snd (analyzeWeatherImpact s temp air hum rain))) = true.
Proof.
  intros H. unfold analyzeWeatherImpact. cbn [snd].
  destruct (JS.gtb temp 60 && _); [|exact H].
  destruct (classify rain); cbn; try exact H; reflexivity.
Qed.

Lemma blistering_kept_all (readings : list (Q * Q * Q * Q)) (s : t) :
  blisteringRisk (dry s) = true -> blisteringRisk (dry (analyze_all s readings)) = true.
Proof.
  revert s. induction readings as [|[[[temp air] hum] rain] rest IH]; intros s H; [exact H|].
  cbn [analyze_all]. apply IH. apply blistering_kept. exact H.
Qed.

(** The blistering flag sticks: the entry of the table for DRY is written in
    place, so after one analysis of a dry track above 60 degrees every later
    analysis of a dry track reports [blisteringRisk] true, however cool the
    track then is and although BLISTERING_RISK is not among its risk
    factors. *)
Theorem blisteringRisk_sticks :
  forall (this : t) (hot airTemp humidity rainfall : Q)
         (between : list (Q * Q * Q * Q)) (cool airTemp' humidity' rainfall' : Q),
    60 < hot -> rainfall <= 0.1 -> cool <= 60 -> rainfall' <= 0.1 ->
    let after_hot := snd (analyzeWeatherImpact this hot airTemp humidity rainfall) in
    let r := fst (analyzeWeatherImpact (analyze_all after_hot between)
                    cool airTemp' humidity' rainfall') in
    imp_blisteringRisk r = true /\ ~ In BLISTERING_RISK (riskFactors r).
Proof.
  intros this hot airTemp humidity rainfall between cool airTemp' humidity' rainfall'
         Hhot Hdry Hcool Hdry' after_hot r.
  destruct (classify_spec rainfall) as (H1 & _).
  destruct (classify_spec rainfall') as (H1' & _).
  assert (Hset : blisteringRisk (dry after_hot) = true).
  { unfold after_hot, analyzeWeatherImpact. cbn [snd].
    rewrite (proj2 H1 Hdry). rewrite (proj2 (gtb_true hot 60) Hhot). reflexivity. }
  assert (Hkept := blistering_kept_all between after_hot Hset).
  split.
  - unfold r, analyzeWeatherImpact. cbn [fst imp_blisteringRisk].
    rewrite (proj2 H1' Hdry'). rewrite (proj2 (gtb_false cool 60) Hcool).
    cbn [andb weatherFactors]. exact Hkept.
  - intros Hin.
    apply blistering_listed in Hin. lra.
Qed.

Lemma blisteringRisk_sticks_witness :
  let after_hot := snd (analyzeWeatherImpact new 62 30 50 0) in
  let r := fst (analyzeWeatherImpact (analyze_all after_hot [(30, 20, 50, 1)])
                  25 20 65 0) in
  imp_blisteringRisk r = true /\ ~ In BLISTERING_RISK (riskFactors r).
Proof.
  apply (blisteringRisk_sticks new 62 30 50 0 [(30, 20, 50, 1)] 25 20 65 0); lra.
Defined.

End WeatherExtras.

(* ================================================================== *)
(** * Further laws of fuel_strategy.js *)
(* ================================================================== *)

Section FuelExtras.
Local Open Scope Q_scope.
Import FuelStrategy.

(** Refuelling never fills beyond the capacity; below it the whole amount is
    added; and a tank that is not over-full never loses fuel to a
    non-negative refuel. *)
Theorem refuel_capped :
  forall (this : t) (amount : Q),
    currentFuel (refuel this amount) <= totalFuel this /\
    (currentFuel this + amount <= totalFuel this ->
     currentFuel (refuel this amount) == currentFuel this + amount) /\
    (0 <= amount -> currentFuel this <= totalFuel this ->
     currentFuel this <= currentFuel (refuel this amount)).
Proof.
  intros this amount. cbn [refuel currentFuel]. unfold JS.Math_min.
  split; [apply Q.le_min_l|]. split.
  - intros H. apply Q.min_r. exact H.
  - intros Ha Hc. apply Q.min_glb; lra.
Qed.

Lemma refuel_capped_witness :
  currentFuel (refuel (new 110 44) 5) <= totalFuel (new 110 44) /\
  (currentFuel (new 110 44) + -5 <= totalFuel (new 110 44) ->
   currentFuel (refuel (new 110 44) (-5)) == currentFuel (new 110 44) + -5) /\
  (0 <= 5 -> currentFuel (new 110 44) <= totalFuel (new 110 44) ->
   currentFuel (new 110 44) <= currentFuel (refuel (new 110 44) 5)).
Proof.
  split; [exact (proj1 (refuel_capped (new 110 44) 5))|]. split.
  - exact (proj1 (proj2 (refuel_capped (new 110 44) (-5)))).
  - exact (proj2 (proj2 (refuel_capped (new 110 44) 5))).
Defined.

Lemma sum_consumption_shift (l : list Entry) (a : Q) :
  fold_left (fun acc entry => acc + consumption entry) l a
  == a + fold_left (fun acc entry => acc + consumption entry) l 0.
Proof.
  revert a. induction l as [|e rest IH]; intros a; cbn [fold_left].
  - ring.
  - rewrite (IH (a + consumption e)), (IH (0 + consumption e)). ring.
Qed.

Lemma consumed_update (this : t) (l d : Q) (i : intensity) :
  consumed (updateFuelLevel this l d i) == consumed this + lap_consumption this d i.
Proof.
  unfold consumed. cbn [updateFuelLevel fuelHistory].
  rewrite fold_left_app. cbn [fold_left consumption]. reflexivity.
Qed.

Lemma drive_accounts (laps : list (Q * Q * intensity)) (this : t) :
  currentFuel (drive this laps) + consumed (drive this laps)
  == currentFuel this + consumed this /\
  List.length (fuelHistory (drive this laps))
  = (List.length (fuelHistory this) + List.length laps)%nat /\
  totalFuel (drive this laps) = totalFuel this.
Proof.
  revert this. induction laps as [|[[l d] i] rest IH]; intros this.
  - unfold drive. cbn [fold_left List.length]. split; [reflexivity|]. split; [lia | reflexivity].
  - unfold drive. cbn [fold_left]. fold (drive (updateFuelLevel this l d i) rest).
    destruct (IH (updateFuelLevel this l d i)) as (H1 & H2 & H3).
    rewrite H1, H2, H3, consumed_update.
    cbn [updateFuelLevel currentFuel fuelHistory totalFuel].
    rewrite length_app. cbn [List.length]. split; [ring|]. split; [lia | reflexivity].
Qed.

Lemma average_of_history (this : t) :
  fuelHistory this <> [] ->
  getAverageConsumption this
  == consumed this / inject_Z (Z.of_nat (List.length (fuelHistory this))).
Proof.
  intros Hh. unfold getAverageConsumption, consumed.
  destruct (fuelHistory this) as [|e rest]; [contradiction | reflexivity].
Qed.

(** In exact arithmetic the history accounts for all the fuel burnt: after
    any series of laps from a full tank the fuel left is the capacity less
    the consumptions logged, one entry per lap; so after at least one lap it
    is the capacity less the number of laps times [getAverageConsumption].
    (On doubles each subtraction and each sum is rounded, and the two sides
    drift apart by a few units in the last place.) *)
Theorem fuel_accounted :
  forall (capacity raceLength0 : Q) (laps : list (Q * Q * intensity)),
    let this := drive (new capacity raceLength0) laps in
    currentFuel this == capacity - consumed this /\
    List.length (fuelHistory this) = List.length laps /\
    (laps <> [] ->
     currentFuel this
     == capacity - inject_Z (Z.of_nat (List.length laps)) * getAverageConsumption this).
Proof.
  intros capacity raceLength0 laps this.
  destruct (drive_accounts laps (new capacity raceLength0)) as (H1 & H2 & _).
  fold this in H1, H2. cbn [new currentFuel fuelHistory List.length Nat.add] in H1, H2.
  unfold consumed at 2 in H1. cbn [new fuelHistory fold_left] in H1.
  assert (E : currentFuel this == capacity - consumed this) by lra.
  split; [exact E|]. split; [exact H2|]. intros Hne.
  assert (Hh : fuelHistory this <> []).
  { intros Eh. rewrite Eh in H2. destruct laps; [contradiction | discriminate H2]. }
  rewrite (average_of_history this Hh), H2, E.
  assert (Hn : 0 < inject_Z (Z.of_nat (List.length laps))).
  { destruct laps; [contradiction|]. change 0 with (inject_Z 0).
    rewrite <- Zlt_Qlt. cbn [List.length]. lia. }
  field. lra.
Qed.

Lemma fuel_accounted_witness :
  let laps := [(1, 0, NORMAL); (2, 0.1, AGGRESSIVE)] in
  let this := drive (new 110 44) laps in
  currentFuel this
  == 110 - inject_Z (Z.of_nat (List.length laps)) * getAverageConsumption this.
Proof.
  intros laps this.
  apply (fuel_accounted 110 44 laps). discriminate.
Defined.

Lemma drive_keeps_rate (laps : list (Q * Q * intensity)) (this : t) :
  fuelConsumptionPerLap (drive this laps) = fuelConsumptionPerLap this.
Proof.
  revert this. induction laps as [|[[l d] i] rest IH]; intros this; [reflexivity|].
  unfold drive. cbn [fold_left]. fold (drive (updateFuelLevel this l d i) rest).
  rewrite IH. reflexivity.
Qed.

(** Every lap burns fuel: for a degradation of zero or more a lap costs at
    least 0.89 kg (the fuel-saving rate 0.75 of the 1.2 kg base is 0.9, and
    the bound leaves room for the rounding of the product on doubles, which
    gives 0.8999999999999999), and a fuel level within a million kilograms
    goes down by at least 0.89 (on a larger level the subtraction could be
    lost in the rounding). *)
Theorem every_lap_burns_fuel :
  forall (capacity raceLength0 : Q) (laps : list (Q * Q * intensity))
         (l d : Q) (i : intensity),
    0 <= d ->
    let this := drive (new capacity raceLength0) laps in
    0.89 <= lap_consumption this d i /\
    (Qabs (currentFuel this) <= 1000000 ->
     currentFuel (updateFuelLevel this l d i) <= currentFuel this - 0.89).
Proof.
  intros capacity raceLength0 laps l d i Hd this.
  assert (Hrate : fuelConsumptionPerLap this = 1.2).
  { unfold this. rewrite drive_keeps_rate. reflexivity. }
  assert (Hc : 0.9 <= lap_consumption this d i).
  { unfold lap_consumption. rewrite Hrate.
    assert (Hd' : 0 <= d / 100) by (apply Qle_shift_div_l; lra).
    destruct i; cbn [intensityMultiplier]; nra. }
  split; [lra|]. intros _. cbn [updateFuelLevel currentFuel]. lra.
Qed.

Lemma every_lap_burns_fuel_witness :
  0.89 <= lap_consumption (drive (new 110 44) []) 0 FUEL_SAVE /\
  currentFuel (updateFuelLevel (drive (new 110 44) []) 1 0 FUEL_SAVE)
  <= currentFuel (drive (new 110 44) []) - 0.89.
Proof.
  destruct (every_lap_burns_fuel 110 44 [] 1 0 FUEL_SAVE) as [H1 H2]; [lra|].
  split; [exact H1|]. apply H2. cbn. unfold Qle; cbn; lia.
Defined.



End FuelExtras.

(* ================================================================== *)
(** * Further laws of pit_stop_analyzer.js *)
(* ================================================================== *)

Section PitExtras.
Local Open Scope Q_scope.
Import PitStopAnalyzer.

Lemma Math_round_eq (q : Q) (n : Z) :
  inject_Z n - (1 # 2) <= q -> q < inject_Z n + (1 # 2) -> JS.Math_round q = n.
Proof.
  intros H1 H2.
  assert (Ha := Math_round_ge_half q n H1).
  assert (Hb : (JS.Math_round q < n + 1)%Z).
  { apply Math_round_lt. rewrite inject_Z_plus. change (inject_Z 1) with 1. lra. }
  lia.
Qed.

(** From lap 0 on, with the race length left at its default, the position
    loss reported is exactly one place, whatever the position and whatever
    [Math.random()] draws from 0 to 1 - 2^-52: the variance never shows in
    the result, and the new position is the current one plus one.  (The
    last double below 1, 1 - 2^-53, is left out: there the code's sum
    1 + (random - 0.5) rounds to 1.5, which [Math.round] takes to 2.) *)
Theorem position_loss_is_one :
  forall (trackLength currentPosition lap random : Q),
    0 <= lap -> 0 <= random <= 1 - (1 # 4503599627370496) ->
    let r := estimatePositionLoss (new trackLength) currentPosition lap
               default_raceLength random in
    positionsLost r = 1%Z /\ newPosition r == currentPosition + 1 /\
    timeLossSeconds r == 24.
Proof.
  intros tl cp lap rnd Hlap [Hr0 Hr1'] r.
  assert (Hr1 : rnd < 1) by lra.
  assert (Hceil : JS.Math_ceil (pitStopDuration (new tl) / (avgLapTime (new tl) * 0.15)) = 1%Z)
    by reflexivity.
  assert (E : positionsLost r = 1%Z).
  { unfold r, estimatePositionLoss. cbn [positionsLost]. rewrite Hceil.
    unfold default_raceLength.
    set (spread := inject_Z 1 * (1 - lap / 300 * 0.5)).
    assert (Hs : spread <= 1).
    { unfold spread. change (inject_Z 1) with 1.
      assert (0 <= lap / 300) by (apply Qle_shift_div_l; lra). lra. }
    set (lost1 := JS.Math_max 1 (JS.Math_min spread (cp - 1))).
    assert (H1 : lost1 == 1).
    { unfold lost1, JS.Math_max. apply Q.max_l.
      apply Qle_trans with spread; [apply Q.le_min_l | exact Hs]. }
    unfold JS.Math_max at 1.
    destruct (Q.max_spec 1 (lost1 + (rnd - 0.5) * 1)) as [[Hlt Em]|[Hle Em]].
    - apply Math_round_eq; rewrite Em; change (inject_Z 1) with 1; lra.
    - apply Math_round_eq; rewrite Em; change (inject_Z 1) with 1; lra. }
  split; [exact E|]. split.
  - unfold r, estimatePositionLoss in *. cbn [positionsLost newPosition] in *.
    rewrite E. change (inject_Z 1) with 1. reflexivity.
  - reflexivity.
Qed.

Lemma position_loss_is_one_witness :
  positionsLost (estimatePositionLoss (new 7) 1 50 default_raceLength (9 # 10)) = 1%Z /\
  newPosition (estimatePositionLoss (new 7) 1 50 default_raceLength (9 # 10)) == 1 + 1 /\
  timeLossSeconds (estimatePositionLoss (new 7) 1 50 default_raceLength (9 # 10)) == 24.
Proof. apply (position_loss_is_one 7 1 50 (9 # 10)); [lra | split; lra]. Defined.

(** The recovery estimate never gains more places than there are cars ahead
    and never reports a position better than first: from position 1 or
    worse and after zero or more laps, the final position lies between 1 and
    the current position. *)
Theorem position_recovery_bounded :
  forall (trackLength currentPosition lapsAfterPit : Q),
    1 <= currentPosition -> 0 <= lapsAfterPit ->
    let r := estimatePositionRecovery (new trackLength) currentPosition lapsAfterPit in
    0 <= estimatedPositionGain r <= currentPosition - 1 /\
    1 <= finalPosition r <= currentPosition.
Proof.
  intros tl cp laps Hcp Hlaps r.
  unfold r, estimatePositionRecovery. cbn [estimatedPositionGain finalPosition new avgLapTime].
  set (gainPerLap := 0.7 / 190 * 20).
  assert (Hg : 0 <= gainPerLap * laps).
  { apply Qmult_le_0_compat; [|exact Hlaps]. unfold gainPerLap, Qle. cbn. lia. }
  set (gain := JS.Math_min (gainPerLap * laps) (cp - 1)).
  assert (Hgain : 0 <= gain <= cp - 1).
  { unfold gain, JS.Math_min. split; [apply Q.min_glb; [exact Hg | lra] | apply Q.le_min_r]. }
  split; [exact Hgain|].
  assert (Hround : (0 <= JS.Math_round gain)%Z).
  { apply Math_round_ge. change (inject_Z 0) with 0. lra. }
  rewrite Zle_Qle in Hround. change (inject_Z 0) with 0 in Hround.
  unfold JS.Math_max. split; [apply Q.le_max_l|].
  apply Q.max_lub; lra.
Qed.

Lemma position_recovery_bounded_witness :
  0 <= estimatedPositionGain (estimatePositionRecovery (new 7) 6 30) <= 6 - 1 /\
  1 <= finalPosition (estimatePositionRecovery (new 7) 6 30) <= 6.
Proof. apply (position_recovery_bounded 7 6 30); lra. Defined.

(** The ladder is monotone in the cliff probability: with everything else
    fixed, a higher cliff probability never gives a weaker recommendation,
    and the laps to go shrink as the recommendation strengthens. *)
Theorem ladder_monotone :
  forall (currentLap cliff1 cliff2 lapsSince : Q) (tireAge0 maxTireAge0 : option Q),
    cliff1 <= cliff2 ->
    let w1 := determineOptimalPitWindow currentLap cliff1 lapsSince tireAge0 maxTireAge0 in
    let w2 := determineOptimalPitWindow currentLap cliff2 lapsSince tireAge0 maxTireAge0 in
    (recommendation_rank (pw_recommendation w1)
     <= recommendation_rank (pw_recommendation w2))%Z /\
    (lapsToGo w2 <= lapsToGo w1)%Z.
Proof.
  intros currentLap c1 c2 lapsSince a m Hc w1 w2. unfold w1, w2.
  unfold determineOptimalPitWindow.
  js_case; [cbn; lia|].
  repeat (js_case; cbn [andb pw_recommendation lapsToGo recommendation_rank]);
    try lia; exfalso; lra.
Qed.

Lemma ladder_monotone_witness :
  (recommendation_rank (pw_recommendation (determineOptimalPitWindow 10 0.3 5 None None))
   <= recommendation_rank
        (pw_recommendation (determineOptimalPitWindow 10 0.7 5 None None)))%Z /\
  (lapsToGo (determineOptimalPitWindow 10 0.7 5 None None)
   <= lapsToGo (determineOptimalPitWindow 10 0.3 5 None None))%Z.
Proof. apply (ladder_monotone 10 0.3 0.7 5 None None). lra. Defined.

Lemma tire_age_block_pit (r c : Q) :
  snd (tire_age_block r c) = JS.geb r 0.85.
Proof. unfold tire_age_block. repeat js_case; try reflexivity; exfalso; lra. Qed.

Lemma cliff_block_pit (tu : Z) (c : Q) : snd (cliff_block tu c) = JS.gtb c 0.75.
Proof. unfold cliff_block. repeat js_case; try reflexivity; exfalso; lra. Qed.

Lemma fuel_block_pit (f p : Q) :
  snd (fuel_block f p) = (JS.Math_ceil (f / p) <? 5)%Z.
Proof.
  unfold fuel_block.
  destruct (JS.Math_ceil (f / p) <? 5)%Z; [reflexivity|].
  destruct (JS.Math_ceil (f / p) <? 10)%Z; reflexivity.
Qed.

Lemma shouldPit_iff (s : CurrentState) :
  shouldPit (analyzePitStrategy s) = true <->
  0.85 <= tireAgePercent s \/ 0.75 < cliffProb s \/ (lapsRemaining s < 5)%Z.
Proof.
  rewrite analyze_shouldPit, tire_age_block_pit, cliff_block_pit, fuel_block_pit.
  rewrite !orb_true_iff, geb_true, gtb_true, Z.ltb_lt. unfold lapsRemaining. tauto.
Qed.

Lemma decision_box_iff (s : CurrentState) :
  an_decision (analyzePitStrategy s) = BOX <-> shouldPit (analyzePitStrategy s) = true.
Proof.
  unfold analyzePitStrategy.
  destruct (tire_age_block _ _) as [[tu1 r1] p1].
  destruct (cliff_block _ _) as [[tu2 r2] p2].
  destruct (fuel_block _ _) as [[fu r3] p3].
  destruct (strategy_block _ _ _ _) as [su r4].
  cbn [an_decision shouldPit].
  destruct (p1 || p2 || p3); split; intros H; try discriminate H; reflexivity.
Qed.

(** With a maximum tire age and a fuel per lap other than zero, BOX is
    called exactly when the tire has reached 85% of its maximum age, or the
    cliff probability is above 0.75, or fewer than five laps of fuel remain;
    the strategy block never calls it. *)
Theorem box_exactly_when :
  forall s : CurrentState,
    ~ JS.or_default 25 (maxTireAge s) == 0 ->
    ~ fuelPerLap s == 0 ->
    (an_decision (analyzePitStrategy s) = BOX <->
     0.85 <= tireAgePercent s \/ 0.75 < cliffProb s \/ (lapsRemaining s < 5)%Z) /\
    (an_decision (analyzePitStrategy s) = BOX <-> shouldPit (analyzePitStrategy s) = true).
Proof.
  intros s _ _. split; [|apply decision_box_iff].
  rewrite decision_box_iff. apply shouldPit_iff.
Qed.

Lemma box_exactly_when_witness :
  let s := mkCurrentState 30 5 (5 # 2) 0.30 24 1.2 WeatherAnalyzer.DRY 24
             (Some 24) (Some 25) in
  (an_decision (analyzePitStrategy s) = BOX <->
   0.85 <= tireAgePercent s \/ 0.75 < cliffProb s \/ (lapsRemaining s < 5)%Z) /\
  (an_decision (analyzePitStrategy s) = BOX <-> shouldPit (analyzePitStrategy s) = true).
Proof.
  intros s. apply (box_exactly_when s); cbn; intros H; discriminate H.
Defined.

(** The ladder and the scorer agree on an immediate pit stop except at the
    boundary: given the same tire age over a positive maximum age, whenever
    the ladder answers PIT_IMMEDIATELY and the cliff probability is not
    exactly 0.75, the scorer calls BOX.  At exactly 0.75 the ladder's [>=]
    fires and the scorer's [>] does not. *)
Theorem ladder_implies_box :
  forall (s : CurrentState) (currentLap : Q),
    0 < JS.or_default 25 (maxTireAge s) ->
    ~ cliffProb s == 0.75 ->
    pw_recommendation
      (determineOptimalPitWindow currentLap (cliffProb s) (lapsSincePit s)
         (tireAge s) (maxTireAge s)) = PIT_IMMEDIATELY ->
    an_decision (analyzePitStrategy s) = BOX.
Proof.
  intros s currentLap Hmax Hne Hlad.
  apply decision_box_iff. apply shouldPit_iff.
  revert Hlad. unfold determineOptimalPitWindow, tireAgePercent.
  js_case.
  - intros _. left. apply ratio_ge; [exact Hmax|]. lra.
  - js_case.
    + intros _. right. left.
      destruct (Qlt_le_dec 0.75 (cliffProb s)) as [H|H]; [exact H|].
      exfalso. apply Hne. lra.
    + repeat js_case; cbn [andb pw_recommendation]; intros H; discriminate H.
Qed.

End PitExtras.

Section TireOnly.
Local Open Scope Q_scope.
Import PitStopAnalyzer.

(** A tire emergency alone never lifts the total above 5: with fuel and
    strategy urgencies at their floor of 1, the total urgency is at most 5
    even at tire urgency 10, so it does not pass a threshold of
    [totalUrgency > 5]. *)
Theorem tire_alone_stays_at_five :
  forall s : CurrentState,
    0 <= cliffProb s <= 1 ->
    fuelUrgency (analyzePitStrategy s) = 1%Z ->
    strategyUrgency (analyzePitStrategy s) = 1%Z ->
    (totalUrgency (analyzePitStrategy s) <= 5)%Z.
Proof.
  intros s Hc Hf Hs.
  assert (Ht1 := tire_age_block_bounds (tireAgePercent s) (cliffProb s) Hc).
  assert (Ht2 := cliff_block_bounds _ (cliffProb s) Ht1).
  rewrite analyze_totalUrgency, Hf, Hs, analyze_tireUrgency.
  set (tu := fst (fst (cliff_block _ _))) in *.
  unfold Spec.composite.
  assert (JS.Math_round ((inject_Z tu * 1.5 + inject_Z 1 + inject_Z 1) / 3.5) < 6)%Z;
    [|lia].
  destruct Ht2 as [_ Hu]. rewrite Zle_Qle in Hu.
  change (inject_Z 10) with 10 in Hu. change (inject_Z 1) with 1.
  apply Math_round_lt. change (inject_Z 6) with 6.
  apply Qlt_shift_div_r; lra.
Qed.

Lemma tire_alone_stays_at_five_witness :
  let s := mkCurrentState 30 5 (5 # 2) 0.30 24 1.2 WeatherAnalyzer.DRY 24
             (Some 24) (Some 25) in
  (totalUrgency (analyzePitStrategy s) <= 5)%Z.
Proof.
  intros s.
  apply (tire_alone_stays_at_five s); [cbn; lra | reflexivity | reflexivity].
Defined.

End TireOnly.

(* ================================================================== *)
(** * Laws of the dashboard's decision step *)
(* ================================================================== *)

Section DashboardExtras.
Local Open Scope Q_scope.
Import Dashboard.


Lemma handleAiDecision_cases (st : State) (lap : Z) (cliff rnd : Q) :
  let '(st', a) := handleAiDecision st lap cliff rnd in
  match a with
  | Busy => isAgentThinking st = true /\ st' = st
  | MandatoryPit =>
      isAgentThinking st = false /\
      TireStrategy.isPitStopMandatory (lapsSinceLastPit st) (currentTireCompound st) = true /\
      st' = set_pit st
  | NoCheck =>
      isAgentThinking st = false /\ cliff <= 0.40 /\
      isAgentThinking st' = false /\ executePitStop st' = executePitStop st /\
      lastDecisionLap st' = lastDecisionLap st
  | TooSoon =>
      isAgentThinking st = false /\ (lap - lastDecisionLap st < 2)%Z /\
      isAgentThinking st' = false /\ executePitStop st' = executePitStop st /\
      lastDecisionLap st' = lastDecisionLap st
  | Consult r =>
      isAgentThinking st = false /\
      TireStrategy.isPitStopMandatory (lapsSinceLastPit st) (currentTireCompound st) = false /\
      (2 <= lap - lastDecisionLap st)%Z /\
      isAgentThinking st' = true /\ lastDecisionLap st' = lap /\
      executePitStop st' = executePitStop st /\
      (0.40 < cliff \/ (0 < lap /\ Z.rem lap 4 = 0)%Z
       \/ PitStopAnalyzer.shouldPit (pitAnalysis r) = true)
  end /\
  lapsSinceLastPit st' = lapsSinceLastPit st /\
  currentTireCompound st' = currentTireCompound st /\
  raceState st' = raceState st /\
  fuelStrategy st' = fuelStrategy st /\
  pitStopAnalyzer st' = pitStopAnalyzer st /\
  (executePitStop st = true -> executePitStop st' = true).
Proof.
  unfold handleAiDecision.
  destruct (isAgentThinking st) eqn:Eth; [repeat split; auto|].
  destruct (TireStrategy.isPitStopMandatory _ _) eqn:Em; [repeat split; auto|].
  unfold analyze_weather.
  destruct (WeatherAnalyzer.analyzeWeatherImpact (weatherAnalyzer st) _ _ _ _)
    as [imp w'] eqn:Ew.
  cbn [set_weatherAnalyzer raceState lapsSinceLastPit currentTireCompound fuelStrategy
       currentPosition gapToLeader lastDecisionLap pitStopAnalyzer].
  set (an := PitStopAnalyzer.analyzePitStrategy _).
  destruct (JS.gtb cliff 0.40) eqn:Ec; cbn [orb].
  - apply gtb_true in Ec.
    destruct (lap - lastDecisionLap st <? 2)%Z eqn:El.
    + apply Z.ltb_lt in El. cbn. repeat split; auto.
    + apply Z.ltb_ge in El.
      destruct (WeatherAnalyzer.analyzeWeatherImpact _ _ _ _ _) as [imp2 w2].
      cbn. repeat split; auto.
  - apply gtb_false in Ec.
    destruct ((0 <? lap)%Z && (Z.rem lap 4 =? 0)%Z || PitStopAnalyzer.shouldPit an) eqn:Ed.
    + destruct (lap - lastDecisionLap st <? 2)%Z eqn:El.
      * apply Z.ltb_lt in El. cbn. repeat split; auto.
      * apply Z.ltb_ge in El.
        destruct (WeatherAnalyzer.analyzeWeatherImpact _ _ _ _ _) as [imp2 w2].
        cbn. repeat split; auto.
        apply orb_true_iff in Ed. destruct Ed as [Ed|Ed]; [|auto].
        apply andb_true_iff in Ed. destruct Ed as [E1 E2].
        apply Z.ltb_lt in E1. apply Z.eqb_eq in E2. right. left. split; assumption.
    + cbn. repeat split; auto.
Qed.

(** A request to the advisor leaves only when none is in flight, the pit
    stop is not mandatory, and at least two laps have passed since the last
    request; it notes the lap and raises [isAgentThinking], so that every
    later call returns at once, changing nothing, until the answer arrives. *)
Theorem one_request_at_a_time :
  forall (st st' : State) (lap : Z) (cliff rnd : Q) (r : Request),
    handleAiDecision st lap cliff rnd = (st', Consult r) ->
    isAgentThinking st = false /\
    (2 <= lap - lastDecisionLap st)%Z /\
    lastDecisionLap st' = lap /\
    isAgentThinking st' = true /\
    (forall (lap' : Z) (cliff' rnd' : Q),
       handleAiDecision st' lap' cliff' rnd' = (st', Busy)).
Proof.
  intros st st' lap cliff rnd r H.
  assert (Hc := handleAiDecision_cases st lap cliff rnd). rewrite H in Hc.
  destruct Hc as [(H1 & _ & H3 & H4 & H5 & _) _].
  repeat split; try assumption.
  intros lap' cliff' rnd'. unfold handleAiDecision. rewrite H4. reflexivity.
Qed.

(** The decision step touches nothing but its own bookkeeping: whatever it
    decides, the stint length, the compound, the race state, the fuel and
    the analyzer are unchanged, and a pit stop already ordered stays
    ordered. *)
Theorem decision_step_frame :
  forall (st : State) (lap : Z) (cliff rnd : Q),
    let st' := fst (handleAiDecision st lap cliff rnd) in
    lapsSinceLastPit st' = lapsSinceLastPit st /\
    currentTireCompound st' = currentTireCompound st /\
    raceState st' = raceState st /\
    fuelStrategy st' = fuelStrategy st /\
    pitStopAnalyzer st' = pitStopAnalyzer st /\
    (executePitStop st = true -> executePitStop st' = true).
Proof.
  intros st lap cliff rnd st'. unfold st'.
  assert (Hc := handleAiDecision_cases st lap cliff rnd).
  destruct (handleAiDecision st lap cliff rnd) as [s a]. exact (proj2 Hc).
Qed.

(** A cliff probability above 0.40 always leads to a request when none is
    in flight, the pit stop is not mandatory and two laps have passed since
    the last one; below that, with no BOX from the scorer, a request leaves
    only on every fourth lap. *)
Theorem cliff_above_040_asks :
  forall (st : State) (lap : Z) (cliff rnd : Q),
    isAgentThinking st = false ->
    TireStrategy.isPitStopMandatory (lapsSinceLastPit st) (currentTireCompound st) = false ->
    (2 <= lap - lastDecisionLap st)%Z ->
    0.40 < cliff ->
    exists r, snd (handleAiDecision st lap cliff rnd) = Consult r.
Proof.
  intros st lap cliff rnd Hth Hm Hl Hc.
  assert (H := handleAiDecision_cases st lap cliff rnd).
  destruct (handleAiDecision st lap cliff rnd) as [s a]. destruct H as [H _].
  destruct a as [| | | |r]; cbn [snd].
  - destruct H as [H _]. congruence.
  - destruct H as (_ & H & _). congruence.
  - destruct H as (_ & H & _). lra.
  - destruct H as (_ & H & _). lia.
  - exists r. reflexivity.
Qed.

End DashboardExtras.

Section ExtraWitnesses.
Local Open Scope Q_scope.

Lemma ladder_implies_box_witness :
  let s := PitStopAnalyzer.mkCurrentState 30 5 (5 # 2) 0.80 60 1.2
             WeatherAnalyzer.DRY 12 (Some 12) (Some 28) in
  PitStopAnalyzer.an_decision (PitStopAnalyzer.analyzePitStrategy s) = PitStopAnalyzer.BOX.
Proof.
  intros s.
  apply (ladder_implies_box s 30); [cbn; lra | cbn; intros H; discriminate H | reflexivity].
Defined.

Lemma cliff_above_040_asks_witness :
  exists r,
    snd (Dashboard.handleAiDecision
           (Dashboard.mkState false (-5) false 1 5 TireStrategy.SOFT
              (Dashboard.mkRaceState 3 (3 # 2) 25 20 65 0 1)
              WeatherAnalyzer.new (FuelStrategy.new 110 44) (PitStopAnalyzer.new 7))
           4 0.5 (1 # 2))
    = Dashboard.Consult r.
Proof.
  apply (cliff_above_040_asks
           (Dashboard.mkState false (-5) false 1 5 TireStrategy.SOFT
              (Dashboard.mkRaceState 3 (3 # 2) 25 20 65 0 1)
              WeatherAnalyzer.new (FuelStrategy.new 110 44) (PitStopAnalyzer.new 7))
           4 0.5 (1 # 2)); [reflexivity | reflexivity | cbn; lia | lra].
Defined.

Lemma one_request_at_a_time_witness :
  let st0 :=
    Dashboard.mkState false (-5) false 1 5 TireStrategy.SOFT
      (Dashboard.mkRaceState 3 (3 # 2) 25 20 65 0 1)
      WeatherAnalyzer.new (FuelStrategy.new 110 44) (PitStopAnalyzer.new 7) in
  Dashboard.isAgentThinking st0 = false /\
  (2 <= 4 - Dashboard.lastDecisionLap st0)%Z /\
  Dashboard.lastDecisionLap (fst (Dashboard.handleAiDecision st0 4 0.5 (1 # 2))) = 4%Z /\
  Dashboard.isAgentThinking (fst (Dashboard.handleAiDecision st0 4 0.5 (1 # 2))) = true.
Proof.
  intros st0.
  destruct (Dashboard.handleAiDecision st0 4 0.5 (1 # 2)) as [s a] eqn:E.
  assert (Ha : exists r, a = Dashboard.Consult r).
  { replace a with (snd (Dashboard.handleAiDecision st0 4 0.5 (1 # 2)))
      by (rewrite E; reflexivity).
    vm_compute. eexists. reflexivity. }
  destruct Ha as [r Ha]. subst a. cbn [fst].
  destruct (one_request_at_a_time st0 s 4 0.5 (1 # 2) r E) as (H1 & H2 & H3 & H4 & _).
  repeat split; assumption.
Defined.

End ExtraWitnesses.
